(** * Operations tracker: the interpreter [processInput] and the aggregation
    endpoints of [backend/server.js], embedded in Rocq.

    Modelling conventions.
    - A JavaScript string is a sequence of UTF-16 code units.  The model
      covers the strings whose code units are all below 256: a Rocq [string]
      is read as that sequence, one [ascii] per code unit (so the degree sign
      U+00B0 is the single character 176, not a UTF-8 byte pair).
    - A JavaScript number is an IEEE 754 binary64 value, modelled with the
      standard library's [spec_float] at precision 53 and [emax] 1024.
    - A [Date] is its time value: [Some t], an integral number of
      milliseconds since the epoch with |t| <= 8.64e15, or [None] for an
      invalid date.  A thrown exception is [None] in the result of the
      function that throws.
    - The module-level array [entries] is threaded explicitly through the
      handlers. *)

From Stdlib Require Import ZArith NArith Ascii String DecimalString List Bool Lia.
From Stdlib Require Import Floats.SpecFloat.
From Stdlib Require Import Sorting.Sorted Sorting.Permutation.
From stdpp Require Import gmap strings list fin_maps sorting.

Local Open Scope Z_scope.

(** ** Characters and strings *)

Module Char.

Definition code (c : ascii) : N := N_of_ascii c.

Definition between (lo hi : N) (c : ascii) : bool :=
  ((lo <=? code c) && (code c <=? hi))%N.

(** [\d] *)
Definition is_digit (c : ascii) : bool := between 48 57 c.

(** [\s], restricted to the code units below 256: TAB, LF, VT, FF, CR,
    SPACE and NO-BREAK SPACE. *)
Definition is_space (c : ascii) : bool :=
  between 9 13 c || (code c =? 32)%N || (code c =? 160)%N.

Definition shift (d : Z) (c : ascii) : ascii :=
  ascii_of_N (Z.to_N (Z.of_N (code c) + d)).

(** One character of [String.prototype.toLowerCase]: A-Z, and the Latin-1
    capitals U+00C0..U+00DE except the multiplication sign U+00D7. *)
Definition toLowerCase (c : ascii) : ascii :=
  if between 65 90 c || (between 192 222 c && negb (code c =? 215)%N)
  then shift 32 c else c.

(** [Canonicalize] of a regular expression with the [i] flag and without
    the [u] flag: the character's upper case when that is one code unit.
    U+00B5 and U+00FF have their upper case outside the modelled range,
    where nothing else maps: they are left in place, which keeps every
    comparison of two canonical characters as it is. *)
Definition canonicalize (c : ascii) : ascii :=
  if between 97 122 c || (between 224 254 c && negb (code c =? 247)%N)
  then shift (-32) c else c.

End Char.

Fixpoint map_string (f : ascii -> ascii) (s : string) : string :=
  match s with
  | EmptyString => EmptyString
  | String c s' => String (f c) (map_string f s')
  end.

(** [s.toLowerCase()] *)
Definition toLowerCase (s : string) : string := map_string Char.toLowerCase s.

(** [sub] is an initial segment of [s]. *)
Fixpoint starts_with (sub s : string) : bool :=
  match sub, s with
  | EmptyString, _ => true
  | String a sub', String b s' => Ascii.eqb a b && starts_with sub' s'
  | String _ _, EmptyString => false
  end.

(** [s.includes(sub)] *)
Fixpoint includes (s sub : string) : bool :=
  starts_with sub s ||
  match s with
  | EmptyString => false
  | String _ s' => includes s' sub
  end.

(** The first [n] characters of [s]. *)
Fixpoint take_string (n : nat) (s : string) : string :=
  match n, s with
  | S n', String c s' => String c (take_string n' s')
  | _, _ => EmptyString
  end.

(** What was read of [s] when [rest] is what remains of it. *)
Definition consumed (s rest : string) : string :=
  take_string (String.length s - String.length rest) s.

(** ** Regular expressions

    The fragment of the language that the patterns of [processInput] use,
    matched the way the engine does: by backtracking, alternatives from left
    to right, quantifiers greedy. *)

Module RegExp.

Inductive atom : Type :=
| Chr (c : ascii)            (* a pattern character *)
| Range (lo hi : ascii)      (* lo-hi inside a class *)
| Digit                      (* \d *)
| Space.                     (* \s *)

Inductive regex : Type :=
| Eps
| Class (cs : list atom)     (* one character: c, \d, \s or [...] *)
| Seq (r1 r2 : regex)
| Alt (r1 r2 : regex)
| Opt (r : regex)            (* r? *)
| Star (cs : list atom)      (* c*, \d*, \s*, [...]* *)
| Group (n : nat) (r : regex).  (* the n-th capturing parentheses *)

(** c+ *)
Definition Plus (cs : list atom) : regex := Seq (Class cs) (Star cs).

(** A run of pattern characters. *)
Fixpoint Lit (s : string) : regex :=
  match s with
  | EmptyString => Eps
  | String c EmptyString => Class [Chr c]
  | String c s' => Seq (Class [Chr c]) (Lit s')
  end.

Fixpoint Alts (rs : list regex) : regex :=
  match rs with
  | [] => Eps
  | [r] => r
  | r :: rs' => Alt r (Alts rs')
  end.

Definition codes_between (lo hi : ascii) : list ascii :=
  map (fun k => ascii_of_nat (nat_of_ascii lo + k))
      (seq 0 (S (nat_of_ascii hi) - nat_of_ascii lo)).

Definition atom_match (ignoreCase : bool) (a : atom) (c : ascii) : bool :=
  match a with
  | Chr x =>
      if ignoreCase
      then Ascii.eqb (Char.canonicalize x) (Char.canonicalize c)
      else Ascii.eqb x c
  | Range lo hi =>
      if ignoreCase
      then existsb (fun x => Ascii.eqb (Char.canonicalize x) (Char.canonicalize c))
                   (codes_between lo hi)
      else Char.between (Char.code lo) (Char.code hi) c
  | Digit => Char.is_digit c
  | Space => Char.is_space c
  end.

Definition class_match (ignoreCase : bool) (cs : list atom) (c : ascii) : bool :=
  existsb (fun a => atom_match ignoreCase a c) cs.

(** Captures: group number and captured text, the latest first. *)
Definition captures : Type := list (nat * string).

Fixpoint capture (n : nat) (caps : captures) : option string :=
  match caps with
  | [] => None
  | (k, s) :: caps' => if Nat.eqb k n then Some s else capture n caps'
  end.

Section Matcher.
Context {R : Type}.
Variable ignoreCase : bool.

(** Greedy repetition of a character class: as many characters as
    possible, giving one back at a time while the continuation fails. *)
Fixpoint star (cs : list atom) (k : string -> option R) (s : string) : option R :=
  match s with
  | String c s' =>
      if class_match ignoreCase cs c
      then match star cs k s' with
           | Some x => Some x
           | None => k s
           end
      else k s
  | EmptyString => k s
  end.

Fixpoint run (r : regex) (s : string) (caps : captures)
         (k : string -> captures -> option R) : option R :=
  match r with
  | Eps => k s caps
  | Class cs =>
      match s with
      | String c s' => if class_match ignoreCase cs c then k s' caps else None
      | EmptyString => None
      end
  | Seq r1 r2 => run r1 s caps (fun s1 caps1 => run r2 s1 caps1 k)
  | Alt r1 r2 =>
      match run r1 s caps k with
      | Some x => Some x
      | None => run r2 s caps k
      end
  | Opt r1 =>
      match run r1 s caps k with
      | Some x => Some x
      | None => k s caps
      end
  | Star cs => star cs (fun s1 => k s1 caps) s
  | Group n r1 =>
      run r1 s caps (fun s1 caps1 => k s1 ((n, consumed s s1) :: caps1))
  end.
End Matcher.

(** A successful match: where it starts, the matched text, the captures
    and the input that follows it. *)
Record match_result : Type := MatchResult {
  index : nat;
  matched : string;
  groups : captures;
  after : string
}.

(** The match that starts at the head of [s], [i] characters into the
    input. *)
Definition match_here (ignoreCase : bool) (r : regex) (i : nat) (s : string)
  : option match_result :=
  run ignoreCase r s []
      (fun rest caps => Some (MatchResult i (consumed s rest) caps rest)).

(** The leftmost match at or after the head of [s]. *)
Fixpoint search (ignoreCase : bool) (r : regex) (i : nat) (s : string)
  : option match_result :=
  match match_here ignoreCase r i s with
  | Some m => Some m
  | None =>
      match s with
      | String _ s' => search ignoreCase r (S i) s'
      | EmptyString => None
      end
  end.

(** Every match from left to right, each search starting where the
    previous match ended, one character further after an empty match. *)
Fixpoint search_all (fuel : nat) (ignoreCase : bool) (r : regex) (i : nat) (s : string)
  : list string :=
  match fuel with
  | O => []
  | S fuel' =>
      match search ignoreCase r i s with
      | None => []
      | Some m =>
          let j := (index m + String.length (matched m))%nat in
          matched m ::
            match matched m, after m with
            | EmptyString, EmptyString => []
            | EmptyString, String _ s' => search_all fuel' ignoreCase r (S j) s'
            | _, s' => search_all fuel' ignoreCase r j s'
            end
      end
  end.

End RegExp.

Import RegExp.

(** [s.match(r)] for a pattern without the [g] flag: the first match with
    its groups, or [null]. *)
Definition String_match (ignoreCase : bool) (r : regex) (s : string)
  : option match_result :=
  search ignoreCase r 0 s.

(** [s.match(r)] for a pattern with the [g] flag: the array of all matched
    texts, or [null] when there is none. *)
Definition String_match_g (ignoreCase : bool) (r : regex) (s : string)
  : option (list string) :=
  match search_all (S (String.length s)) ignoreCase r 0 s with
  | [] => None
  | ms => Some ms
  end.

(** ** Numbers *)

Module Number.

Definition prec : Z := 53.
Definition emax : Z := 1024.

(** The binary64 value nearest to an integer (ties to even). *)
Definition of_Z (z : Z) : spec_float := binary_normalize prec emax z 0 false.

Definition NaN : spec_float := S754_nan.

Definition add : spec_float -> spec_float -> spec_float := SFadd prec emax.
Definition mul : spec_float -> spec_float -> spec_float := SFmul prec emax.
Definition sub : spec_float -> spec_float -> spec_float := SFsub prec emax.
Definition div : spec_float -> spec_float -> spec_float := SFdiv prec emax.

(** [x < y]; false as soon as one side is NaN. *)
Definition ltb : spec_float -> spec_float -> bool := SFltb.

(** The integer a finite number denotes when it has no fractional part,
    truncated toward zero otherwise ([ToIntegerOrInfinity]); [None] for
    NaN and the infinities. *)
Definition truncate (x : spec_float) : option Z :=
  match x with
  | S754_zero _ => Some 0
  | S754_finite s m e =>
      let a := if 0 <=? e then Zpos m * 2 ^ e else Zpos m / 2 ^ (- e) in
      Some (if s then - a else a)
  | _ => None
  end.

End Number.

Abbreviation Number := spec_float (only parsing).

(** The value of a character as a digit: 0 to 9, then the letters, in
    either case, for 10 to 35. *)
Definition digit_value (c : ascii) : option Z :=
  if Char.between 48 57 c then Some (Z.of_N (Char.code c) - 48)
  else if Char.between 97 122 c then Some (Z.of_N (Char.code c) - 87)
  else if Char.between 65 90 c then Some (Z.of_N (Char.code c) - 55)
  else None.

Definition radix_digit (radix : Z) (c : ascii) : option Z :=
  match digit_value c with
  | Some d => if d <? radix then Some d else None
  | None => None
  end.

(** Reads the longest prefix of digits of [s], from the value [acc] of the
    [n] digits read before it. *)
Fixpoint read_digits (radix : Z) (s : string) (acc : Z) (n : nat) : Z * nat :=
  match s with
  | String c s' =>
      match radix_digit radix c with
      | Some d => read_digits radix s' (acc * radix + d) (S n)
      | None => (acc, n)
      end
  | EmptyString => (acc, n)
  end.

Fixpoint trim_start (s : string) : string :=
  match s with
  | String c s' => if Char.is_space c then trim_start s' else s
  | EmptyString => s
  end.

(** [parseInt(s)]: leading white space, an optional sign, an optional [0x]
    prefix that selects base 16, then the longest run of digits; NaN when
    that run is empty, else the number nearest to the signed value of the
    run, with the sign kept on a zero. *)
Definition parseInt (input : string) : Number :=
  let s := trim_start input in
  let '(negative, s) :=
    match s with
    | String c s' =>
        if Ascii.eqb c "-" then (true, s')
        else if Ascii.eqb c "+" then (false, s')
        else (false, s)
    | EmptyString => (false, s)
    end in
  let '(radix, s) :=
    match s with
    | String c (String x s') =>
        if Ascii.eqb c "0" && (Ascii.eqb x "x" || Ascii.eqb x "X") then (16, s')
        else (10, s)
    | _ => (10, s)
    end in
  match read_digits radix s 0 0 with
  | (_, O) => Number.NaN
  | (0, _) => S754_zero negative
  | (v, _) => Number.of_Z (if negative then - v else v)
  end.

(** The value of a string of decimal digits. *)
Definition decimal_value (s : string) : Z := fst (read_digits 10 s 0 0).

(** [ToNumber(s)] for a string [s] of decimal digits, which is all that the
    captures of [(\d+)] can hold. *)
Definition ToNumber_digits (s : string) : Number := Number.of_Z (decimal_value s).

(** ** The interpreter *)

Inductive Category : Type := event | issue | delay | quality.
Inductive Severity : Type := low | medium | high.

#[global] Instance Category_eq_dec : EqDecision Category.
Proof. solve_decision. Defined.

#[global] Instance Severity_eq_dec : EqDecision Severity.
Proof. solve_decision. Defined.

Definition Category_name (c : Category) : string :=
  match c with
  | event => "event" | issue => "issue" | delay => "delay" | quality => "quality"
  end.

Definition Severity_name (s : Severity) : string :=
  match s with
  | low => "low" | medium => "medium" | high => "high"
  end.

Record Metrics : Type := mkMetrics {
  duration : option string;
  temperature : option string;
  voltage : option string;
  quantity : option Number
}.

(** The object [processInput] returns. *)
Record Processed : Type := mkProcessed {
  category : Category;
  severity : Severity;
  entities : list string;
  extracted_metrics : Metrics
}.

(** U+00B0 *)
Definition degree_sign : string := String (ascii_of_nat 176) EmptyString.

(** [m[n]] inside a template literal. *)
Definition group (n : nat) (m : match_result) : string :=
  match capture n (groups m) with
  | Some s => s
  | None => "undefined"
  end.

(** [new Set(l)] spread back into an array: the elements of [l] in the order
    of their first occurrence. *)
Definition Set_add (seen : list string) (x : string) : list string :=
  if bool_decide (x ∈ seen) then seen else seen ++ [x].

Definition Set_of (l : list string) : list string := fold_left Set_add l [].

Definition digits1 : regex := Plus [Digit].
Definition spaces0 : regex := Star [Space].
Definition spaces1 : regex := Plus [Space].

(** [/motor|pcb|board|circuit|sensor|controller|relay|switch|battery|capacitor/gi],
    [/version\s+\d+/gi] and [/node\s+[a-z]/gi] *)
Definition componentPatterns : list regex :=
  [ Alts (map Lit ["motor"; "pcb"; "board"; "circuit"; "sensor"; "controller";
                   "relay"; "switch"; "battery"; "capacitor"]);
    Seq (Lit "version") (Seq spaces1 digits1);
    Seq (Lit "node") (Seq spaces1 (Class [Range "a" "z"])) ].

(** [/vendor\s+([a-z0-9]+)/gi] *)
Definition vendorPattern : regex :=
  Seq (Lit "vendor") (Seq spaces1 (Group 1 (Plus [Range "a" "z"; Range "0" "9"]))).

(** [/(\d+)\s*(hour|minute|day|week)s?/i] *)
Definition timePattern : regex :=
  Seq (Group 1 digits1)
      (Seq spaces0
           (Seq (Group 2 (Alts (map Lit ["hour"; "minute"; "day"; "week"])))
                (Opt (Lit "s")))).

(** [/(\d+)\s*(degree|°|celsius|fahrenheit)/i] *)
Definition tempPattern : regex :=
  Seq (Group 1 digits1)
      (Seq spaces0
           (Group 2 (Alts [Lit "degree"; Lit degree_sign; Lit "celsius"; Lit "fahrenheit"]))).

(** The voltage pattern: group 1 is [\d+], an optional point and [\d]
    repeated; then [\s] repeated, then group 2, [v|volt|voltage]; flag [i]. *)
Definition voltagePattern : regex :=
  Seq (Group 1 (Seq digits1 (Seq (Opt (Lit ".")) (Star [Digit]))))
      (Seq spaces0 (Group 2 (Alts (map Lit ["v"; "volt"; "voltage"])))).

(** [/(\d+)\s*(unit|piece|item)s?/i] *)
Definition countPattern : regex :=
  Seq (Group 1 digits1)
      (Seq spaces0
           (Seq (Group 2 (Alts (map Lit ["unit"; "piece"; "item"])))
                (Opt (Lit "s")))).

Definition any_includes (input : string) (words : list string) : bool :=
  existsb (includes input) words.

Definition classify_category (input : string) : Category :=
  if any_includes input ["fail"; "error"; "overheat"; "crash"; "malfunction"] then issue
  else if any_includes input ["delay"; "late"; "postpone"] then delay
  else if any_includes input ["qa"; "quality"; "defect"; "inspection"] then quality
  else event.

Definition classify_severity (input : string) : Severity :=
  if any_includes input ["critical"; "urgent"; "emergency"; "severe"] then high
  else if any_includes input ["important"; "significant"; "major"] then medium
  else low.

(** The array [entities] before duplicates are removed: the matches of each
    component pattern in turn, then those of the vendor pattern. *)
Definition extract_entities (rawInput : string) : list string :=
  let pushed :=
    fold_left
      (fun entities pattern =>
         match String_match_g true pattern rawInput with
         | Some matches => entities ++ matches
         | None => entities
         end)
      componentPatterns [] in
  match String_match_g true vendorPattern rawInput with
  | Some vendorMatch => pushed ++ vendorMatch
  | None => pushed
  end.

Definition extract_duration (rawInput : string) : option string :=
  match String_match true timePattern rawInput with
  | Some timeMatch =>
      Some (group 1 timeMatch +:+ " " +:+ group 2 timeMatch +:+
            (if Number.ltb (Number.of_Z 1) (ToNumber_digits (group 1 timeMatch))
             then "s" else ""))
  | None => None
  end.

Definition extract_temperature (rawInput : string) : option string :=
  match String_match true tempPattern rawInput with
  | Some tempMatch => Some (group 1 tempMatch +:+ degree_sign)
  | None => None
  end.

Definition extract_voltage (rawInput : string) : option string :=
  match String_match true voltagePattern rawInput with
  | Some voltageMatch => Some (group 1 voltageMatch +:+ "V")
  | None => None
  end.

Definition extract_quantity (rawInput : string) : option Number :=
  match String_match true countPattern rawInput with
  | Some countMatch => Some (parseInt (group 1 countMatch))
  | None => None
  end.

Definition processInput (rawInput : string) : Processed :=
  let input := toLowerCase rawInput in
  {| category := classify_category input;
     severity := classify_severity input;
     entities := Set_of (extract_entities rawInput);
     extracted_metrics :=
       {| duration := extract_duration rawInput;
          temperature := extract_temperature rawInput;
          voltage := extract_voltage rawInput;
          quantity := extract_quantity rawInput |} |}.

(** ** Dates *)

Module Date.

Definition msPerDay : Z := 86400000.
Definition maxTime : Z := 8640000000000000.

Definition valid (t : Z) : bool := (- maxTime <=? t) && (t <=? maxTime).

(** [new Date(x)] for a number [x]: [TimeClip]. *)
Definition make (x : Number) : option Z :=
  match Number.truncate x with
  | Some t => if valid t then Some t else None
  | None => None
  end.

(** [d.getTime()], NaN for an invalid date. *)
Definition getTime (d : option Z) : Number :=
  match d with
  | Some t => Number.of_Z t
  | None => Number.NaN
  end.

Definition Day (t : Z) : Z := t / msPerDay.
Definition TimeWithinDay (t : Z) : Z := t mod msPerDay.

Definition DayFromYear (y : Z) : Z :=
  365 * (y - 1970) + (y - 1969) / 4 - (y - 1901) / 100 + (y - 1601) / 400.

Definition InLeapYear (y : Z) : Z :=
  if (y mod 4 =? 0) && (negb (y mod 100 =? 0) || (y mod 400 =? 0)) then 1 else 0.

(** The largest year that starts on or before the day [d]: one of the three
    years around the estimate a mean year length gives. *)
Definition YearFromDay (d : Z) : Z :=
  let y := 1970 + d * 400 / 146097 in
  if DayFromYear (y + 1) <=? d then y + 1
  else if DayFromYear y <=? d then y
  else y - 1.

(** Month (0 to 11) and day of the month of the [n]-th day of a year. *)
Definition MonthAndDate (leap n : Z) : Z * Z :=
  if n <? 31 then (0, n + 1)
  else if n <? 59 + leap then (1, n - 30)
  else if n <? 90 + leap then (2, n - 58 - leap)
  else if n <? 120 + leap then (3, n - 89 - leap)
  else if n <? 151 + leap then (4, n - 119 - leap)
  else if n <? 181 + leap then (5, n - 150 - leap)
  else if n <? 212 + leap then (6, n - 180 - leap)
  else if n <? 243 + leap then (7, n - 211 - leap)
  else if n <? 273 + leap then (8, n - 242 - leap)
  else if n <? 304 + leap then (9, n - 272 - leap)
  else if n <? 334 + leap then (10, n - 303 - leap)
  else (11, n - 333 - leap).

Definition digit (n : Z) : ascii := ascii_of_N (Z.to_N (48 + n mod 10)).

(** [n] written with exactly [w] decimal digits. *)
Fixpoint pad (w : nat) (n : Z) : string :=
  match w with
  | O => EmptyString
  | S w' => pad w' (n / 10) +:+ String (digit n) EmptyString
  end.

(** The year of an ISO string: four digits from 0 to 9999, a sign and six
    digits otherwise. *)
Definition year_string (y : Z) : string :=
  if (0 <=? y) && (y <=? 9999) then pad 4 y
  else (if y <? 0 then "-" else "+") +:+ pad 6 (Z.abs y).

(** The calendar date of day number [d]: [YYYY-MM-DD]. *)
Definition date_string (d : Z) : string :=
  let y := YearFromDay d in
  let '(m, dt) := MonthAndDate (InLeapYear y) (d - DayFromYear y) in
  year_string y +:+ "-" +:+ pad 2 (m + 1) +:+ "-" +:+ pad 2 dt.

(** [HH:mm:ss.sss] *)
Definition time_string (ms : Z) : string :=
  pad 2 (ms / 3600000) +:+ ":" +:+ pad 2 (ms / 60000 mod 60) +:+ ":" +:+
  pad 2 (ms / 1000 mod 60) +:+ "." +:+ pad 3 (ms mod 1000).

(** The ISO string of a time value. *)
Definition ISOString (t : Z) : string :=
  date_string (Day t) +:+ "T" +:+ time_string (TimeWithinDay t) +:+ "Z".

(** [d.toISOString()]; an invalid date throws a RangeError. *)
Definition toISOString (d : option Z) : option string :=
  match d with
  | Some t => Some (ISOString t)
  | None => None
  end.

End Date.

(** [s.split(sep)[0]]: the text before the first [sep], all of [s] when it
    has none. *)
Fixpoint split_head (sep : ascii) (s : string) : string :=
  match s with
  | EmptyString => EmptyString
  | String c s' => if Ascii.eqb c sep then EmptyString else String c (split_head sep s')
  end.

(** The decimal digits of a natural number. *)
Definition decimal (n : Z) : string := NilZero.string_of_uint (N.to_uint (Z.to_N n)).

(** [x.toFixed(2)].  A number that is not finite prints as its name; a
    finite one as the nearest multiple of 1/100, of its magnitude the larger
    one on a tie.  From 1e21 on the method prints in exponent notation,
    which is left out of the model: [None]. *)
Definition toFixed2 (x : Number) : option string :=
  match x with
  | S754_nan => Some "NaN"
  | S754_infinity false => Some "Infinity"
  | S754_infinity true => Some "-Infinity"
  | S754_zero _ => Some "0.00"
  | S754_finite sign m e =>
      let n := if 0 <=? e then 100 * Zpos m * 2 ^ e
               else (200 * Zpos m + 2 ^ (- e)) / 2 ^ (1 - e) in
      if 10 ^ 23 <=? n then None
      else Some ((if sign then "-" else "") +:+
                 decimal (n / 100) +:+ "." +:+ Date.pad 2 (n mod 100))
  end.

(** ** The store *)

(** A stored entry.  [timestamp] is the time value of the [Date] whose ISO
    string the entry holds; [timestamp_string] is that string, and
    [new Date(e.timestamp)] gives the time value back. *)
Record Entry : Type := mkEntry {
  id : string;
  raw_input : string;
  timestamp : Z;
  processed :> Processed
}.

Definition timestamp_string (e : Entry) : string := Date.ISOString (timestamp e).

Fixpoint trim_end (s : string) : string :=
  match s with
  | EmptyString => EmptyString
  | String c s' =>
      match trim_end s' with
      | EmptyString => if Char.is_space c then EmptyString else String c EmptyString
      | r => String c r
      end
  end.

(** [s.trim()] *)
Definition trim (s : string) : string := trim_end (trim_start s).

(** [POST /api/entries] with a string for [raw_input]: the new store and the
    entry created, or the store unchanged and a 400 for a blank input.
    [uuid] is what [uuidv4()] returns and [now] the time value of
    [new Date()]. *)
Definition post_entry (entries : list Entry) (uuid : string) (now : Z) (raw_input : string)
  : list Entry * option Entry :=
  if Nat.eqb (String.length (trim raw_input)) 0 then (entries, None)
  else
    let entry := {| id := uuid;
                    raw_input := trim raw_input;
                    timestamp := now;
                    processed := processInput raw_input |} in
    (entries ++ [entry], Some entry).

(** ** Analytics *)

(** The counts below are array lengths and sums of ones: natural numbers
    far below 2^53, held exactly by the numbers of the source. *)

(** [obj[key] = (obj[key] || 0) + 1] on an object used as a counter. *)
Definition tally (key : string) (obj : gmap string nat) : gmap string nat :=
  <[key := (default 0%nat (obj !! key) + 1)%nat]> obj.

(** The same on an object whose key order matters, held as the list that
    [Object.entries] gives: keys in the order of their first assignment
    (no entity is the decimal numeral of an array index, which would come
    first). *)
Fixpoint ordered_tally (key : string) (obj : list (string * nat)) : list (string * nat) :=
  match obj with
  | [] => [(key, 1%nat)]
  | (k, v) :: obj' =>
      if String.eqb k key then (k, (v + 1)%nat) :: obj'
      else (k, v) :: ordered_tally key obj'
  end.

(** [{ ...obj, [key]: val }] *)
Fixpoint ordered_set (key : string) (val : nat) (obj : list (string * nat))
  : list (string * nat) :=
  match obj with
  | [] => [(key, val)]
  | (k, v) :: obj' =>
      if String.eqb k key then (k, val) :: obj'
      else (k, v) :: ordered_set key val obj'
  end.

(** [.sort((a, b) => b[1] - a[1])]: descending counts, equal counts in
    their former order. *)
Fixpoint insert_desc (x : string * nat) (l : list (string * nat)) : list (string * nat) :=
  match l with
  | [] => [x]
  | y :: l' => if (snd y <=? snd x)%nat then x :: l else y :: insert_desc x l'
  end.

Definition sort_desc (l : list (string * nat)) : list (string * nat) :=
  fold_right insert_desc [] l.

Record TrendPoint : Type := mkTrendPoint {
  date : string;
  count : nat
}.

Record Analytics : Type := mkAnalytics {
  total : nat;
  by_category : gmap string nat;
  by_severity : gmap string nat;
  recent_trend : list TrendPoint;
  top_entities : list (string * nat)
}.

Definition count_by_category (entries : list Entry) : gmap string nat :=
  fold_left (fun obj (e : Entry) => tally (Category_name (category e)) obj) entries ∅.

Definition count_by_severity (entries : list Entry) : gmap string nat :=
  fold_left (fun obj (e : Entry) => tally (Severity_name (severity e)) obj) entries ∅.

(** [n * 24 * 60 * 60 * 1000] *)
Definition days_ms (n : Z) : Number :=
  Number.mul (Number.mul (Number.mul (Number.mul (Number.of_Z n) (Number.of_Z 24))
                                     (Number.of_Z 60)) (Number.of_Z 60)) (Number.of_Z 1000).

(** One turn of the loop over [i]; [None] when [toISOString] throws. *)
Definition trend_point (entries : list Entry) (sevenDaysAgo : option Z) (i : nat)
  : option TrendPoint :=
  let date := Date.make (Number.add (Date.getTime sevenDaysAgo) (days_ms (Z.of_nat i))) in
  match Date.toISOString date with
  | Some iso =>
      let dateStr := split_head "T" iso in
      let count :=
        length (filter (fun e : Entry =>
                          String.eqb (split_head "T" (timestamp_string e)) dateStr = true)
                       entries) in
      Some {| date := dateStr; count := count |}
  | None => None
  end.

Definition entity_counts (entries : list Entry) : list (string * nat) :=
  fold_left
    (fun counts (e : Entry) =>
       fold_left (fun c entity => ordered_tally entity c) (entities e) counts)
    entries [].

(** [Object.entries(entityCounts).sort(...).slice(0, 10).reduce(...)] *)

Definition top_entities_of (entries : list Entry) : list (string * nat) :=
  fold_left (fun obj kv => ordered_set (fst kv) (snd kv) obj)
            (firstn 10 (sort_desc (entity_counts entries))) [].

(** [GET /api/analytics], with [now] the time value of [new Date()]. *)
Definition analytics (entries : list Entry) (now : Z) : option Analytics :=
  let sevenDaysAgo := Date.make (Number.sub (Number.of_Z now) (days_ms 7)) in
  match mapM (trend_point entries sevenDaysAgo) (seq 0 7) with
  | Some trend =>
      Some {| total := length entries;
              by_category := count_by_category entries;
              by_severity := count_by_severity entries;
              recent_trend := trend;
              top_entities := top_entities_of entries |}
  | None => None
  end.

(** ** Trends *)

Record Trends : Type := mkTrends {
  period_days : Number;
  total_entries : nat;
  avg_per_day : option string;
  categories : gmap string nat;
  severities : gmap string nat
}.

(** [new Date(e.timestamp) >= startDate]; false when [startDate] is
    invalid. *)
Definition on_or_after (startDate : option Z) (e : Entry) : bool :=
  match startDate with
  | Some start => start <=? timestamp e
  | None => false
  end.

(** [GET /api/trends]: [query_days] is [req.query.days], a string or
    missing, and [now] the time value of [new Date()].  The default [30] is
    a number, which [parseInt] turns into the string [30] before it reads
    it.  [period_days] is the number before [res.json] writes it. *)
Definition trends (entries : list Entry) (now : Z) (query_days : option string) : Trends :=
  let days := match query_days with Some s => s | None => "30" end in
  let startDate :=
    Date.make (Number.sub (Number.of_Z now)
                 (Number.mul (Number.mul (Number.mul (Number.mul (parseInt days)
                    (Number.of_Z 24)) (Number.of_Z 60)) (Number.of_Z 60)) (Number.of_Z 1000))) in
  let filtered := List.filter (on_or_after startDate) entries in
  {| period_days := parseInt days;
     total_entries := length filtered;
     avg_per_day :=
       toFixed2 (Number.div (Number.of_Z (Z.of_nat (length filtered))) (parseInt days));
     categories := count_by_category filtered;
     severities := count_by_severity filtered |}.


(** ** The other routes *)

(** A query parameter that is there and is not the empty string, which is
    what [if (q)] lets through. *)
Definition given (q : option string) : option string :=
  match q with
  | Some EmptyString => None
  | _ => q
  end.

(** [e.raw_input.toLowerCase().includes(searchLower) ||
     e.entities.some(entity => entity.toLowerCase().includes(searchLower))] *)
Definition search_hit (searchLower : string) (e : Entry) : bool :=
  includes (toLowerCase (raw_input e)) searchLower ||
  existsb (fun entity => includes (toLowerCase entity) searchLower) (entities e).

(** [.sort((a, b) => new Date(b.timestamp) - new Date(a.timestamp))]: the
    newest first, entries of one timestamp in their former order. *)
Fixpoint insert_newest (x : Entry) (l : list Entry) : list Entry :=
  match l with
  | [] => [x]
  | y :: l' => if timestamp y <=? timestamp x then x :: l else y :: insert_newest x l'
  end.

Definition sort_newest (l : list Entry) : list Entry := fold_right insert_newest [] l.

(** The array [filtered] before it is sorted, and whether it is a new array:
    [false] when no filter ran and [filtered] is still the array [entries]
    itself. *)
Definition select_entries (entries : list Entry) (q_category q_severity q_search : option string)
  : list Entry * bool :=
  let filtered := (entries, false) in
  let filtered :=
    match given q_category with
    | Some c =>
        if String.eqb c "all" then filtered
        else (List.filter (fun e : Entry => String.eqb (Category_name (category e)) c)
                          (fst filtered), true)
    | None => filtered
    end in
  let filtered :=
    match given q_severity with
    | Some s =>
        (List.filter (fun e : Entry => String.eqb (Severity_name (severity e)) s)
                     (fst filtered), true)
    | None => filtered
    end in
  match given q_search with
  | Some search =>
      (List.filter (search_hit (toLowerCase search)) (fst filtered), true)
  | None => filtered
  end.

(** [GET /api/entries]: the store after the call and the array sent.
    [sort] works in place, so it reorders the store when [filtered] is the
    store. *)
Definition get_entries (entries : list Entry) (q_category q_severity q_search : option string)
  : list Entry * list Entry :=
  let '(filtered, fresh) := select_entries entries q_category q_severity q_search in
  let sorted := sort_newest filtered in
  (if fresh then entries else sorted, sorted).

(** [GET /api/entries/:id]: [entries.find(e => e.id === req.params.id)],
    [None] for the 404. *)
Definition get_entry (entries : list Entry) (wanted : string) : option Entry :=
  List.find (fun e : Entry => String.eqb (id e) wanted) entries.

(** [entries.findIndex(e => e.id === wanted)], [None] for -1. *)
Fixpoint findIndex (wanted : string) (entries : list Entry) : option nat :=
  match entries with
  | [] => None
  | e :: l => if String.eqb (id e) wanted then Some O else option_map S (findIndex wanted l)
  end.

(** [DELETE /api/entries/:id]: the store after the call, and whether an
    entry was deleted ([false] for the 404). *)
Definition delete_entry (entries : list Entry) (wanted : string) : list Entry * bool :=
  match findIndex wanted entries with
  | None => (entries, false)
  | Some index => (firstn index entries ++ skipn (S index) entries, true)
  end.

(** [GET /api/health]: the number of entries next to the status. *)
Definition health (entries : list Entry) : nat := length entries.

(** The list the page shows, [filteredEntries] of [App.js]: [filter] is the
    category button pressed and [search] the text of the search box. *)
Definition filteredEntries (entries : list Entry) (filter search : string) : list Entry :=
  List.filter
    (fun entry : Entry =>
       let matchesFilter :=
         String.eqb filter "all" || String.eqb (Category_name (category entry)) filter in
       let matchesSearch :=
         String.eqb search "" ||
         includes (toLowerCase (raw_input entry)) (toLowerCase search) ||
         existsb (fun e => includes (toLowerCase e) (toLowerCase search)) (entities entry) in
       matchesFilter && matchesSearch)
    entries.

(** [handleSubmit] of [App.js] sends nothing when [!input.trim()]. *)
Definition client_sends (input : string) : bool :=
  negb (String.eqb (trim input) "").

(** [fetchEntries] of [App.js]: the list that [GET /api/entries] sends
    when there is no query becomes the list of the page.  The store after
    the call and that list. *)
Definition fetchEntries (store : list Entry) : list Entry * list Entry :=
  get_entries store None None None.

(** [handleSubmit] of [App.js] when the backend is reached: nothing is
    sent for a blank input; otherwise the entry the backend answers with is
    put in front of the entries the page holds.  The store and the list of
    the page after the call. *)
Definition handleSubmit (store page : list Entry) (uuid : string) (now : Z) (input : string)
  : list Entry * list Entry :=
  if client_sends input then
    match post_entry store uuid now input with
    | (store', Some newEntry) => (store', newEntry :: page)
    | (store', None) => (store', page)
    end
  else (store, page).

(** ** The state [processInput] could reach

    What outlives a call in the module of the server: the array [entries],
    and the RegExp objects.  A pattern literal makes a new object each time
    it is evaluated, and an object whose pattern has the [g] flag keeps in
    [lastIndex] where its next search starts. *)

Record RegExpObject : Type := mkRegExp {
  source : regex;
  global : bool;
  ignoreCase : bool;
  lastIndex : nat
}.

Record World : Type := mkWorld {
  entries : list Entry;
  regexps : list RegExpObject
}.

(** A computation that reads and writes the world. *)
Definition State (A : Type) : Type := World -> A * World.

Definition ret {A} (x : A) : State A := fun w => (x, w).

Definition bind {A B} (m : State A) (f : A -> State B) : State B :=
  fun w => let '(x, w') := m w in f x w'.

Notation "'let!' x ':=' m 'in' k" := (bind m (fun x => k))
  (at level 10, x name, m at level 200, k at level 200).

(** Evaluating a pattern literal: a new object with [lastIndex] 0, known
    by its place among the objects. *)
Definition new_RegExp (r : regex) (g i : bool) : State nat :=
  fun w => (length (regexps w),
            mkWorld (entries w) (regexps w ++ [mkRegExp r g i 0])).

(** The object at [a]; one without pattern where there is none. *)
Definition get_RegExp (a : nat) : State RegExpObject :=
  fun w => (default (mkRegExp Eps false false 0) (regexps w !! a), w).

(** [R.lastIndex = n] *)
Definition set_lastIndex (a : nat) (n : nat) : State unit :=
  fun w =>
    (tt,
     match regexps w !! a with
     | Some R =>
         mkWorld (entries w)
                 (<[a := mkRegExp (source R) (global R) (ignoreCase R) n]> (regexps w))
     | None => w
     end).

(** [s] without its first [n] characters. *)
Fixpoint drop_string (n : nat) (s : string) : string :=
  match n, s with
  | S n', String _ s' => drop_string n' s'
  | _, _ => s
  end.

(** [RegExpBuiltinExec]: the search starts at [lastIndex] when the
    pattern has the [g] flag and at 0 when it has not; with the flag, the
    end of the match found is written to [lastIndex], and 0 when there is
    none. *)
Definition RegExp_exec (a : nat) (S : string) : State (option match_result) :=
  let! R := get_RegExp a in
  let start := if global R then lastIndex R else 0%nat in
  if (String.length S <? start)%nat
  then (let! u := (if global R then set_lastIndex a 0 else ret tt) in ret None)
  else
    match search (ignoreCase R) (source R) start (drop_string start S) with
    | None => (let! u := (if global R then set_lastIndex a 0 else ret tt) in ret None)
    | Some m =>
        (let! u := (if global R
                  then set_lastIndex a (index m + String.length (matched m))
                  else ret tt) in
         ret (Some m))
    end.

(** The loop of [RegExp.prototype[Symbol.match]] for a pattern with the
    [g] flag: every match is added to [A], and after an empty match
    [lastIndex] goes one further. *)
Fixpoint match_loop (fuel : nat) (a : nat) (S : string) (A : list string)
  : State (list string) :=
  match fuel with
  | O => ret A
  | Datatypes.S fuel' =>
      let! result := RegExp_exec a S in
      match result return State (list string) with
      | None => ret A
      | Some m =>
          (let! u := (match matched m with
                    | EmptyString =>
                        (let! R := get_RegExp a in
                         set_lastIndex a (Datatypes.S (lastIndex R)))
                    | String _ _ => ret tt
                    end) in
           match_loop fuel' a S (A ++ [matched m]))
      end
  end.

(** What [match] returns: [null], the result of one [exec], or the array
    of all matched texts. *)
Inductive match_value : Type :=
| Null
| MatchExec (m : match_result)
| MatchAll (A : list string).

(** [S.match(R)] for the object at [a].  Every turn of the loop moves
    [lastIndex] on, so that it ends within two turns more than [S] has
    characters. *)
Definition String_prototype_match (S : string) (a : nat) : State match_value :=
  let! R := get_RegExp a in
  if global R then
    (let! u := set_lastIndex a 0 in
     let! A := match_loop (2 + String.length S) a S [] in
     ret (match A with [] => Null | _ :: _ => MatchAll A end))
  else
    (let! result := RegExp_exec a S in
     ret (match result with None => Null | Some m => MatchExec m end)).

(** [l.forEach(x => ...)] where the callback changes [acc]. *)
Fixpoint forEach {A B} (l : list A) (f : B -> A -> State B) (acc : B) : State B :=
  match l with
  | [] => ret acc
  | x :: l' => (let! acc' := f acc x in forEach l' f acc')
  end.

(** The array of patterns: one new object for each literal. *)
Fixpoint new_RegExps (rs : list regex) (g i : bool) : State (list nat) :=
  match rs with
  | [] => ret []
  | r :: rs' =>
      (let! a := new_RegExp r g i in
       let! l := new_RegExps rs' g i in
       ret (a :: l))
  end.

(** [entities.push(...matches)] when [matches] is not [null].  The array
    of one [exec] holds the matched text and then the groups; those that
    took part are all the model keeps of them.  The patterns whose matches
    are pushed have the [g] flag, for which [match] returns the array of
    all matched texts. *)
Definition push_matches (entities : list string) (matches : match_value) : list string :=
  match matches with
  | MatchAll ms => entities ++ ms
  | MatchExec m => entities ++ matched m :: rev (map snd (groups m))
  | Null => entities
  end.

(** [processInput] with the objects it makes and the searches it runs on
    them, in the order of the source. *)
Definition processInput_run (rawInput : string) : State Processed :=
  let input := toLowerCase rawInput in
  let category := classify_category input in
  let severity := classify_severity input in
  let! patterns := new_RegExps componentPatterns true true in
  let! entities :=
     forEach patterns
       (fun entities pattern =>
          (let! matches := String_prototype_match rawInput pattern in
           ret (push_matches entities matches)))
       [] in
  let! vendor := new_RegExp vendorPattern true true in
  let! vendorMatch := String_prototype_match rawInput vendor in
  let entities := push_matches entities vendorMatch in
  let! time := new_RegExp timePattern false true in
  let! timeMatch := String_prototype_match rawInput time in
  let duration :=
    match timeMatch with
    | MatchExec timeMatch =>
        Some (group 1 timeMatch +:+ " " +:+ group 2 timeMatch +:+
              (if Number.ltb (Number.of_Z 1) (ToNumber_digits (group 1 timeMatch))
               then "s" else ""))
    | _ => None
    end in
  let! temp := new_RegExp tempPattern false true in
  let! tempMatch := String_prototype_match rawInput temp in
  let temperature :=
    match tempMatch with
    | MatchExec tempMatch => Some (group 1 tempMatch +:+ degree_sign)
    | _ => None
    end in
  let! volt := new_RegExp voltagePattern false true in
  let! voltageMatch := String_prototype_match rawInput volt in
  let voltage :=
    match voltageMatch with
    | MatchExec voltageMatch => Some (group 1 voltageMatch +:+ "V")
    | _ => None
    end in
  let! cnt := new_RegExp countPattern false true in
  let! countMatch := String_prototype_match rawInput cnt in
  let quantity :=
    match countMatch with
    | MatchExec countMatch => Some (parseInt (group 1 countMatch))
    | _ => None
    end in
  ret {| category := category;
         severity := severity;
         entities := Set_of entities;
         extracted_metrics :=
           {| duration := duration; temperature := temperature;
              voltage := voltage; quantity := quantity |} |}.
(** ** Vocabulary of the statements *)

(** [w] occurs in [s] as a substring. *)
Definition occurs_in (s w : string) : Prop :=
  exists pre post : string, s = pre +:+ w +:+ post.

(** Some word of [ws] occurs in [s]. *)
Definition mentions (s : string) (ws : list string) : Prop :=
  Exists (occurs_in s) ws.

Definition issue_words : list string := ["fail"; "error"; "overheat"; "crash"; "malfunction"].
Definition delay_words : list string := ["delay"; "late"; "postpone"].
Definition quality_words : list string := ["qa"; "quality"; "defect"; "inspection"].
Definition high_words : list string := ["critical"; "urgent"; "emergency"; "severe"].
Definition medium_words : list string := ["important"; "significant"; "major"].

(** The category of a lower-cased text: the first group, in the order
    issue, delay, quality, of which the text mentions a word. *)
Inductive category_rule (t : string) : Category -> Prop :=
| rule_issue : mentions t issue_words -> category_rule t issue
| rule_delay :
    ~ mentions t issue_words -> mentions t delay_words -> category_rule t delay
| rule_quality :
    ~ mentions t issue_words -> ~ mentions t delay_words ->
    mentions t quality_words -> category_rule t quality
| rule_event :
    ~ mentions t issue_words -> ~ mentions t delay_words ->
    ~ mentions t quality_words -> category_rule t event.

Inductive severity_rule (t : string) : Severity -> Prop :=
| rule_high : mentions t high_words -> severity_rule t high
| rule_medium :
    ~ mentions t high_words -> mentions t medium_words -> severity_rule t medium
| rule_low :
    ~ mentions t high_words -> ~ mentions t medium_words -> severity_rule t low.

(** The elements of a list in the order of their first occurrence: the head
    stays, its later copies go. *)
Fixpoint first_occurrences (l : list string) : list string :=
  match l with
  | [] => []
  | x :: l' => x :: filter (fun y => y <> x) (first_occurrences l')
  end.

(** The sum of the counts of a counter object. *)
Definition sum_counts (obj : gmap string nat) : nat :=
  map_fold (fun _ v acc => (v + acc)%nat) 0%nat obj.


(** Every character of [s] satisfies [f]. *)
Fixpoint all_chars (f : ascii -> bool) (s : string) : bool :=
  match s with
  | EmptyString => true
  | String c s' => f c && all_chars f s'
  end.

(** What a pattern denotes: [matches ic r p caps caps'] when the text [p]
    belongs to the language of [r] and reading it turns the captures [caps]
    into [caps'].  No order among the ways to match is part of it. *)
Fixpoint matches (ignoreCase : bool) (r : regex) (p : string) (caps caps' : captures) : Prop :=
  match r with
  | Eps => p = "" /\ caps' = caps
  | Class cs =>
      exists c, p = String c "" /\ class_match ignoreCase cs c = true /\ caps' = caps
  | Seq r1 r2 =>
      exists p1 p2 caps1,
        p = p1 +:+ p2 /\ matches ignoreCase r1 p1 caps caps1 /\
        matches ignoreCase r2 p2 caps1 caps'
  | Alt r1 r2 => matches ignoreCase r1 p caps caps' \/ matches ignoreCase r2 p caps caps'
  | Opt r1 => matches ignoreCase r1 p caps caps' \/ (p = "" /\ caps' = caps)
  | Star cs => all_chars (class_match ignoreCase cs) p = true /\ caps' = caps
  | Group n r1 => exists caps1, matches ignoreCase r1 p caps caps1 /\ caps' = (n, p) :: caps1
  end.

(** The pattern [r] matches the text [p] at index [i] of [s], with the
    captures [caps]. *)
Definition occurrence (ignoreCase : bool) (r : regex) (s : string) (i : nat)
           (p : string) (caps : captures) : Prop :=
  exists pre rest,
    s = pre +:+ p +:+ rest /\ String.length pre = i /\ matches ignoreCase r p [] caps.

(** [u] and [w] are the same up to the case of their letters. *)
Definition same_ignoring_case (u w : string) : Prop :=
  map_string Char.canonicalize u = map_string Char.canonicalize w.

Definition one_of_ignoring_case (u : string) (ws : list string) : Prop :=
  Exists (same_ignoring_case u) ws.

Definition time_units : list string := ["hour"; "minute"; "day"; "week"].
Definition temperature_units : list string := ["degree"; degree_sign; "celsius"; "fahrenheit"].

(** A reading at index [i] of [s]: the digits [n], then white space, then a
    unit [u] that is one of [units] up to case. *)
Definition reading_at (units : list string) (s : string) (i : nat) (n u : string) : Prop :=
  exists pre ws rest,
    s = pre +:+ n +:+ ws +:+ u +:+ rest /\ String.length pre = i /\
    n <> "" /\ all_chars Char.is_digit n = true /\
    all_chars Char.is_space ws = true /\ one_of_ignoring_case u units.

(** The leftmost reading of [s]. *)
Definition first_reading (units : list string) (s : string) (i : nat) (n u : string) : Prop :=
  reading_at units s i n u /\
  forall j n' u', reading_at units s j n' u' -> (i <= j)%nat.

Definition no_reading (units : list string) (s : string) : Prop :=
  forall i n u, ~ reading_at units s i n u.

(** A pattern that reads a number and a unit into its groups 1 and 2. *)
Definition reads (units : list string) (r : regex) : Prop :=
  (forall p caps,
      matches true r p [] caps ->
      exists n ws u sfx,
        p = n +:+ ws +:+ u +:+ sfx /\ caps = [(2%nat, u); (1%nat, n)] /\
        n <> "" /\ all_chars Char.is_digit n = true /\
        all_chars Char.is_space ws = true /\ one_of_ignoring_case u units) /\
  (forall n ws u,
      n <> "" -> all_chars Char.is_digit n = true ->
      all_chars Char.is_space ws = true -> one_of_ignoring_case u units ->
      matches true r (n +:+ ws +:+ u) [] [(2%nat, u); (1%nat, n)]).

(** The first character of a unit, however it is cased, is neither a digit
    nor white space. *)
Definition all_ascii : list ascii := map ascii_of_nat (seq 0 256).

Definition head_apart (w : string) : bool :=
  match w with
  | EmptyString => false
  | String a _ =>
      forallb (fun c =>
                 implb (Ascii.eqb (Char.canonicalize c) (Char.canonicalize a))
                       (negb (Char.is_digit c) && negb (Char.is_space c)))
              all_ascii
  end.

(** No unit is, up to case, the beginning of another one. *)
Definition prefix_free (units : list string) : bool :=
  forallb (fun w =>
             forallb (fun w' =>
                        implb (starts_with (map_string Char.canonicalize w)
                                           (map_string Char.canonicalize w'))
                              (String.eqb (map_string Char.canonicalize w)
                                          (map_string Char.canonicalize w')))
                     units)
          units.

(** The text [x] does not go on with a character of the kind [f]: a run of
    such characters that [x] follows ends there. *)
Definition run_ends (f : ascii -> bool) (x : string) : Prop :=
  match x with
  | EmptyString => True
  | String c _ => f c = false
  end.

(** A character of an ISO date is never the separator of date and time. *)
Definition not_T (c : ascii) : bool := negb (Ascii.eqb c "T").

(** ** Integers in binary64 *)

(** A shifted mantissa from which no bit was lost. *)
Definition exact (m : Z) : shr_record :=
  {| shr_m := m; shr_r := false; shr_s := false |}.

(** The 53-bit mantissa of a positive integer below 2^53. *)
Definition mantissa53 (p : positive) : positive :=
  Z.to_pos (Zpos p * 2 ^ (53 - Zpos (digits2_pos p))).

(** How binary64 holds an integer below 2^53 in magnitude. *)
Definition canonical (z : Z) : spec_float :=
  match z with
  | 0 => S754_zero false
  | Zpos p => S754_finite false (mantissa53 p) (Zpos (digits2_pos p) - 53)
  | Zneg p => S754_finite true (mantissa53 p) (Zpos (digits2_pos p) - 53)
  end.

(** The integer a sign and a magnitude stand for. *)
Definition signed (s : bool) (p : positive) : Z := cond_Zopp s (Zpos p).

(** The duration the specification's words describe: the plural [s] is
    there exactly when the matched digits are not the string [1]. *)
Definition duration_by_digit_text (n u : string) : string :=
  n +:+ " " +:+ u +:+ (if String.eqb n "1" then "" else "s").

(** ** Vocabulary of the trend statements *)

(** The date portion of an entry's timestamp: [e.timestamp.split('T')[0]]. *)
Definition date_portion (e : Entry) : string := split_head "T" (timestamp_string e).

(** The clock values from which seven days can be taken away: the time
    values of valid dates but for the first week of the range. *)
Definition week_before_valid (now : Z) : Prop :=
  - Date.maxTime + 7 * Date.msPerDay <= now <= Date.maxTime.

(** The [i]-th day of the recent trend: the day [7 - i] days before the day
    of [now], with the number of entries whose date portion is its date. *)
Definition bucket (entries : list Entry) (now : Z) (i : nat) : TrendPoint :=
  let day := Date.date_string (Date.Day now - 7 + Z.of_nat i) in
  {| date := day;
     count := length (filter (fun e : Entry => date_portion e = day) entries) |}.

(** ** A sample store *)

(** What [POST /api/entries] stores for the input [raw] at the time [t]. *)
Definition stored (uuid : string) (t : Z) (raw : string) : Entry :=
  {| id := uuid; raw_input := trim raw; timestamp := t; processed := processInput raw |}.

(** 2024-11-02T00:00:00.000Z *)
Definition sample_now : Z := 1730505600000.

(** Three entries: one made at [sample_now], one two days before it and one
    forty days before it. *)
Definition sample_entries : list Entry :=
  [ stored "e1" (sample_now - 40 * Date.msPerDay) "QA found 12 units with defects";
    stored "e2" (sample_now - 2 * Date.msPerDay) "Urgent: Motor overheating after 3 hours";
    stored "e3" sample_now "Delay in shipment from vendor X" ].

(** The clock values and numbers of days for which the start of the window
    is a valid date. *)
Definition window_valid (now d : Z) : Prop :=
  1 <= d /\ d * Date.msPerDay <= Date.maxTime /\
  - Date.maxTime <= now - d * Date.msPerDay /\ now <= Date.maxTime.

(** ** Vocabulary of the store statements *)

(** Timestamps never go up along the list. *)
Definition newest_first (l : list Entry) : Prop :=
  StronglySorted (fun a b : Entry => timestamp b <= timestamp a) l.

(** The entries a query asks for: of the category given unless it is
    [all], of the severity given, and with the search text, lower-cased, in
    their lower-cased raw input or in one of their lower-cased entities. *)
Definition selects (q_category q_severity q_search : option string) (e : Entry) : bool :=
  match given q_category with
  | Some c => String.eqb c "all" || String.eqb (Category_name (category e)) c
  | None => true
  end &&
  match given q_severity with
  | Some s => String.eqb (Severity_name (severity e)) s
  | None => true
  end &&
  match given q_search with
  | Some q => search_hit (toLowerCase q) e
  | None => true
  end.

(** The queries that filter nothing. *)
Definition unfiltered (q_category q_severity q_search : option string) : bool :=
  match given q_category with
  | Some c => String.eqb c "all"
  | None => true
  end &&
  match given q_severity with Some _ => false | None => true end &&
  match given q_search with Some _ => false | None => true end.

(** The entries of [l] made at the time [t], in the order of [l]. *)
Definition made_at (t : Z) (l : list Entry) : list Entry :=
  List.filter (fun e : Entry => timestamp e =? t) l.

(** No entry of [l] has the identifier [i]. *)
Definition fresh_id (i : string) (l : list Entry) : Prop :=
  Forall (fun e : Entry => id e <> i) l.

Definition count_units : list string := ["unit"; "piece"; "item"].

(** ** Vocabulary of the entity ranking *)

(** Every entity of every entry, in the order of the store. *)
Definition entity_mentions (entries : list Entry) : list string :=
  flat_map (fun e : Entry => entities e) entries.

(** How often [k] is in [l]. *)
Definition times (k : string) (l : list string) : nat :=
  length (filter (fun x => x = k) l).

(** Counts never go up along the list. *)
Definition descending (l : list (string * nat)) : Prop :=
  StronglySorted (fun a b : string * nat => (snd b <= snd a)%nat) l.

(** [obj] holds, under keys that are all different, the entities of [l],
    each with the number of times it is in [l]. *)
Definition tallied (obj : list (string * nat)) (l : list string) : Prop :=
  NoDup (obj.*1) /\ forall k v, (k, v) ∈ obj <-> k ∈ l /\ v = times k l.

(** No two entries of [l] have the same identifier. *)
Definition distinct_ids (l : list Entry) : Prop := NoDup (map id l).

(** The clock values and numbers of days for which the start of the
    window, [d] days before [now], is a valid date; [d] may be zero. *)
Definition window_start_valid (now d : Z) : Prop :=
  d * Date.msPerDay <= Date.maxTime /\
  - Date.maxTime <= now - d * Date.msPerDay /\ now <= Date.maxTime.

(** ** The ends of a pattern *)

(** The pattern may match the empty text. *)
Fixpoint nullable (r : regex) : bool :=
  match r with
  | Eps => true
  | Class _ => false
  | Seq r1 r2 => nullable r1 && nullable r2
  | Alt r1 r2 => nullable r1 || nullable r2
  | Opt _ => true
  | Star _ => true
  | Group _ r1 => nullable r1
  end.

(** Every character that the class accepts when case is ignored
    satisfies [P]. *)
Definition class_within (P : ascii -> bool) (cs : list atom) : bool :=
  forallb (fun c => implb (class_match true cs c) (P c)) all_ascii.

(** A text that the pattern matches begins, unless it is empty, with a
    character that satisfies [P]. *)
Fixpoint first_within (P : ascii -> bool) (r : regex) : bool :=
  match r with
  | Eps => true
  | Class cs => class_within P cs
  | Seq r1 r2 => first_within P r1 && (if nullable r1 then first_within P r2 else true)
  | Alt r1 r2 => first_within P r1 && first_within P r2
  | Opt r1 => first_within P r1
  | Star cs => class_within P cs
  | Group _ r1 => first_within P r1
  end.

(** A text that the pattern matches ends, unless it is empty, with a
    character that satisfies [P]. *)
Fixpoint last_within (P : ascii -> bool) (r : regex) : bool :=
  match r with
  | Eps => true
  | Class cs => class_within P cs
  | Seq r1 r2 => last_within P r2 && (if nullable r2 then last_within P r1 else true)
  | Alt r1 r2 => last_within P r1 && last_within P r2
  | Opt r1 => last_within P r1
  | Star cs => class_within P cs
  | Group _ r1 => last_within P r1
  end.

Definition not_space (c : ascii) : bool := negb (Char.is_space c).

Definition not_digit (c : ascii) : bool := negb (Char.is_digit c).

(** The pattern matches no empty text and no text that begins or ends
    with white space. *)
Definition solid (r : regex) : bool :=
  negb (nullable r) && first_within not_space r && last_within not_space r.

(** The last character of [String a w]. *)
Fixpoint last_char (a : ascii) (w : string) : ascii :=
  match w with
  | EmptyString => a
  | String b w' => last_char b w'
  end.

(** The word is not empty and neither begins nor ends with white space. *)
Definition solid_word (w : string) : bool :=
  match w with
  | EmptyString => false
  | String a w' => not_space a && not_space (last_char a w')
  end.

(** The match with a character more after it. *)
Definition extend (c : ascii) (m : match_result) : match_result :=
  MatchResult (index m) (matched m) (groups m) (after m +:+ String c "").

(** What a match holds apart from its place. *)
Definition text_of (m : match_result) : string * captures * string :=
  (matched m, groups m, after m).

(** ** Vocabulary of the entity statements *)

Definition component_words : list string :=
  ["motor"; "pcb"; "board"; "circuit"; "sensor"; "controller";
   "relay"; "switch"; "battery"; "capacitor"].

Definition entity_keywords : list string := component_words ++ ["version"; "node"; "vendor"].

(** The text begins, up to case, with one of the words. *)
Definition headed (ws : list string) (x : string) : Prop :=
  exists w rest, x = w +:+ rest /\ one_of_ignoring_case w ws.

(** ** Vocabulary of the voltage statement *)

(** A number as the voltage pattern reads it: digits, then maybe a point
    and more digits, or none. *)
Definition number_text (n : string) : Prop :=
  exists d1 d2,
    d1 <> "" /\ all_chars Char.is_digit d1 = true /\ all_chars Char.is_digit d2 = true /\
    (n = d1 \/ n = d1 +:+ "." +:+ d2).

(** A voltage at index [i] of [s]: the number [n], then white space, then
    the letter v in either case, whatever follows it. *)
Definition voltage_at (s : string) (i : nat) (n : string) : Prop :=
  exists pre ws v rest,
    s = pre +:+ n +:+ ws +:+ String v rest /\ String.length pre = i /\
    number_text n /\ all_chars Char.is_space ws = true /\
    (v = "v"%char \/ v = "V"%char).

(** The leftmost voltage of [s]. *)
Definition first_voltage (s : string) (i : nat) (n : string) : Prop :=
  voltage_at s i n /\ forall j n', voltage_at s j n' -> (i <= j)%nat.

Definition no_voltage (s : string) : Prop := forall i n, ~ voltage_at s i n.

(** The text does not go on with a digit or a point. *)
Definition number_ends (x : string) : Prop :=
  match x with
  | EmptyString => False
  | String c _ => Char.is_digit c = false /\ c <> "."%char
  end.

(** ** Vocabulary of the statements on RegExp objects *)

(** The matches a loop over [exec] collects from [lastIndex = i] on. *)
Definition all_from (ic : bool) (r : regex) (S : string) (i : nat) : list string :=
  if (String.length S <? i)%nat then []
  else search_all (Datatypes.S (String.length S - i)) ic r i (drop_string i S).

(** The world with [lastIndex] of the object at [a] set to [n]. *)
Definition with_lastIndex (a n : nat) (w : World) : World := snd (set_lastIndex a n w).

(** What [match] returns for the result of one search. *)
Definition exec_value (o : option match_result) : match_value :=
  match o with
  | Some m => MatchExec m
  | None => Null
  end.

(** What [match] returns for the array of all matches. *)
Definition all_value (o : option (list string)) : match_value :=
  match o with
  | Some ms => MatchAll ms
  | None => Null
  end.

(** The objects one call of [processInput] makes. *)
Definition literals : list RegExpObject :=
  map (fun r => mkRegExp r true true 0) (componentPatterns ++ [vendorPattern]) ++
  map (fun r => mkRegExp r false true 0)
      [timePattern; tempPattern; voltagePattern; countPattern].

(** A world in which an object with the [g] flag was left in the middle
    of a search. *)
Definition sample_world : World :=
  mkWorld sample_entries [mkRegExp timePattern true true 7].
(** ** Substrings *)

Section Substrings.

Lemma append_nil_l (s : string) : "" +:+ s = s.
Proof. reflexivity. Qed.

Lemma append_cons (c : ascii) (s t : string) : String c s +:+ t = String c (s +:+ t).
Proof. reflexivity. Qed.

Lemma append_nil_r (s : string) : s +:+ "" = s.
Proof.
  induction s as [|c s IH]; [reflexivity | now rewrite append_cons, IH].
Qed.

Lemma append_assoc (a b c : string) : (a +:+ b) +:+ c = a +:+ b +:+ c.
Proof.
  induction a as [|x a IH]; [reflexivity | now rewrite !append_cons, IH].
Qed.

Lemma prefix_true_iff (w s : string) :
  starts_with w s = true <-> exists post, s = w +:+ post.
Proof.
  revert s; induction w as [|c w IH]; intros s; simpl.
  - split; [intros _; now exists s | reflexivity].
  - destruct s as [|d s].
    + split; [discriminate | intros [post H]; discriminate].
    + rewrite andb_true_iff, Ascii.eqb_eq, IH. split.
      * intros [-> [post ->]]. now exists post.
      * intros [post H]. rewrite append_cons in H. injection H as -> ->.
        split; [reflexivity | now exists post].
Qed.

Lemma includes_true_iff (s w : string) : includes s w = true <-> occurs_in s w.
Proof.
  unfold occurs_in. induction s as [|c s IH].
  - simpl. rewrite orb_false_r, prefix_true_iff. split.
    + intros [post H]. exists "", post. exact H.
    + intros [[|d pre] [post H]]; [now exists post | discriminate].
  - cbn [includes]. rewrite orb_true_iff, prefix_true_iff, IH. split.
    + intros [[post H] | (pre & post & H)].
      * exists "", post. exact H.
      * exists (String c pre), post. rewrite append_cons. now rewrite H.
    + intros [[|d pre] [post H]].
      * left. now exists post.
      * right. exists pre, post. rewrite append_cons in H. congruence.
Qed.

Lemma any_includes_true_iff (s : string) (ws : list string) :
  any_includes s ws = true <-> mentions s ws.
Proof.
  unfold any_includes, mentions. rewrite existsb_exists, Exists_exists.
  split; intros (w & Hw & H); exists w; split; try assumption;
    try (apply list_elem_of_In; assumption);
    try (apply list_elem_of_In in Hw; assumption);
    now apply includes_true_iff.
Qed.

Lemma any_includes_false_iff (s : string) (ws : list string) :
  any_includes s ws = false <-> ~ mentions s ws.
Proof.
  rewrite <- any_includes_true_iff. destruct (any_includes s ws); intuition congruence.
Qed.

End Substrings.

(** ** The matcher finds what the pattern denotes *)

Section Engine.

Variable ic : bool.

Lemma length_append (a b : string) :
  String.length (a +:+ b) = (String.length a + String.length b)%nat.
Proof.
  induction a as [|c a IH]; [reflexivity |].
  rewrite append_cons. cbn [String.length]. now rewrite IH.
Qed.

Lemma take_string_app (p s : string) : take_string (String.length p) (p +:+ s) = p.
Proof.
  induction p as [|c p IH]; [now destruct s |].
  rewrite append_cons. cbn [String.length take_string]. now rewrite IH.
Qed.

Lemma consumed_app (p s : string) : consumed (p +:+ s) s = p.
Proof.
  unfold consumed. rewrite length_append.
  replace (String.length p + String.length s - String.length s)%nat
    with (String.length p) by lia.
  apply take_string_app.
Qed.

Lemma star_sound {R} (cs : list atom) (k : string -> option R) (s : string) (x : R) :
  star ic cs k s = Some x ->
  exists p s1, s = p +:+ s1 /\ all_chars (class_match ic cs) p = true /\ k s1 = Some x.
Proof.
  induction s as [|c s IH]; cbn [star].
  - intros H. now exists "", "".
  - destruct (class_match ic cs c) eqn:Hc.
    + destruct (star ic cs k s) as [y|] eqn:Hs.
      * intros [= ->]. destruct (IH eq_refl) as (p & s1 & -> & Hp & Hk).
        exists (String c p), s1. rewrite append_cons. cbn [all_chars].
        now rewrite Hc, Hp.
      * intros H. now exists "", (String c s).
    + intros H. now exists "", (String c s).
Qed.

Lemma star_complete {R} (cs : list atom) (k : string -> option R) (p s1 : string) :
  all_chars (class_match ic cs) p = true ->
  k s1 <> None -> star ic cs k (p +:+ s1) <> None.
Proof.
  induction p as [|c p IH]; cbn [all_chars].
  - intros _ Hk. rewrite append_nil_l. destruct s1 as [|d s1]; cbn [star]; [exact Hk |].
    destruct (class_match ic cs d); [| exact Hk].
    destruct (star ic cs k s1); [discriminate | exact Hk].
  - intros [Hc Hp]%andb_true_iff Hk. rewrite append_cons. cbn [star]. rewrite Hc.
    specialize (IH Hp Hk). destruct (star ic cs k (p +:+ s1)); [discriminate | contradiction].
Qed.

Lemma run_sound {R} (r : regex) :
  forall (s : string) (caps : captures) (k : string -> captures -> option R) (x : R),
    run ic r s caps k = Some x ->
    exists p s1 caps1,
      s = p +:+ s1 /\ matches ic r p caps caps1 /\ k s1 caps1 = Some x.
Proof.
  induction r as [|cs|r1 IH1 r2 IH2|r1 IH1 r2 IH2|r1 IH1|cs|n r1 IH1];
    intros s caps k x; cbn [run matches].
  - intros H. now exists "", s, caps.
  - destruct s as [|c s]; [discriminate |].
    destruct (class_match ic cs c) eqn:Hc; [| discriminate].
    intros H. exists (String c ""), s, caps. repeat split; try assumption.
    now exists c.
  - intros H. apply IH1 in H as (p1 & s1 & caps1 & -> & H1 & H).
    apply IH2 in H as (p2 & s2 & caps2 & -> & H2 & H).
    exists (p1 +:+ p2), s2, caps2. rewrite append_assoc.
    repeat split; try assumption. now exists p1, p2, caps1.
  - destruct (run ic r1 s caps k) as [y|] eqn:Hr.
    + intros [= ->]. apply IH1 in Hr as (p & s1 & caps1 & -> & H1 & H).
      exists p, s1, caps1. auto.
    + intros H. apply IH2 in H as (p & s1 & caps1 & -> & H2 & H).
      exists p, s1, caps1. auto.
  - destruct (run ic r1 s caps k) as [y|] eqn:Hr.
    + intros [= ->]. apply IH1 in Hr as (p & s1 & caps1 & -> & H1 & H).
      exists p, s1, caps1. auto.
    + intros H. exists "", s, caps. auto.
  - intros H. apply star_sound in H as (p & s1 & -> & Hp & H).
    now exists p, s1, caps.
  - intros H. apply IH1 in H as (p & s1 & caps1 & -> & H1 & H).
    rewrite consumed_app in H. exists p, s1, ((n, p) :: caps1).
    repeat split; try assumption. now exists caps1.
Qed.

Lemma run_complete {R} (r : regex) :
  forall (p : string) (caps caps1 : captures),
    matches ic r p caps caps1 ->
    forall (s1 : string) (k : string -> captures -> option R),
      k s1 caps1 <> None -> run ic r (p +:+ s1) caps k <> None.
Proof.
  induction r as [|cs|r1 IH1 r2 IH2|r1 IH1 r2 IH2|r1 IH1|cs|n r1 IH1];
    intros p caps caps1; cbn [run matches].
  - intros [-> ->] s1 k Hk. exact Hk.
  - intros (c & -> & Hc & ->) s1 k Hk. rewrite append_cons, append_nil_l. now rewrite Hc.
  - intros (p1 & p2 & caps' & -> & H1 & H2) s1 k Hk. rewrite append_assoc.
    eapply IH1; [exact H1 |]. eapply IH2; [exact H2 | exact Hk].
  - intros [H1 | H2] s1 k Hk.
    + specialize (IH1 _ _ _ H1 s1 k Hk).
      destruct (run ic r1 (p +:+ s1) caps k); [discriminate | contradiction].
    + destruct (run ic r1 (p +:+ s1) caps k); [discriminate |].
      eapply IH2; [exact H2 | exact Hk].
  - intros [H1 | [-> ->]] s1 k Hk.
    + specialize (IH1 _ _ _ H1 s1 k Hk).
      destruct (run ic r1 (p +:+ s1) caps k); [discriminate | contradiction].
    + rewrite append_nil_l. destruct (run ic r1 s1 caps k); [discriminate | exact Hk].
  - intros [Hp ->] s1 k Hk. now apply star_complete.
  - intros (caps' & H1 & ->) s1 k Hk. eapply IH1; [exact H1 |].
    now rewrite consumed_app.
Qed.

Lemma match_here_sound (r : regex) (i : nat) (s : string) (m : match_result) :
  match_here ic r i s = Some m ->
  index m = i /\ s = matched m +:+ after m /\ matches ic r (matched m) [] (groups m).
Proof.
  unfold match_here. intros H.
  apply run_sound in H as (p & s1 & caps1 & -> & Hm & [= <-]).
  cbn [index matched after groups]. rewrite consumed_app. auto.
Qed.

Lemma match_here_complete (r : regex) (i : nat) (p rest : string) (caps : captures) :
  matches ic r p [] caps -> match_here ic r i (p +:+ rest) <> None.
Proof.
  intros H. unfold match_here. eapply run_complete; [exact H | discriminate].
Qed.

(** A match that [search] returns is an occurrence of the pattern, and no
    occurrence starts before it. *)
Lemma search_sound (r : regex) (s : string) :
  forall (i : nat) (m : match_result),
    search ic r i s = Some m ->
    exists pre,
      index m = (i + String.length pre)%nat /\
      s = pre +:+ matched m +:+ after m /\
      matches ic r (matched m) [] (groups m) /\
      forall pre' p' rest' caps',
        s = pre' +:+ p' +:+ rest' -> matches ic r p' [] caps' ->
        (String.length pre <= String.length pre')%nat.
Proof.
  induction s as [|c s IH]; intros i m; cbn [search].
  - destruct (match_here ic r i "") as [m'|] eqn:Hh; [| discriminate].
    intros [= ->]. apply match_here_sound in Hh as (Hi & Hs & Hm).
    exists "". rewrite append_nil_l. cbn [String.length].
    repeat split; try assumption; try (intros; lia).
  - destruct (match_here ic r i (String c s)) as [m'|] eqn:Hh.
    + intros [= ->]. apply match_here_sound in Hh as (Hi & Hs & Hm).
      exists "". rewrite append_nil_l. cbn [String.length].
      repeat split; try assumption; try (intros; lia).
    + intros H. apply IH in H as (pre & Hi & Hs & Hm & Hleft).
      exists (String c pre). rewrite append_cons, <- Hs. cbn [String.length].
      repeat split; try assumption; try lia.
      intros [|d pre'] p' rest' caps' Heq Hm'.
      * rewrite append_nil_l in Heq. exfalso.
        eapply (match_here_complete r i p' rest' caps' Hm'). now rewrite <- Heq.
      * rewrite append_cons in Heq. injection Heq as -> Heq.
        specialize (Hleft _ _ _ _ Heq Hm'). cbn [String.length]. lia.
Qed.

(** When [search] fails the pattern occurs nowhere. *)
Lemma search_complete (r : regex) (s : string) :
  forall (i : nat),
    search ic r i s = None ->
    forall pre p rest caps, s = pre +:+ p +:+ rest -> ~ matches ic r p [] caps.
Proof.
  induction s as [|c s IH]; intros i; cbn [search].
  - destruct (match_here ic r i "") eqn:Hh; [discriminate |].
    intros _ [|d pre] p rest caps Heq Hm; [| discriminate].
    rewrite append_nil_l in Heq.
    eapply (match_here_complete r i p rest caps Hm). now rewrite <- Heq.
  - destruct (match_here ic r i (String c s)) eqn:Hh; [discriminate |].
    intros H [|d pre] p rest caps Heq Hm.
    + rewrite append_nil_l in Heq.
      eapply (match_here_complete r i p rest caps Hm). now rewrite <- Heq.
    + rewrite append_cons in Heq. injection Heq as -> Heq.
      eapply IH; eauto.
Qed.

(** The fuel [String_match_g] gives is enough: more of it finds no other
    list of matches. *)
Lemma search_all_fuel (r : regex) (fuel : nat) :
  forall (fuel' : nat) (i : nat) (s : string),
    (String.length s < fuel)%nat -> (String.length s < fuel')%nat ->
    search_all fuel ic r i s = search_all fuel' ic r i s.
Proof.
  induction fuel as [|fuel IH]; intros [|fuel'] i s Hf Hf'; try lia.
  cbn [search_all]. destruct (search ic r i s) as [m|] eqn:Hs; [| reflexivity].
  apply search_sound in Hs as (pre & _ & Hs & _ & _).
  apply (f_equal String.length) in Hs. rewrite !length_append in Hs.
  f_equal. destruct (matched m) as [|c p].
  - destruct (after m) as [|d rest]; [reflexivity |].
    cbn [String.length] in Hs. apply IH; lia.
  - cbn [String.length] in Hs. apply IH; lia.
Qed.

End Engine.

(** ** Patterns that read a number and a unit *)

Section Shapes.

Lemma all_chars_app (f : ascii -> bool) (a b : string) :
  all_chars f (a +:+ b) = all_chars f a && all_chars f b.
Proof.
  induction a as [|c a IH]; [reflexivity |].
  rewrite append_cons. cbn [all_chars]. now rewrite IH, andb_assoc.
Qed.

Lemma all_chars_ext (f g : ascii -> bool) (s : string) :
  (forall c, f c = g c) -> all_chars f s = all_chars g s.
Proof.
  intros H. induction s as [|c s IH]; [reflexivity |].
  cbn [all_chars]. now rewrite H, IH.
Qed.

Lemma class_match_Digit (ic : bool) (c : ascii) :
  class_match ic [Digit] c = Char.is_digit c.
Proof. cbn [class_match existsb atom_match]. apply orb_false_r. Qed.

Lemma class_match_Space (ic : bool) (c : ascii) :
  class_match ic [Space] c = Char.is_space c.
Proof. cbn [class_match existsb atom_match]. apply orb_false_r. Qed.

Lemma class_match_Chr (a c : ascii) :
  class_match true [Chr a] c = true <-> Char.canonicalize a = Char.canonicalize c.
Proof.
  cbn [class_match existsb atom_match]. rewrite orb_false_r. apply Ascii.eqb_eq.
Qed.

Lemma matches_digits1 (ic : bool) (p : string) (c c' : captures) :
  matches ic digits1 p c c' <->
  p <> "" /\ all_chars Char.is_digit p = true /\ c' = c.
Proof.
  unfold digits1, Plus. cbn [matches]. split.
  - intros (p1 & p2 & c1 & -> & (ch & -> & Hc & ->) & Hall & ->).
    rewrite append_cons, append_nil_l. rewrite class_match_Digit in Hc.
    rewrite (all_chars_ext _ _ _ (class_match_Digit ic)) in Hall.
    split; [discriminate |]. split; [| reflexivity].
    cbn [all_chars]. now rewrite Hc, Hall.
  - intros (Hne & Hall & ->). destruct p as [|ch p]; [contradiction |].
    cbn [all_chars] in Hall. apply andb_true_iff in Hall as [Hc Hall].
    exists (String ch ""), p, c. repeat split.
    + exists ch. rewrite class_match_Digit. auto.
    + now rewrite (all_chars_ext _ _ _ (class_match_Digit ic)).
Qed.

Lemma matches_spaces0 (ic : bool) (p : string) (c c' : captures) :
  matches ic spaces0 p c c' <-> all_chars Char.is_space p = true /\ c' = c.
Proof.
  unfold spaces0. cbn [matches].
  now rewrite (all_chars_ext _ _ _ (class_match_Space ic)).
Qed.

Lemma same_ignoring_case_nil (p : string) : same_ignoring_case p "" <-> p = "".
Proof.
  unfold same_ignoring_case. destruct p; cbn [map_string]; split; congruence.
Qed.

Lemma same_ignoring_case_cons (p : string) (a : ascii) (w : string) :
  same_ignoring_case p (String a w) <->
  exists ch p', p = String ch p' /\
                Char.canonicalize a = Char.canonicalize ch /\ same_ignoring_case p' w.
Proof.
  unfold same_ignoring_case. destruct p as [|ch p]; cbn [map_string]; split.
  - discriminate.
  - intros (? & ? & ? & _); discriminate.
  - intros [= H1 H2]. exists ch, p. auto.
  - intros (ch' & p' & [= -> ->] & H1 & H2). congruence.
Qed.

Lemma matches_Chr (p : string) (a : ascii) (c c' : captures) :
  matches true (Class [Chr a]) p c c' <->
  same_ignoring_case p (String a "") /\ c' = c.
Proof.
  cbn [matches]. rewrite same_ignoring_case_cons. split.
  - intros (ch & -> & Hc & ->). apply class_match_Chr in Hc.
    split; [| reflexivity].
    exists ch, "". split; [reflexivity |]. split; [exact Hc |].
    now apply same_ignoring_case_nil.
  - intros [(ch & p' & -> & Hc & ->%same_ignoring_case_nil) ->].
    exists ch. repeat split. now apply class_match_Chr.
Qed.

Lemma matches_Lit (w : string) :
  forall (p : string) (c c' : captures),
    matches true (Lit w) p c c' <-> same_ignoring_case p w /\ c' = c.
Proof.
  induction w as [|a w IH]; intros p c c'.
  - cbn [Lit matches]. now rewrite same_ignoring_case_nil.
  - destruct w as [|b w].
    + apply matches_Chr.
    + change (Lit (String a (String b w)))
        with (Seq (Class [Chr a]) (Lit (String b w))).
      cbn [matches]. rewrite (same_ignoring_case_cons p a). split.
      * intros (p1 & p2 & c1 & -> & (ch & -> & Hc & ->) & H2).
        apply IH in H2 as [H2 ->]. split; [| reflexivity].
        exists ch, p2. rewrite append_cons, append_nil_l.
        apply class_match_Chr in Hc. auto.
      * intros [(ch & p' & -> & Hc & H2) ->].
        exists (String ch ""), p', c. rewrite append_cons, append_nil_l.
        split; [reflexivity |]. split.
        -- exists ch. repeat split. now apply class_match_Chr.
        -- now apply IH.
Qed.

Lemma matches_Alts_Lit (ws : list string) :
  ws <> [] ->
  forall (p : string) (c c' : captures),
    matches true (Alts (map Lit ws)) p c c' <-> one_of_ignoring_case p ws /\ c' = c.
Proof.
  unfold one_of_ignoring_case.
  induction ws as [|w ws IH]; [contradiction |]. intros _ p c c'.
  destruct ws as [|w' ws].
  - cbn [map Alts]. rewrite matches_Lit, Exists_cons, Exists_nil. tauto.
  - change (Alts (map Lit (w :: w' :: ws)))
      with (Alt (Lit w) (Alts (map Lit (w' :: ws)))).
    cbn [matches]. rewrite matches_Lit, IH by discriminate.
    rewrite (Exists_cons _ w). tauto.
Qed.

Lemma timePattern_reads : reads time_units timePattern.
Proof.
  split.
  - intros p caps. unfold timePattern. cbn [matches].
    intros (n & q & c1 & -> & (c0 & Hn & ->) &
            ws & q2 & c2 & -> & Hws & u & sfx & c3 & -> & (c4 & Hu & ->) & Hs).
    apply matches_digits1 in Hn as (Hne & Hn & ->).
    apply matches_spaces0 in Hws as (Hws & ->).
    apply (matches_Alts_Lit ["hour"; "minute"; "day"; "week"]) in Hu as [Hu ->];
      [| discriminate].
    assert (caps = [(2%nat, u); (1%nat, n)]) as ->.
    { destruct Hs as [Hs | [_ ->]]; [| reflexivity]. now apply matches_Lit in Hs as [_ ->]. }
    exists n, ws, u, sfx. repeat split; assumption.
  - intros n ws u Hne Hn Hws Hu. unfold timePattern. cbn [matches].
    exists n, (ws +:+ u), [(1%nat, n)]. split; [reflexivity |]. split.
    { exists []. split; [| reflexivity]. apply matches_digits1. auto. }
    exists ws, u, [(1%nat, n)]. split; [reflexivity |]. split.
    { apply matches_spaces0. auto. }
    exists u, "", [(2%nat, u); (1%nat, n)]. split; [now rewrite append_nil_r |]. split.
    { exists [(1%nat, n)]. split; [| reflexivity].
      apply (matches_Alts_Lit ["hour"; "minute"; "day"; "week"]); [discriminate | auto]. }
    right. auto.
Qed.

Lemma tempPattern_reads : reads temperature_units tempPattern.
Proof.
  split.
  - intros p caps. unfold tempPattern. cbn [matches].
    intros (n & q & c1 & -> & (c0 & Hn & ->) &
            ws & u & c2 & -> & Hws & c4 & Hu & ->).
    apply matches_digits1 in Hn as (Hne & Hn & ->).
    apply matches_spaces0 in Hws as (Hws & ->).
    apply (matches_Alts_Lit temperature_units) in Hu as [Hu ->]; [| discriminate].
    exists n, ws, u, "". rewrite append_nil_r. repeat split; assumption.
  - intros n ws u Hne Hn Hws Hu. unfold tempPattern. cbn [matches].
    exists n, (ws +:+ u), [(1%nat, n)]. split; [reflexivity |]. split.
    { exists []. split; [| reflexivity]. apply matches_digits1. auto. }
    exists ws, u, [(1%nat, n)]. split; [reflexivity |]. split.
    { apply matches_spaces0. auto. }
    exists [(1%nat, n)]. split; [| reflexivity].
    apply (matches_Alts_Lit temperature_units); [discriminate | auto].
Qed.

End Shapes.

Section Characters.

Lemma all_ascii_complete (c : ascii) : In c all_ascii.
Proof.
  unfold all_ascii. rewrite <- (ascii_nat_embedding c).
  apply in_map, in_seq. pose proof (nat_ascii_bounded c). lia.
Qed.

Lemma ascii_enum (P : ascii -> bool) :
  forallb P all_ascii = true -> forall c, P c = true.
Proof.
  intros H c. rewrite forallb_forall in H. apply H, all_ascii_complete.
Qed.

Lemma space_not_digit (c : ascii) : Char.is_space c = true -> Char.is_digit c = false.
Proof.
  pose proof (ascii_enum (fun c => implb (Char.is_space c) (negb (Char.is_digit c)))
                         eq_refl c) as H.
  cbn beta in H. destruct (Char.is_space c), (Char.is_digit c); cbn in H; intros; congruence.
Qed.

Lemma head_apart_spec (a : ascii) (w : string) (c : ascii) :
  head_apart (String a w) = true ->
  Char.canonicalize a = Char.canonicalize c ->
  Char.is_digit c = false /\ Char.is_space c = false.
Proof.
  cbn [head_apart]. intros H Hc. pose proof (ascii_enum _ H c) as Hp.
  cbn beta in Hp. rewrite Hc, Ascii.eqb_refl in Hp. cbn [implb] in Hp.
  apply andb_true_iff in Hp as [H1 H2].
  split; [now destruct (Char.is_digit c) | now destruct (Char.is_space c)].
Qed.

Lemma map_string_app (f : ascii -> ascii) (a b : string) :
  map_string f (a +:+ b) = map_string f a +:+ map_string f b.
Proof.
  induction a as [|c a IH]; [reflexivity |].
  rewrite append_cons. cbn [map_string]. now rewrite append_cons, IH.
Qed.

Lemma map_string_length (f : ascii -> ascii) (a : string) :
  String.length (map_string f a) = String.length a.
Proof. induction a as [|c a IH]; [reflexivity | cbn; now rewrite IH]. Qed.

Lemma append_inj_length (a b x y : string) :
  a +:+ x = b +:+ y -> String.length a = String.length b -> a = b /\ x = y.
Proof.
  revert b; induction a as [|c a IH]; intros [|d b]; try discriminate.
  - rewrite !append_nil_l. auto.
  - rewrite !append_cons. intros [= -> H] [= Hl].
    destruct (IH _ H Hl) as [-> ->]. auto.
Qed.

Lemma append_common_start (a b x y : string) :
  a +:+ x = b +:+ y -> starts_with a b = true \/ starts_with b a = true.
Proof.
  revert b; induction a as [|c a IH]; intros [|d b]; cbn [starts_with]; auto.
  rewrite !append_cons. intros [= -> H]. rewrite Ascii.eqb_refl. cbn [andb].
  now apply IH.
Qed.

Lemma run_unique (f : ascii -> bool) (n : string) :
  forall n' x x',
    all_chars f n = true -> all_chars f n' = true ->
    run_ends f x -> run_ends f x' ->
    n +:+ x = n' +:+ x' -> n = n' /\ x = x'.
Proof.
  induction n as [|c n IH]; intros [|d n'] x x'; cbn [all_chars];
    rewrite ?append_cons, ?append_nil_l.
  - auto.
  - intros _ [Hd _]%andb_true_iff Hx _ ->. cbn [run_ends] in Hx. congruence.
  - intros [Hc _]%andb_true_iff _ _ Hx <-. cbn [run_ends] in Hx. congruence.
  - intros [_ Hn]%andb_true_iff [_ Hn']%andb_true_iff Hx Hx' [= -> H].
    destruct (IH _ _ _ Hn Hn' Hx Hx' H) as [-> ->]. auto.
Qed.

End Characters.

Section Readings.

Variable units : list string.
Variable r : regex.
Hypothesis r_reads : reads units r.
Hypothesis units_apart : forallb head_apart units = true.
Hypothesis units_prefix_free : prefix_free units = true.

Lemma unit_head (u : string) (rest : string) :
  one_of_ignoring_case u units ->
  run_ends Char.is_digit (u +:+ rest) /\ run_ends Char.is_space (u +:+ rest).
Proof.
  intros (w & Hw & Hu)%Exists_exists.
  rewrite forallb_forall in units_apart.
  apply list_elem_of_In, units_apart in Hw.
  destruct w as [|a w]; [discriminate |].
  apply same_ignoring_case_cons in Hu as (ch & u' & -> & Hc & _).
  rewrite append_cons. cbn [run_ends]. eapply head_apart_spec; eassumption.
Qed.

Lemma reading_at_unique (s : string) (i : nat) (n u n' u' : string) :
  reading_at units s i n u -> reading_at units s i n' u' -> n = n' /\ u = u'.
Proof.
  intros (pre & ws & rest & -> & Hi & Hne & Hn & Hws & Hu)
         (pre' & ws' & rest' & Heq & Hi' & Hne' & Hn' & Hws' & Hu').
  apply append_inj_length in Heq as [_ Heq]; [| congruence].
  assert (forall ws u rest, all_chars Char.is_space ws = true ->
                            one_of_ignoring_case u units ->
                            run_ends Char.is_digit (ws +:+ u +:+ rest)) as Hend.
  { intros [|c ws0] u0 rest0 H0 Hu0.
    - rewrite append_nil_l. now apply unit_head.
    - rewrite append_cons. cbn [run_ends]. cbn [all_chars] in H0.
      apply andb_true_iff in H0 as [H0 _]. now apply space_not_digit. }
  apply run_unique with (f := Char.is_digit) in Heq as [<- Heq];
    [| assumption | assumption | now apply Hend | now apply Hend].
  split; [reflexivity |].
  apply run_unique with (f := Char.is_space) in Heq as [<- Heq];
    [| assumption | assumption | now apply unit_head | now apply unit_head].
  pose proof Hu as (w & Hw & Huw)%Exists_exists.
  pose proof Hu' as (w' & Hw' & Huw')%Exists_exists.
  assert (map_string Char.canonicalize w = map_string Char.canonicalize w') as Hww.
  { pose proof (f_equal (map_string Char.canonicalize) Heq) as Hc.
    rewrite !map_string_app, Huw, Huw' in Hc.
    unfold prefix_free in units_prefix_free.
    rewrite forallb_forall in units_prefix_free.
    apply list_elem_of_In in Hw, Hw'.
    pose proof (units_prefix_free _ Hw) as H1. rewrite forallb_forall in H1.
    pose proof (units_prefix_free _ Hw') as H2. rewrite forallb_forall in H2.
    specialize (H1 _ Hw'). specialize (H2 _ Hw).
    destruct (append_common_start _ _ _ _ Hc) as [Hs | Hs]; rewrite Hs in *;
      cbn [implb] in *.
    - now apply String.eqb_eq in H1.
    - now apply String.eqb_eq in H2. }
  apply append_inj_length in Heq as [Heq _]; [exact Heq |].
  rewrite <- (map_string_length Char.canonicalize u), Huw, Hww, <- Huw'.
  apply map_string_length.
Qed.

Lemma String_match_reading (s : string) (m : match_result) :
  String_match true r s = Some m ->
  first_reading units s (index m) (group 1 m) (group 2 m).
Proof.
  unfold String_match. intros H.
  apply search_sound in H as (pre & Hi & Hs & Hm & Hleft).
  destruct r_reads as [Hinv Hintro].
  apply Hinv in Hm as (n & ws & u & sfx & Hp & Hcaps & Hne & Hn & Hws & Hu).
  unfold group. rewrite Hcaps. cbn [capture Nat.eqb]. split.
  - exists pre, ws, (sfx +:+ after m). rewrite Hs, Hp, !append_assoc.
    repeat split; try assumption. now rewrite Hi.
  - intros j n' u' (pre' & ws' & rest' & Hs' & Hj & Hne' & Hn' & Hws' & Hu').
    rewrite Hi, <- Hj. cbn [Nat.add].
    apply (Hleft pre' (n' +:+ ws' +:+ u') rest' [(2%nat, u'); (1%nat, n')]).
    + now rewrite Hs', !append_assoc.
    + now apply Hintro.
Qed.

Lemma String_match_no_reading (s : string) :
  String_match true r s = None <-> no_reading units s.
Proof.
  split.
  - unfold String_match. intros H i n u (pre & ws & rest & Hs & Hi & Hne & Hn & Hws & Hu).
    destruct r_reads as [_ Hintro].
    eapply (search_complete true r s 0%nat H pre (n +:+ ws +:+ u) rest).
    + now rewrite Hs, !append_assoc.
    + now apply Hintro.
  - intros Hno. destruct (String_match true r s) as [m|] eqn:Hm; [| reflexivity].
    apply String_match_reading in Hm as [Hm _]. now apply Hno in Hm.
Qed.

Lemma first_reading_String_match (s : string) (i : nat) (n u : string) :
  first_reading units s i n u ->
  exists m, String_match true r s = Some m /\
            index m = i /\ group 1 m = n /\ group 2 m = u.
Proof.
  intros [Hr Hleft]. destruct (String_match true r s) as [m|] eqn:Hm.
  - exists m. split; [reflexivity |].
    apply String_match_reading in Hm as [Hr' Hleft'].
    assert (index m = i) as Hi.
    { apply Nat.le_antisymm; [eapply Hleft', Hr | eapply Hleft, Hr']. }
    split; [exact Hi |]. rewrite Hi in Hr'.
    destruct (reading_at_unique _ _ _ _ _ _ Hr' Hr) as [-> ->]. auto.
  - apply String_match_no_reading in Hm. now apply Hm in Hr.
Qed.

End Readings.

(** ** Integers in binary64 *)

Section Binary64.

Lemma digits2_pos_bounds (p : positive) :
  2 ^ (Zpos (digits2_pos p) - 1) <= Zpos p < 2 ^ Zpos (digits2_pos p).
Proof.
  induction p as [p IH|p IH|]; cbn [digits2_pos].
  - rewrite Pos2Z.inj_succ. replace (Z.succ (Zpos (digits2_pos p)) - 1)
      with (Z.succ (Zpos (digits2_pos p) - 1)) by lia.
    rewrite !Z.pow_succ_r by lia. lia.
  - rewrite Pos2Z.inj_succ. replace (Z.succ (Zpos (digits2_pos p)) - 1)
      with (Z.succ (Zpos (digits2_pos p) - 1)) by lia.
    rewrite !Z.pow_succ_r by lia. lia.
  - change (2 ^ 0 <= 1 < 2 ^ 1). lia.
Qed.

Lemma digits2_pos_unique (p : positive) (d : Z) :
  2 ^ (d - 1) <= Zpos p < 2 ^ d -> Zpos (digits2_pos p) = d.
Proof.
  intros [Hlo Hhi]. pose proof (digits2_pos_bounds p) as [Hlo' Hhi'].
  assert (0 < d) as Hd.
  { destruct (Z.ltb_spec 0 d) as [|Hle]; [assumption |].
    exfalso. destruct (Z.eq_dec d 0) as [->|Hne]; [change (2 ^ 0) with 1 in Hhi; lia |].
    rewrite Z.pow_neg_r in Hhi by lia. lia. }
  destruct (Z.lt_trichotomy (Zpos (digits2_pos p)) d) as [Hlt | [Heq | Hgt]];
    [exfalso | exact Heq | exfalso].
  - assert (2 ^ Zpos (digits2_pos p) <= 2 ^ (d - 1)) by (apply Z.pow_le_mono_r; lia). lia.
  - assert (2 ^ d <= 2 ^ (Zpos (digits2_pos p) - 1)) by (apply Z.pow_le_mono_r; lia). lia.
Qed.

Lemma iter_pos_nat {A} (f : A -> A) (n : positive) (x : A) :
  SpecFloat.iter_pos f n x = Nat.iter (Pos.to_nat n) f x.
Proof.
  revert x; induction n as [n IH|n IH|]; intros x; cbn [SpecFloat.iter_pos].
  - rewrite !IH, Pos2Nat.inj_xI.
    replace (S (2 * Pos.to_nat n)) with (Pos.to_nat n + S (Pos.to_nat n))%nat by lia.
    rewrite Nat.iter_add. now rewrite Nat.iter_succ_r.
  - rewrite !IH, Pos2Nat.inj_xO.
    replace (2 * Pos.to_nat n)%nat with (Pos.to_nat n + Pos.to_nat n)%nat by lia.
    now rewrite Nat.iter_add.
  - reflexivity.
Qed.

Lemma shr_1_even (m : Z) : 0 <= m -> shr_1 (exact (2 * m)) = exact m.
Proof. destruct m as [|p|p]; [reflexivity | reflexivity | lia]. Qed.

Lemma shr_exact (n : nat) (m : Z) :
  0 <= m -> Nat.iter n shr_1 (exact (m * 2 ^ Z.of_nat n)) = exact m.
Proof.
  intros Hm. induction n as [|n IH].
  - cbn [Nat.iter]. change (2 ^ Z.of_nat 0) with 1. now rewrite Z.mul_1_r.
  - rewrite Nat.iter_succ_r, Nat2Z.inj_succ, Z.pow_succ_r by lia.
    replace (m * (2 * 2 ^ Z.of_nat n)) with (2 * (m * 2 ^ Z.of_nat n)) by lia.
    rewrite shr_1_even by (apply Z.mul_nonneg_nonneg; [lia | apply Z.pow_nonneg; lia]).
    exact IH.
Qed.

Lemma shr_1_m (mrs : shr_record) : 0 <= shr_m mrs -> shr_m (shr_1 mrs) = shr_m mrs / 2.
Proof.
  destruct mrs as [m r s]. cbn [shr_m]. intros Hm.
  destruct m as [|[p|p|]|p]; cbn [shr_1 shr_m]; try lia; try reflexivity.
  - rewrite Pos2Z.inj_xI. apply Z.div_unique with 1; lia.
  - rewrite Pos2Z.inj_xO. apply Z.div_unique with 0; lia.
Qed.

Lemma shr_m_iter (n : nat) (mrs : shr_record) :
  0 <= shr_m mrs -> shr_m (Nat.iter n shr_1 mrs) = shr_m mrs / 2 ^ Z.of_nat n.
Proof.
  intros Hm. induction n as [|n IH].
  - cbn [Nat.iter]. change (2 ^ Z.of_nat 0) with 1. now rewrite Z.div_1_r.
  - rewrite Nat.iter_succ, shr_1_m, IH.
    + rewrite Nat2Z.inj_succ, Z.pow_succ_r by lia.
      rewrite Z.div_div by (try lia; apply Z.pow_pos_nonneg; lia).
      now rewrite Z.mul_comm.
    + rewrite IH. apply Z.div_pos; [lia | apply Z.pow_pos_nonneg; lia].
Qed.

Lemma fexp_normal (e : Z) :
  -1021 <= e -> fexp Number.prec Number.emax e = e - 53.
Proof. unfold fexp, emin, Number.prec, Number.emax. lia. Qed.

Lemma pow2_pos (n : Z) : 0 <= n -> 0 < 2 ^ n.
Proof. intros. apply Z.pow_pos_nonneg; lia. Qed.

Lemma Zdigits2_shift (q : positive) (n : Z) :
  Zpos (digits2_pos q) = 53 -> 0 <= n -> Zdigits2 (Zpos q * 2 ^ n) = 53 + n.
Proof.
  intros Hq Hn. pose proof (digits2_pos_bounds q) as [Hlo Hhi]. rewrite Hq in Hlo, Hhi.
  pose proof (pow2_pos n Hn) as Hp.
  destruct (Zpos q * 2 ^ n) as [|M|M] eqn:HM; [lia | | lia].
  cbn [Zdigits2]. apply digits2_pos_unique. rewrite <- HM.
  replace (53 + n - 1) with (52 + n) by lia. rewrite !Z.pow_add_r by lia.
  change (53 - 1) with 52 in Hlo. nia.
Qed.

Lemma shr_fexp_shift (q : positive) (n e : Z) :
  Zpos (digits2_pos q) = 53 -> 0 <= n -> -1074 <= e + n ->
  shr_fexp Number.prec Number.emax (Zpos q * 2 ^ n) e loc_Exact = (exact (Zpos q), e + n).
Proof.
  intros Hq Hn He. unfold shr_fexp. rewrite Zdigits2_shift by assumption.
  assert (fexp Number.prec Number.emax (53 + n + e) - e = n) as ->.
  { unfold fexp, emin, Number.prec, Number.emax. lia. }
  cbn [shr_record_of_loc]. fold (exact (Zpos q * 2 ^ n)).
  destruct n as [|d|d]; [| | lia].
  - cbn [shr]. change (2 ^ 0) with 1. now rewrite Z.mul_1_r, Z.add_0_r.
  - cbn [shr]. rewrite iter_pos_nat. rewrite <- (positive_nat_Z d) at 1.
    rewrite shr_exact by lia. reflexivity.
Qed.

Lemma binary_round_aux_shift (s : bool) (q : positive) (n e : Z) :
  Zpos (digits2_pos q) = 53 -> 0 <= n -> -1074 <= e + n <= 971 ->
  binary_round_aux Number.prec Number.emax s (Zpos q * 2 ^ n) e loc_Exact =
  S754_finite s q (e + n).
Proof.
  intros Hq Hn He. unfold binary_round_aux.
  rewrite shr_fexp_shift by (try assumption; lia).
  cbn [exact shr_m shr_r shr_s loc_of_shr_record round_nearest_even].
  pose proof (shr_fexp_shift q 0 (e + n) Hq) as H0.
  change (2 ^ 0) with 1 in H0. rewrite Z.mul_1_r, Z.add_0_r in H0.
  rewrite H0 by lia. cbn [exact shr_m].
  destruct (Z.leb_spec (e + n) (Number.emax - Number.prec)) as [|Hgt]; [reflexivity |].
  unfold Number.emax, Number.prec in Hgt. lia.
Qed.

Lemma mantissa53_Z (p : positive) :
  Zpos (digits2_pos p) <= 53 ->
  Zpos (mantissa53 p) = Zpos p * 2 ^ (53 - Zpos (digits2_pos p)).
Proof.
  intros Hd. unfold mantissa53. apply Z2Pos.id.
  pose proof (pow2_pos (53 - Zpos (digits2_pos p))). lia.
Qed.

Lemma mantissa53_digits (p : positive) :
  Zpos (digits2_pos p) <= 53 -> Zpos (digits2_pos (mantissa53 p)) = 53.
Proof.
  intros Hd. apply digits2_pos_unique. rewrite mantissa53_Z by assumption.
  pose proof (digits2_pos_bounds p) as [Hlo Hhi].
  set (d := Zpos (digits2_pos p)) in *.
  assert (0 < d) by (unfold d; lia).
  assert (0 < 2 ^ (53 - d)) as Hp by (apply pow2_pos; lia).
  assert (2 ^ (53 - 1) = 2 ^ (d - 1) * 2 ^ (53 - d)) as ->.
  { rewrite <- Z.pow_add_r by lia. f_equal. lia. }
  assert (2 ^ 53 = 2 ^ d * 2 ^ (53 - d)) as ->.
  { rewrite <- Z.pow_add_r by lia. f_equal. lia. }
  split; [apply Z.mul_le_mono_nonneg_r | apply Z.mul_lt_mono_pos_r]; lia.
Qed.

Lemma iter_xO (m d : positive) : Zpos (Pos.iter xO m d) = Zpos m * 2 ^ Zpos d.
Proof.
  induction d as [|d IH] using Pos.peano_ind.
  - change (Zpos m~0 = Zpos m * 2). lia.
  - rewrite Pos.iter_succ, Pos2Z.inj_xO, IH, Pos2Z.inj_succ, Z.pow_succ_r by lia. lia.
Qed.

Lemma binary_round_shifted (s : bool) (p M : positive) (k : Z) :
  Zpos (digits2_pos p) <= 53 -> 0 <= k -> Zpos M = Zpos p * 2 ^ k ->
  binary_round Number.prec Number.emax s M (- k) =
  S754_finite s (mantissa53 p) (Zpos (digits2_pos p) - 53).
Proof.
  intros Hd Hk HM.
  pose proof (digits2_pos_bounds p) as [Hlo Hhi].
  pose proof (mantissa53_Z p Hd) as Hq. pose proof (mantissa53_digits p Hd) as Hq53.
  set (d := Zpos (digits2_pos p)) in *.
  assert (0 < d) as Hd0 by (unfold d; lia).
  assert (Zpos (digits2_pos M) = d + k) as HdM.
  { apply digits2_pos_unique. rewrite HM.
    replace (d + k - 1) with ((d - 1) + k) by lia. rewrite !Z.pow_add_r by lia.
    pose proof (pow2_pos k Hk). nia. }
  unfold binary_round. rewrite HdM.
  replace (d + k + - k) with d by lia. rewrite fexp_normal by lia.
  unfold shl_align. destruct (d - 53 - - k) as [|n|n] eqn:Hn.
  - replace (Zpos M) with (Zpos (mantissa53 p) * 2 ^ 0).
    + rewrite binary_round_aux_shift by lia. f_equal. lia.
    + rewrite Hq, HM, <- Z.mul_assoc, <- Z.pow_add_r by lia. do 2 f_equal. lia.
  - replace (Zpos M) with (Zpos (mantissa53 p) * 2 ^ Zpos n).
    + rewrite binary_round_aux_shift by lia. f_equal. lia.
    + rewrite Hq, HM, <- Z.mul_assoc, <- Z.pow_add_r by lia. do 2 f_equal. lia.
  - replace (Zpos (Pos.iter xO M n)) with (Zpos (mantissa53 p) * 2 ^ 0).
    + rewrite binary_round_aux_shift by lia. f_equal. lia.
    + rewrite iter_xO, Hq, HM, <- !Z.mul_assoc, <- !Z.pow_add_r by lia.
      do 2 f_equal. lia.
Qed.

Lemma of_Z_canonical (z : Z) : Z.abs z < 2 ^ 53 -> Number.of_Z z = canonical z.
Proof.
  intros Hz. unfold Number.of_Z, binary_normalize. destruct z as [|p|p]; [reflexivity | |].
  - change 0 with (- 0). apply binary_round_shifted; [| lia | change (2 ^ 0) with 1; lia].
    pose proof (digits2_pos_bounds p) as [Hlo _].
    destruct (Z.leb_spec (Zpos (digits2_pos p)) 53) as [|Hgt]; [assumption | exfalso].
    assert (2 ^ 53 <= 2 ^ (Zpos (digits2_pos p) - 1)) by (apply Z.pow_le_mono_r; lia). lia.
  - change 0 with (- 0). apply binary_round_shifted; [| lia | change (2 ^ 0) with 1; lia].
    pose proof (digits2_pos_bounds p) as [Hlo _].
    destruct (Z.leb_spec (Zpos (digits2_pos p)) 53) as [|Hgt]; [assumption | exfalso].
    assert (2 ^ 53 <= 2 ^ (Zpos (digits2_pos p) - 1)) by (apply Z.pow_le_mono_r; lia). lia.
Qed.

Lemma small_digits (p : positive) : Zpos p < 2 ^ 53 -> Zpos (digits2_pos p) <= 53.
Proof.
  intros Hp. pose proof (digits2_pos_bounds p) as [Hlo _].
  destruct (Z.leb_spec (Zpos (digits2_pos p)) 53) as [|Hgt]; [assumption | exfalso].
  assert (2 ^ 53 <= 2 ^ (Zpos (digits2_pos p) - 1)) by (apply Z.pow_le_mono_r; lia). lia.
Qed.

Lemma normalize_shifted (z k : Z) :
  Z.abs z < 2 ^ 53 -> 0 <= k ->
  binary_normalize Number.prec Number.emax (z * 2 ^ k) (- k) false = canonical z.
Proof.
  intros Hz Hk. pose proof (pow2_pos k Hk) as Hp.
  destruct z as [|p|p]; [reflexivity | |].
  - destruct (Zpos p * 2 ^ k) as [|M|M] eqn:HM; [lia | | lia].
    cbn [binary_normalize canonical].
    apply binary_round_shifted; [apply small_digits; lia | lia | now rewrite HM].
  - destruct (Zneg p * 2 ^ k) as [|M|M] eqn:HM; [lia | lia |].
    cbn [binary_normalize canonical].
    apply binary_round_shifted; [apply small_digits; lia | lia | lia].
Qed.

Lemma shl_align_fst (m : positive) (e e' : Z) :
  e' <= e -> Zpos (fst (shl_align m e e')) = Zpos m * 2 ^ (e - e').
Proof.
  intros He. unfold shl_align. destruct (e' - e) as [|d|d] eqn:Hd; [| lia |].
  - cbn [fst]. replace (e - e') with 0 by lia. change (2 ^ 0) with 1. lia.
  - cbn [fst]. rewrite iter_xO. do 2 f_equal. lia.
Qed.

Lemma canonical_signed (s : bool) (p : positive) :
  canonical (signed s p) = S754_finite s (mantissa53 p) (Zpos (digits2_pos p) - 53).
Proof. now destruct s. Qed.

Lemma align_value (s : bool) (p : positive) (ez : Z) :
  Zpos (digits2_pos p) <= 53 -> ez <= Zpos (digits2_pos p) - 53 ->
  cond_Zopp s (Zpos (fst (shl_align (mantissa53 p) (Zpos (digits2_pos p) - 53) ez))) =
  signed s p * 2 ^ (- ez).
Proof.
  intros Hd He. rewrite shl_align_fst, mantissa53_Z by assumption.
  rewrite <- Z.mul_assoc, <- Z.pow_add_r by lia.
  replace (53 - Zpos (digits2_pos p) + (Zpos (digits2_pos p) - 53 - ez)) with (- ez) by lia.
  destruct s; unfold signed; cbn [cond_Zopp]; lia.
Qed.

Lemma signed_cases (z : Z) :
  z = 0 \/ exists s p, z = signed s p.
Proof.
  destruct z as [|p|p]; [now left | right; now exists false, p | right; now exists true, p].
Qed.

Lemma signed_abs (s : bool) (p : positive) : Z.abs (signed s p) = Zpos p.
Proof. now destruct s. Qed.

Lemma SFadd_canonical (a b : Z) :
  Z.abs a < 2 ^ 53 -> Z.abs b < 2 ^ 53 -> Z.abs (a + b) < 2 ^ 53 ->
  SFadd Number.prec Number.emax (canonical a) (canonical b) = canonical (a + b).
Proof.
  intros Ha Hb Hab.
  destruct (signed_cases a) as [-> | (sa & pa & ->)];
    destruct (signed_cases b) as [-> | (sb & pb & ->)].
  - reflexivity.
  - rewrite Z.add_0_l, canonical_signed. reflexivity.
  - rewrite Z.add_0_r, canonical_signed. reflexivity.
  - rewrite signed_abs in Ha, Hb. apply small_digits in Ha, Hb.
    rewrite !canonical_signed. cbn [SFadd].
    set (ez := Z.min (Zpos (digits2_pos pa) - 53) (Zpos (digits2_pos pb) - 53)).
    rewrite !align_value by (try assumption; unfold ez; lia).
    rewrite <- Z.mul_add_distr_r.
    pose proof (normalize_shifted (signed sa pa + signed sb pb) (- ez) Hab) as H.
    rewrite Z.opp_involutive in H. apply H. unfold ez. lia.
Qed.

Lemma SFsub_canonical (a b : Z) :
  Z.abs a < 2 ^ 53 -> Z.abs b < 2 ^ 53 -> Z.abs (a - b) < 2 ^ 53 ->
  SFsub Number.prec Number.emax (canonical a) (canonical b) = canonical (a - b).
Proof.
  intros Ha Hb Hab.
  destruct (signed_cases a) as [-> | (sa & pa & ->)];
    destruct (signed_cases b) as [-> | (sb & pb & ->)].
  - reflexivity.
  - rewrite Z.sub_0_l, canonical_signed.
    replace (- signed sb pb) with (signed (negb sb) pb) by (now destruct sb).
    rewrite canonical_signed. reflexivity.
  - rewrite Z.sub_0_r, canonical_signed. reflexivity.
  - rewrite signed_abs in Ha, Hb. apply small_digits in Ha, Hb.
    rewrite !canonical_signed. cbn [SFsub].
    set (ez := Z.min (Zpos (digits2_pos pa) - 53) (Zpos (digits2_pos pb) - 53)).
    rewrite !align_value by (try assumption; unfold ez; lia).
    rewrite <- Z.mul_sub_distr_r.
    pose proof (normalize_shifted (signed sa pa - signed sb pb) (- ez) Hab) as H.
    rewrite Z.opp_involutive in H. apply H. unfold ez. lia.
Qed.

Lemma truncate_canonical (z : Z) :
  Z.abs z < 2 ^ 53 -> Number.truncate (canonical z) = Some z.
Proof.
  intros Hz. destruct (signed_cases z) as [-> | (s & p & ->)]; [reflexivity |].
  rewrite signed_abs in Hz. apply small_digits in Hz.
  rewrite canonical_signed. cbn [Number.truncate]. f_equal.
  rewrite mantissa53_Z by assumption.
  set (d := Zpos (digits2_pos p)) in *.
  assert (Zpos p = if 0 <=? d - 53
                   then Zpos p * 2 ^ (53 - d) * 2 ^ (d - 53)
                   else Zpos p * 2 ^ (53 - d) / 2 ^ (- (d - 53))) as <-.
  { destruct (Z.leb_spec 0 (d - 53)).
    - replace d with 53 by lia. change (2 ^ (53 - 53)) with 1. lia.
    - replace (- (d - 53)) with (53 - d) by lia.
      rewrite Z.div_mul; [reflexivity |]. pose proof (pow2_pos (53 - d)). lia. }
  now destruct s.
Qed.

Lemma round_nearest_even_bounds (m : Z) (l : location) :
  m <= round_nearest_even m l <= m + 1.
Proof.
  destruct l as [|[]]; cbn [round_nearest_even]; try lia.
  destruct (Z.even m); lia.
Qed.

(** Past 2^53 an integer rounds to a number that is at least 2, or to
    infinity. *)
Lemma of_Z_large (p : positive) :
  53 < Zpos (digits2_pos p) ->
  (exists m e, Number.of_Z (Zpos p) = S754_finite false m e /\ 1 <= e) \/
  Number.of_Z (Zpos p) = S754_infinity false.
Proof.
  intros Hd. pose proof (digits2_pos_bounds p) as [Hlo Hhi].
  set (d := Zpos (digits2_pos p)) in *.
  unfold Number.of_Z, binary_normalize, binary_round. fold d.
  rewrite fexp_normal by lia. unfold shl_align.
  destruct (d - 53) as [|n|n] eqn:Hn; [lia | | lia].
  replace (d + 0 - 53 - 0) with (Zpos n) by lia.
  unfold binary_round_aux, shr_fexp. cbn [Zdigits2 shr_record_of_loc]. fold d.
  rewrite fexp_normal by lia. replace (d + 0 - 53 - 0) with (Zpos n) by lia. cbn [shr].
  rewrite iter_pos_nat.
  set (mrs := Nat.iter (Pos.to_nat n) shr_1 _).
  assert (shr_m mrs = Zpos p / 2 ^ Zpos n) as Hm.
  { unfold mrs. rewrite shr_m_iter by (cbn [shr_m]; lia).
    now rewrite positive_nat_Z. }
  assert (2 ^ 52 <= shr_m mrs) as Hm52.
  { rewrite Hm. apply Z.div_le_lower_bound; [apply pow2_pos; lia |].
    rewrite <- Z.pow_add_r by lia. replace (Zpos n + 52) with (d - 1) by lia. exact Hlo. }
  pose proof (round_nearest_even_bounds (shr_m mrs) (loc_of_shr_record mrs)) as Hr.
  set (m2 := round_nearest_even (shr_m mrs) (loc_of_shr_record mrs)) in *.
  assert (0 < 2 ^ 52) as H52 by (apply pow2_pos; lia).
  destruct m2 as [|M2|M2] eqn:HM2; [lia | | lia].
  cbn [Zdigits2]. pose proof (digits2_pos_bounds M2) as [Hlo2 Hhi2].
  set (d2 := Zpos (digits2_pos M2)) in *.
  assert (53 <= d2) as Hd2.
  { destruct (Z.leb_spec 53 d2) as [|Hlt]; [assumption | exfalso].
    assert (2 ^ d2 <= 2 ^ 52) by (apply Z.pow_le_mono_r; lia). lia. }
  rewrite fexp_normal by lia.
  destruct (d2 + (0 + Zpos n) - 53 - (0 + Zpos n)) as [|k|k] eqn:Hk; [| | lia]; cbn [shr].
  - cbn [shr_m]. destruct (0 + Zpos n <=? Number.emax - Number.prec);
      [left; eexists _, _; split; [reflexivity | lia] | now right].
  - rewrite iter_pos_nat.
    set (mrs2 := Nat.iter (Pos.to_nat k) shr_1 _).
    assert (0 < shr_m mrs2) as Hpos.
    { unfold mrs2. rewrite shr_m_iter by (cbn [shr_m]; lia).
      cbn [shr_m]. rewrite positive_nat_Z.
      apply Z.div_str_pos. split; [apply pow2_pos; lia |].
      transitivity (2 ^ (d2 - 1)); [apply Z.pow_le_mono_r; lia | exact Hlo2]. }
    destruct (shr_m mrs2) as [|M3|M3]; [lia | | lia].
    destruct (0 + Zpos n + Zpos k <=? Number.emax - Number.prec);
      [left; eexists _, _; split; [reflexivity | lia] | now right].
Qed.

Lemma digits2_pos_one (p : positive) : Zpos (digits2_pos p) = 1 -> p = 1%positive.
Proof. destruct p; cbn [digits2_pos]; lia. Qed.

Lemma ltb_one_of_Z (z : Z) :
  0 <= z -> Number.ltb (Number.of_Z 1) (Number.of_Z z) = (1 <? z).
Proof.
  intros Hz. destruct z as [|p|p]; [reflexivity | | lia].
  change (Number.of_Z 1) with (S754_finite false 4503599627370496 (-52)).
  destruct (Z.leb_spec (Zpos (digits2_pos p)) 53) as [Hd | Hd].
  - rewrite of_Z_canonical.
    2:{ pose proof (digits2_pos_bounds p) as [_ Hhi].
        assert (2 ^ Zpos (digits2_pos p) <= 2 ^ 53) by (apply Z.pow_le_mono_r; lia).
        rewrite Z.abs_eq; lia. }
    cbn [canonical]. unfold Number.ltb, SFltb. cbn [SFcompare].
    destruct (Z.eq_dec (Zpos (digits2_pos p)) 1) as [H1 | H1].
    + apply digits2_pos_one in H1 as ->. reflexivity.
    + assert (1 < Zpos p) as Hp.
      { destruct p; cbn [digits2_pos] in H1; lia. }
      assert (-52 < Zpos (digits2_pos p) - 53) as He by lia.
      apply Z.compare_lt_iff in He. rewrite He.
      symmetry. now apply Z.ltb_lt.
  - assert (1 < Zpos p) as Hp.
    { pose proof (digits2_pos_bounds p) as [Hlo _].
      assert (2 ^ 1 <= 2 ^ (Zpos (digits2_pos p) - 1)) by (apply Z.pow_le_mono_r; lia).
      change (2 ^ 1) with 2 in *. lia. }
    apply Z.ltb_lt in Hp. rewrite Hp.
    destruct (of_Z_large p Hd) as [(m & e & -> & He) | ->]; [| reflexivity].
    unfold Number.ltb, SFltb. cbn [SFcompare].
    assert (-52 < e) as He' by lia. apply Z.compare_lt_iff in He'. now rewrite He'.
Qed.

Lemma add_of_Z (a b : Z) :
  Z.abs a < 2 ^ 53 -> Z.abs b < 2 ^ 53 -> Z.abs (a + b) < 2 ^ 53 ->
  SFadd Number.prec Number.emax (Number.of_Z a) (Number.of_Z b) = Number.of_Z (a + b).
Proof. intros. rewrite !of_Z_canonical by assumption. now apply SFadd_canonical. Qed.

Lemma sub_of_Z (a b : Z) :
  Z.abs a < 2 ^ 53 -> Z.abs b < 2 ^ 53 -> Z.abs (a - b) < 2 ^ 53 ->
  Number.sub (Number.of_Z a) (Number.of_Z b) = Number.of_Z (a - b).
Proof.
  intros. unfold Number.sub. rewrite !of_Z_canonical by assumption.
  now apply SFsub_canonical.
Qed.

Lemma truncate_of_Z (z : Z) : Z.abs z < 2 ^ 53 -> Number.truncate (Number.of_Z z) = Some z.
Proof. intros. rewrite of_Z_canonical by assumption. now apply truncate_canonical. Qed.

Lemma maxTime_safe : Date.maxTime < 2 ^ 53.
Proof. reflexivity. Qed.

Lemma make_of_Z (t : Z) :
  Z.abs t < 2 ^ 53 -> Date.make (Number.of_Z t) = if Date.valid t then Some t else None.
Proof. intros H. unfold Date.make. now rewrite truncate_of_Z. Qed.

Lemma SFmul_canonical (a b : Z) :
  0 <= a -> 0 <= b -> a * b < 2 ^ 53 -> a < 2 ^ 53 -> b < 2 ^ 53 ->
  SFmul Number.prec Number.emax (canonical a) (canonical b) = canonical (a * b).
Proof.
  intros Ha Hb Hab Ha53 Hb53.
  destruct a as [|pa|pa]; [destruct b; [reflexivity | reflexivity | lia] | | lia].
  destruct b as [|pb|pb]; [rewrite Z.mul_0_r; reflexivity | | lia].
  change (Zpos pa * Zpos pb) with (Zpos (pa * pb)) in *.
  cbn [canonical SFmul xorb].
  pose proof (digits2_pos_bounds pa) as [Hloa Hhia].
  pose proof (digits2_pos_bounds pb) as [Hlob Hhib].
  pose proof (digits2_pos_bounds (pa * pb)) as [Hlo Hhi].
  pose proof (small_digits pa Ha53) as Hda.
  pose proof (small_digits pb Hb53) as Hdb.
  pose proof (small_digits (pa * pb) Hab) as Hd.
  set (da := Zpos (digits2_pos pa)) in *.
  set (db := Zpos (digits2_pos pb)) in *.
  set (d := Zpos (digits2_pos (pa * pb))) in *.
  assert (0 < da) by (unfold da; lia). assert (0 < db) by (unfold db; lia).
  assert (da + db - 2 < d) as Hdd.
  { apply (Z.pow_lt_mono_r_iff 2); [lia | unfold d; lia |].
    replace (da + db - 2) with ((da - 1) + (db - 1)) by lia.
    rewrite Z.pow_add_r by lia.
    apply Z.le_lt_trans with (Zpos (pa * pb)); [| exact Hhi].
    rewrite Pos2Z.inj_mul. apply Z.mul_le_mono_nonneg; try assumption;
      apply Z.pow_nonneg; lia. }
  replace (Zpos (mantissa53 pa * mantissa53 pb))
    with (Zpos (mantissa53 (pa * pb)) * 2 ^ (53 - da - db + d)).
  - rewrite binary_round_aux_shift;
      [f_equal; lia | now apply mantissa53_digits | lia | lia].
  - rewrite Pos2Z.inj_mul, !mantissa53_Z by assumption. fold da db d.
    rewrite Pos2Z.inj_mul.
    replace (Zpos pa * 2 ^ (53 - da) * (Zpos pb * 2 ^ (53 - db)))
      with (Zpos pa * Zpos pb * (2 ^ (53 - da) * 2 ^ (53 - db))) by lia.
    rewrite <- !Z.mul_assoc, <- !Z.pow_add_r by lia. do 3 f_equal. lia.
Qed.

Lemma mul_of_Z (a b : Z) :
  0 <= a -> 0 <= b -> a * b < 2 ^ 53 -> a < 2 ^ 53 -> b < 2 ^ 53 ->
  Number.mul (Number.of_Z a) (Number.of_Z b) = Number.of_Z (a * b).
Proof.
  intros. unfold Number.mul. rewrite !of_Z_canonical by (rewrite Z.abs_eq; nia).
  now apply SFmul_canonical.
Qed.

End Binary64.

(** ** Classification *)

Section Classification.

Lemma classify_category_rule (t : string) : category_rule t (classify_category t).
Proof.
  unfold classify_category.
  destruct (any_includes t ["fail"; "error"; "overheat"; "crash"; "malfunction"]) eqn:Hi.
  { apply rule_issue. now apply any_includes_true_iff. }
  apply any_includes_false_iff in Hi.
  destruct (any_includes t ["delay"; "late"; "postpone"]) eqn:Hd.
  { apply rule_delay; [exact Hi | now apply any_includes_true_iff]. }
  apply any_includes_false_iff in Hd.
  destruct (any_includes t ["qa"; "quality"; "defect"; "inspection"]) eqn:Hq.
  { apply rule_quality; [exact Hi | exact Hd | now apply any_includes_true_iff]. }
  apply any_includes_false_iff in Hq.
  now apply rule_event.
Qed.

Lemma category_rule_functional (t : string) (c1 c2 : Category) :
  category_rule t c1 -> category_rule t c2 -> c1 = c2.
Proof. intros H1 H2; destruct H1; destruct H2; solve [reflexivity | contradiction]. Qed.

Lemma classify_severity_rule (t : string) : severity_rule t (classify_severity t).
Proof.
  unfold classify_severity.
  destruct (any_includes t ["critical"; "urgent"; "emergency"; "severe"]) eqn:Hh.
  { apply rule_high. now apply any_includes_true_iff. }
  apply any_includes_false_iff in Hh.
  destruct (any_includes t ["important"; "significant"; "major"]) eqn:Hm.
  { apply rule_medium; [exact Hh | now apply any_includes_true_iff]. }
  apply any_includes_false_iff in Hm.
  now apply rule_low.
Qed.

Lemma severity_rule_functional (t : string) (s1 s2 : Severity) :
  severity_rule t s1 -> severity_rule t s2 -> s1 = s2.
Proof. intros H1 H2; destruct H1; destruct H2; solve [reflexivity | contradiction]. Qed.

End Classification.

(** C4.  The category [processInput] assigns is the one the priority rule
    gives on the lower-cased input: issue when a word of the issue group
    occurs in it as a substring, else delay, else quality, else event, and
    no other category.  In particular an input that mentions both an issue
    word and a delay word is an issue. *)
Theorem processInput_category_priority (rawInput : string) :
  (forall c : Category,
      category (processInput rawInput) = c <-> category_rule (toLowerCase rawInput) c) /\
  (mentions (toLowerCase rawInput) issue_words ->
   mentions (toLowerCase rawInput) delay_words ->
   category (processInput rawInput) = issue).
Proof.
  split.
  - intros c. cbn [processInput category]. split.
    + intros <-. apply classify_category_rule.
    + intros H. eapply category_rule_functional; [apply classify_category_rule | exact H].
  - intros Hi _. cbn [processInput category].
    eapply category_rule_functional; [apply classify_category_rule | now apply rule_issue].
Qed.

Lemma processInput_category_priority_witness :
  category (processInput "Motor FAILURE causing delay") = issue.
Proof.
  apply (proj2 (processInput_category_priority "Motor FAILURE causing delay"));
    apply any_includes_true_iff; reflexivity.
Defined.

(** Containment is not aware of word boundaries: [late] inside [plate]. *)
Example category_inside_a_word :
  category (processInput "new plate fitted") = delay.
Proof. reflexivity. Qed.

(** C5.  The severity [processInput] assigns is high when the lower-cased
    input mentions critical, urgent, emergency or severe; else medium when
    it mentions important, significant or major; else low.  It is always one
    of the three, and low when no word occurs. *)
Theorem processInput_severity_priority (rawInput : string) :
  forall s : Severity,
    severity (processInput rawInput) = s <-> severity_rule (toLowerCase rawInput) s.
Proof.
  intros s. cbn [processInput severity]. split.
  - intros <-. apply classify_severity_rule.
  - intros H. eapply severity_rule_functional; [apply classify_severity_rule | exact H].
Qed.

Example severity_high_before_medium :
  severity (processInput "Major fault, URGENT") = high.
Proof. reflexivity. Qed.

Example severity_default : severity (processInput "routine check") = low.
Proof. reflexivity. Qed.

(** ** Removing duplicates *)

Section SetOf.

Lemma fold_Set_add (l acc : list string) :
  fold_left Set_add l acc = acc ++ filter (fun y => y ∉ acc) (first_occurrences l).
Proof.
  revert acc; induction l as [|x l IH]; intros acc.
  - simpl. now rewrite filter_nil, app_nil_r.
  - cbn [fold_left first_occurrences]. rewrite IH. unfold Set_add.
    case_bool_decide as Hx.
    + rewrite filter_cons_False by (intros H; now apply H).
      f_equal. rewrite list_filter_filter. apply list_filter_iff.
      intros y. split; [| tauto]. intros Hy. split; [exact Hy |].
      intros ->. now apply Hy.
    + rewrite filter_cons_True by exact Hx.
      rewrite <- app_assoc. cbn [app]. do 2 f_equal.
      rewrite list_filter_filter. apply list_filter_iff.
      intros y. rewrite not_elem_of_app, list_elem_of_singleton. tauto.
Qed.

Lemma filter_not_in_nil (l : list string) :
  filter (fun y : string => y ∉ @nil string) l = l.
Proof.
  induction l as [|x l IH]; [reflexivity |].
  rewrite filter_cons_True by apply not_elem_of_nil. now rewrite IH.
Qed.

Lemma Set_of_first_occurrences (l : list string) : Set_of l = first_occurrences l.
Proof.
  unfold Set_of. rewrite fold_Set_add. cbn [app]. apply filter_not_in_nil.
Qed.

Lemma first_occurrences_elem_of (l : list string) (x : string) :
  x ∈ first_occurrences l <-> x ∈ l.
Proof.
  induction l as [|y l IH]; [reflexivity |].
  cbn [first_occurrences]. rewrite !elem_of_cons, list_elem_of_filter, IH.
  destruct (decide (x = y)); tauto.
Qed.

Lemma first_occurrences_NoDup (l : list string) : NoDup (first_occurrences l).
Proof.
  induction l as [|y l IH]; [constructor |].
  cbn [first_occurrences]. apply NoDup_cons. split.
  - rewrite list_elem_of_filter. tauto.
  - now apply NoDup_filter.
Qed.

End SetOf.

(** C7.  The entities [processInput] returns hold no string twice: they are
    the matched texts in the order of their first occurrence, each kept once,
    and two texts are the same only when they are equal character by
    character. *)
Theorem processInput_entities_distinct (rawInput : string) :
  NoDup (entities (processInput rawInput)) /\
  (forall x, x ∈ entities (processInput rawInput) <-> x ∈ extract_entities rawInput) /\
  entities (processInput rawInput) = first_occurrences (extract_entities rawInput).
Proof.
  cbn [processInput entities]. rewrite Set_of_first_occurrences.
  split; [apply first_occurrences_NoDup |].
  split; [intros x; apply first_occurrences_elem_of | reflexivity].
Qed.

(** Differently cased copies of a word are different entities; an equal copy
    is dropped where it comes again. *)
Example entities_case_sensitive :
  entities (processInput "Motor motor MOTOR Motor") = ["Motor"; "motor"; "MOTOR"].
Proof. reflexivity. Qed.

Example entities_pattern_order :
  entities (processInput "vendor X sent version 2 of the PCB board, Version 2 board") =
  ["PCB"; "board"; "version 2"; "Version 2"; "vendor X"].
Proof. reflexivity. Qed.

(** ** Metrics *)

Section Metrics.

Lemma read_digits_nonneg (radix : Z) (s : string) :
  forall acc n, 0 <= radix -> 0 <= acc -> 0 <= fst (read_digits radix s acc n).
Proof.
  induction s as [|c s IH]; intros acc n Hr Hacc; cbn [read_digits]; [exact Hacc |].
  unfold radix_digit, digit_value.
  destruct (Char.between 48 57 c) eqn:H1.
  - destruct (_ <? radix); [| exact Hacc]. apply IH; [exact Hr |].
    unfold Char.between in H1. apply andb_true_iff in H1 as [H1 _].
    apply N.leb_le in H1. nia.
  - destruct (Char.between 97 122 c) eqn:H2.
    + destruct (_ <? radix); [| exact Hacc]. apply IH; [exact Hr |].
      unfold Char.between in H2. apply andb_true_iff in H2 as [H2 _].
      apply N.leb_le in H2. nia.
    + destruct (Char.between 65 90 c) eqn:H3; [| exact Hacc].
      destruct (_ <? radix); [| exact Hacc]. apply IH; [exact Hr |].
      unfold Char.between in H3. apply andb_true_iff in H3 as [H3 _].
      apply N.leb_le in H3. nia.
Qed.

Lemma decimal_value_nonneg (s : string) : 0 <= decimal_value s.
Proof. apply read_digits_nonneg; lia. Qed.

Lemma plural_by_value (n : string) :
  Number.ltb (Number.of_Z 1) (ToNumber_digits n) = (1 <? decimal_value n).
Proof. apply ltb_one_of_Z, decimal_value_nonneg. Qed.

Lemma time_units_apart : forallb head_apart time_units = true.
Proof. reflexivity. Qed.

Lemma time_units_prefix_free : prefix_free time_units = true.
Proof. reflexivity. Qed.

Lemma temperature_units_apart : forallb head_apart temperature_units = true.
Proof. reflexivity. Qed.

Lemma temperature_units_prefix_free : prefix_free temperature_units = true.
Proof. reflexivity. Qed.

End Metrics.

(** C3, as the code has it.  When the duration pattern occurs in the input,
    with [n] the digits and [u] the unit word of its leftmost occurrence (the
    unit as the input writes it), the duration stored is [n], a space, [u]
    and the letter [s] exactly when the number that [n] denotes is greater
    than 1.  When the pattern occurs nowhere, and only then, no duration is
    stored. *)
Theorem processInput_duration (rawInput : string) :
  (forall i n u,
      first_reading time_units rawInput i n u ->
      duration (extracted_metrics (processInput rawInput)) =
        Some (n +:+ " " +:+ u +:+ (if 1 <? decimal_value n then "s" else ""))) /\
  (duration (extracted_metrics (processInput rawInput)) = None <->
   no_reading time_units rawInput).
Proof.
  cbn [processInput extracted_metrics duration]. unfold extract_duration. split.
  - intros i n u H.
    destruct (first_reading_String_match time_units timePattern timePattern_reads
                time_units_apart time_units_prefix_free rawInput i n u H)
      as (m & -> & _ & -> & ->).
    now rewrite plural_by_value.
  - rewrite <- (String_match_no_reading time_units timePattern timePattern_reads).
    destruct (String_match true timePattern rawInput); split; congruence.
Qed.

Lemma processInput_duration_witness :
  duration (extracted_metrics (processInput "Motor overheating after 10 Hours, 1 day")) =
  Some "10 Hours".
Proof.
  apply (proj1 (processInput_duration "Motor overheating after 10 Hours, 1 day")
               24%nat "10" "Hour").
  exact (String_match_reading time_units timePattern timePattern_reads
           "Motor overheating after 10 Hours, 1 day"
           (MatchResult 24 "10 Hours" [(2%nat, "Hour"); (1%nat, "10")] ", 1 day")
           eq_refl).
Defined.

(** The claim as the specification words it fails on the input [0 hours]:
    the pattern occurs with the digits [0], which are not the string [1],
    and the duration stored has no [s]. *)
Lemma duration_plural_counterexample :
  first_reading time_units "0 hours" 0 "0" "hour" /\
  "0" <> "1" /\
  duration (extracted_metrics (processInput "0 hours")) = Some "0 hour" /\
  duration (extracted_metrics (processInput "0 hours")) <>
    Some (duration_by_digit_text "0" "hour").
Proof.
  split; [| split; [discriminate | split; [reflexivity | discriminate]]].
  exact (String_match_reading time_units timePattern timePattern_reads "0 hours"
           (MatchResult 0 "0 hours" [(2%nat, "hour"); (1%nat, "0")] "") eq_refl).
Qed.

Example duration_leading_zero :
  duration (extracted_metrics (processInput "after 01 weeks")) = Some "01 week".
Proof. reflexivity. Qed.

Example duration_singular :
  duration (extracted_metrics (processInput "down for 1 hours")) = Some "1 hour".
Proof. reflexivity. Qed.

(** C6.  When the temperature pattern occurs in the input, with [n] the
    digits of its leftmost occurrence, the temperature stored is [n]
    followed by the degree sign, whichever unit word was matched.  When the
    pattern occurs nowhere, and only then, no temperature is stored. *)
Theorem processInput_temperature (rawInput : string) :
  (forall i n u,
      first_reading temperature_units rawInput i n u ->
      temperature (extracted_metrics (processInput rawInput)) = Some (n +:+ degree_sign)) /\
  (temperature (extracted_metrics (processInput rawInput)) = None <->
   no_reading temperature_units rawInput).
Proof.
  cbn [processInput extracted_metrics temperature]. unfold extract_temperature. split.
  - intros i n u H.
    destruct (first_reading_String_match temperature_units tempPattern tempPattern_reads
                temperature_units_apart temperature_units_prefix_free rawInput i n u H)
      as (m & -> & _ & -> & _).
    reflexivity.
  - rewrite <- (String_match_no_reading temperature_units tempPattern tempPattern_reads).
    destruct (String_match true tempPattern rawInput); split; congruence.
Qed.

Lemma processInput_temperature_witness :
  temperature (extracted_metrics
                 (processInput "Reading 95 Fahrenheit, then 40 degrees celsius")) =
  Some ("95" +:+ degree_sign).
Proof.
  apply (proj1 (processInput_temperature "Reading 95 Fahrenheit, then 40 degrees celsius")
               8%nat "95" "Fahrenheit").
  exact (String_match_reading temperature_units tempPattern tempPattern_reads
           "Reading 95 Fahrenheit, then 40 degrees celsius"
           (MatchResult 8 "95 Fahrenheit" [(2%nat, "Fahrenheit"); (1%nat, "95")]
                        ", then 40 degrees celsius")
           eq_refl).
Defined.

Example temperature_absent :
  temperature (extracted_metrics (processInput "95 kelvin")) = None.
Proof. reflexivity. Qed.

(** ** Tallies *)

Section Tallies.

Lemma sum_counts_insert (k : string) (v : nat) (obj : gmap string nat) :
  obj !! k = None -> sum_counts (<[k := v]> obj) = (v + sum_counts obj)%nat.
Proof.
  intros Hk. unfold sum_counts.
  apply (map_fold_insert_L (fun _ v acc => (v + acc)%nat)); [| exact Hk].
  intros. lia.
Qed.

Lemma sum_counts_tally (k : string) (obj : gmap string nat) :
  sum_counts (tally k obj) = S (sum_counts obj).
Proof.
  unfold tally. destruct (obj !! k) as [v|] eqn:Hk; cbn [default].
  - assert (sum_counts obj = (v + sum_counts (delete k obj))%nat) as ->.
    { rewrite <- (insert_delete_id obj k v Hk) at 1.
      apply sum_counts_insert, lookup_delete_eq. }
    rewrite <- (insert_delete_eq obj k (v + 1)%nat).
    rewrite sum_counts_insert by apply lookup_delete_eq. lia.
  - rewrite sum_counts_insert by exact Hk. lia.
Qed.

Lemma sum_counts_fold {A} (key : A -> string) (l : list A) (obj : gmap string nat) :
  sum_counts (fold_left (fun o x => tally (key x) o) l obj) =
  (sum_counts obj + length l)%nat.
Proof.
  revert obj; induction l as [|x l IH]; intros obj; cbn [fold_left length]; [lia |].
  rewrite IH, sum_counts_tally. lia.
Qed.

Lemma sum_counts_empty : sum_counts ∅ = 0%nat.
Proof. reflexivity. Qed.

Lemma sum_count_by_category (entries : list Entry) :
  sum_counts (count_by_category entries) = length entries.
Proof.
  unfold count_by_category.
  rewrite (sum_counts_fold (fun e : Entry => Category_name (category e))).
  now rewrite sum_counts_empty.
Qed.

Lemma sum_count_by_severity (entries : list Entry) :
  sum_counts (count_by_severity entries) = length entries.
Proof.
  unfold count_by_severity.
  rewrite (sum_counts_fold (fun e : Entry => Severity_name (severity e))).
  now rewrite sum_counts_empty.
Qed.

(** What a tally holds under a key: how many elements have that key, and
    nothing when there is none. *)
Lemma tally_fold_lookup {A} (key : A -> string) (l : list A) (k : string) :
  forall obj : gmap string nat,
    default 0%nat (fold_left (fun o x => tally (key x) o) l obj !! k) =
    (default 0%nat (obj !! k) + length (filter (fun x => key x = k) l))%nat.
Proof.
  induction l as [|x l IH]; intros obj; cbn [fold_left].
  - rewrite filter_nil. simpl. lia.
  - rewrite IH. unfold tally. destruct (decide (key x = k)) as [Heq | Hne].
    + rewrite filter_cons_True by exact Heq. rewrite Heq, lookup_insert_eq.
      simpl. lia.
    + rewrite filter_cons_False by exact Hne. now rewrite lookup_insert_ne.
Qed.

End Tallies.

(** ** ISO strings *)

Section ISO.

Lemma digit_not_T (n : Z) : not_T (Date.digit n) = true.
Proof.
  unfold Date.digit. pose proof (Z.mod_pos_bound n 10 ltac:(lia)) as Hr.
  remember (n mod 10) as r eqn:Er. clear Er.
  assert (r = 0 \/ r = 1 \/ r = 2 \/ r = 3 \/ r = 4 \/
          r = 5 \/ r = 6 \/ r = 7 \/ r = 8 \/ r = 9) as H by lia.
  repeat (destruct H as [-> | H]; [reflexivity |]). now subst.
Qed.

Lemma pad_not_T (w : nat) : forall n, all_chars not_T (Date.pad w n) = true.
Proof.
  induction w as [|w IH]; intros n; cbn [Date.pad]; [reflexivity |].
  rewrite all_chars_app, IH. cbn [all_chars]. now rewrite digit_not_T.
Qed.

Lemma year_string_not_T (y : Z) : all_chars not_T (Date.year_string y) = true.
Proof.
  unfold Date.year_string. destruct (_ && _); [apply pad_not_T |].
  rewrite all_chars_app, pad_not_T. now destruct (y <? 0).
Qed.

Lemma date_string_not_T (d : Z) : all_chars not_T (Date.date_string d) = true.
Proof.
  unfold Date.date_string. destruct (Date.MonthAndDate _ _) as [m dt].
  rewrite !all_chars_app, year_string_not_T, !pad_not_T. reflexivity.
Qed.

Lemma split_head_app (sep : ascii) (a b : string) :
  all_chars (fun c => negb (Ascii.eqb c sep)) a = true ->
  split_head sep (a +:+ String sep b) = a.
Proof.
  induction a as [|c a IH]; cbn [all_chars].
  - intros _. rewrite append_nil_l. cbn [split_head]. now rewrite Ascii.eqb_refl.
  - intros [Hc Ha]%andb_true_iff. rewrite append_cons. cbn [split_head].
    apply negb_true_iff in Hc. now rewrite Hc, IH.
Qed.

(** The date portion of an ISO string is the calendar date of its day. *)
Lemma split_head_ISOString (t : Z) :
  split_head "T" (Date.ISOString t) = Date.date_string (Date.Day t).
Proof.
  unfold Date.ISOString.
  change ("T" +:+ Date.time_string (Date.TimeWithinDay t) +:+ "Z")
    with (String "T" (Date.time_string (Date.TimeWithinDay t) +:+ "Z")).
  apply split_head_app, date_string_not_T.
Qed.

Lemma valid_iff (t : Z) :
  Date.valid t = true <-> - Date.maxTime <= t <= Date.maxTime.
Proof. unfold Date.valid. rewrite andb_true_iff, !Z.leb_le. tauto. Qed.

Lemma make_valid (t : Z) :
  - Date.maxTime <= t <= Date.maxTime -> Date.make (Number.of_Z t) = Some t.
Proof.
  intros Ht. rewrite make_of_Z.
  - apply valid_iff in Ht. now rewrite Ht.
  - unfold Date.maxTime in Ht. change (2 ^ 53) with 9007199254740992. lia.
Qed.

Lemma Day_add (t k : Z) : Date.Day (t + k * Date.msPerDay) = Date.Day t + k.
Proof. unfold Date.Day. apply Z.div_add. discriminate. Qed.

End ISO.

(** ** The calendar *)

Section Calendar.

Lemma YearFromDay_spec (d : Z) :
  Date.DayFromYear (Date.YearFromDay d) <= d < Date.DayFromYear (Date.YearFromDay d + 1).
Proof.
  unfold Date.YearFromDay.
  destruct (Z.leb_spec (Date.DayFromYear (1970 + d * 400 / 146097 + 1)) d) as [H1 | H1].
  - split; [exact H1 |]. unfold Date.DayFromYear in *.
    Z.div_mod_to_equations; lia.
  - destruct (Z.leb_spec (Date.DayFromYear (1970 + d * 400 / 146097)) d) as [H2 | H2].
    + split; assumption.
    + replace (1970 + d * 400 / 146097 - 1 + 1) with (1970 + d * 400 / 146097) by lia.
      split; [| exact H2]. unfold Date.DayFromYear in *.
      Z.div_mod_to_equations; lia.
Qed.

Lemma YearFromDay_range (d : Z) :
  - 100000000 <= d <= 100000000 -> - 999999 <= Date.YearFromDay d <= 999999.
Proof.
  intros Hd. pose proof (YearFromDay_spec d) as H.
  remember (Date.YearFromDay d) as y eqn:Ey. clear Ey.
  unfold Date.DayFromYear in H. Z.div_mod_to_equations; lia.
Qed.

Lemma year_length (y : Z) :
  Date.DayFromYear (y + 1) - Date.DayFromYear y = 365 + Date.InLeapYear y.
Proof.
  unfold Date.DayFromYear, Date.InLeapYear.
  destruct (Z.eqb_spec (y mod 4) 0); destruct (Z.eqb_spec (y mod 100) 0);
    destruct (Z.eqb_spec (y mod 400) 0); cbn [andb orb negb];
    Z.div_mod_to_equations; lia.
Qed.

Lemma InLeapYear_cases (y : Z) : Date.InLeapYear y = 0 \/ Date.InLeapYear y = 1.
Proof. unfold Date.InLeapYear. destruct (_ && _); auto. Qed.

Lemma DayWithinYear_range (d : Z) :
  0 <= d - Date.DayFromYear (Date.YearFromDay d) < 365 + Date.InLeapYear (Date.YearFromDay d).
Proof.
  pose proof (YearFromDay_spec d). pose proof (year_length (Date.YearFromDay d)). lia.
Qed.

Lemma MonthAndDate_range (leap n : Z) :
  leap = 0 \/ leap = 1 -> 0 <= n < 365 + leap ->
  0 <= fst (Date.MonthAndDate leap n) <= 11 /\ 1 <= snd (Date.MonthAndDate leap n) <= 31.
Proof.
  intros Hleap Hn. unfold Date.MonthAndDate.
  repeat match goal with
         | |- context [if ?a <? ?b then _ else _] => destruct (Z.ltb_spec a b)
         end; cbn [fst snd]; lia.
Qed.

Lemma MonthAndDate_inj (leap n n' : Z) :
  leap = 0 \/ leap = 1 -> 0 <= n < 365 + leap -> 0 <= n' < 365 + leap ->
  Date.MonthAndDate leap n = Date.MonthAndDate leap n' -> n = n'.
Proof.
  intros Hleap Hn Hn'. unfold Date.MonthAndDate.
  repeat match goal with
         | |- context [if ?a <? ?b then _ else _] => destruct (Z.ltb_spec a b)
         end; intros [= ]; lia.
Qed.

Lemma pad_length (w : nat) : forall n, String.length (Date.pad w n) = w.
Proof.
  induction w as [|w IH]; intros n; cbn [Date.pad]; [reflexivity |].
  rewrite length_append, IH. cbn [String.length]. lia.
Qed.

Lemma digit_inj (a b : Z) : Date.digit a = Date.digit b -> a mod 10 = b mod 10.
Proof.
  unfold Date.digit. intros H. apply (f_equal N_of_ascii) in H.
  pose proof (Z.mod_pos_bound a 10 ltac:(lia)).
  pose proof (Z.mod_pos_bound b 10 ltac:(lia)).
  rewrite !N_ascii_embedding in H by lia. lia.
Qed.

Lemma pad_inj (w : nat) :
  forall a b, 0 <= a < 10 ^ Z.of_nat w -> 0 <= b < 10 ^ Z.of_nat w ->
              Date.pad w a = Date.pad w b -> a = b.
Proof.
  induction w as [|w IH]; intros a b Ha Hb.
  - change (10 ^ Z.of_nat 0) with 1 in *. lia.
  - rewrite Nat2Z.inj_succ, Z.pow_succ_r in Ha, Hb by lia.
    cbn [Date.pad]. intros H.
    apply append_inj_length in H as [H1 H2]; [| now rewrite !pad_length].
    injection H2 as H2. apply digit_inj in H2.
    apply IH in H1; [| Z.div_mod_to_equations; lia | Z.div_mod_to_equations; lia].
    Z.div_mod_to_equations; lia.
Qed.

Lemma year_string_length (y : Z) :
  String.length (Date.year_string y) = if (0 <=? y) && (y <=? 9999) then 4%nat else 7%nat.
Proof.
  unfold Date.year_string. destruct (_ && _); [apply pad_length |].
  rewrite length_append, pad_length. now destruct (y <? 0).
Qed.

Lemma year_string_inj (y y' : Z) :
  - 999999 <= y <= 999999 -> - 999999 <= y' <= 999999 ->
  Date.year_string y = Date.year_string y' -> y = y'.
Proof.
  intros Hy Hy' H. pose proof (f_equal String.length H) as Hlen.
  rewrite !year_string_length in Hlen. unfold Date.year_string in H.
  destruct ((0 <=? y) && (y <=? 9999)) eqn:E; destruct ((0 <=? y') && (y' <=? 9999)) eqn:E';
    try discriminate Hlen.
  - apply andb_true_iff in E as [?%Z.leb_le ?%Z.leb_le].
    apply andb_true_iff in E' as [?%Z.leb_le ?%Z.leb_le].
    apply (pad_inj 4) in H; [exact H | |]; change (10 ^ Z.of_nat 4) with 10000; lia.
  - assert (Date.pad 6 (Z.abs y) = Date.pad 6 (Z.abs y') /\ (y <? 0) = (y' <? 0)) as [Hp Hs].
    { remember (Date.pad 6 (Z.abs y)) as p eqn:Ep.
      remember (Date.pad 6 (Z.abs y')) as p' eqn:Ep'.
      destruct (y <? 0), (y' <? 0);
        change ("-" +:+ p) with (String "-" p) in H;
        change ("+" +:+ p) with (String "+" p) in H;
        change ("-" +:+ p') with (String "-" p') in H;
        change ("+" +:+ p') with (String "+" p') in H;
        first [discriminate H | injection H as H; auto]. }
    apply (pad_inj 6) in Hp; [| change (10 ^ Z.of_nat 6) with 1000000; lia ..].
    destruct (Z.ltb_spec y 0), (Z.ltb_spec y' 0); try discriminate; lia.
Qed.

(** Different days have different dates. *)
Lemma date_string_inj (d d' : Z) :
  - 100000000 <= d <= 100000000 -> - 100000000 <= d' <= 100000000 ->
  Date.date_string d = Date.date_string d' -> d = d'.
Proof.
  intros Hd Hd'. unfold Date.date_string.
  pose proof (YearFromDay_range d Hd) as Hy. pose proof (YearFromDay_range d' Hd') as Hy'.
  pose proof (DayWithinYear_range d) as Hn. pose proof (DayWithinYear_range d') as Hn'.
  set (y := Date.YearFromDay d) in *. set (y' := Date.YearFromDay d') in *.
  pose proof (MonthAndDate_range _ _ (InLeapYear_cases y) Hn) as Hr.
  pose proof (MonthAndDate_range _ _ (InLeapYear_cases y') Hn') as Hr'.
  pose proof (MonthAndDate_inj (Date.InLeapYear y) (d - Date.DayFromYear y)) as Hinj.
  destruct (Date.MonthAndDate (Date.InLeapYear y) (d - Date.DayFromYear y)) as [m dt].
  destruct (Date.MonthAndDate (Date.InLeapYear y') (d' - Date.DayFromYear y')) as [m' dt'] eqn:E'.
  cbn [fst snd] in Hr, Hr'. intros H.
  apply append_inj_length in H as [Hyear H].
  2:{ pose proof (f_equal String.length H) as Hlen.
      rewrite !length_append, !pad_length in Hlen.
      change (String.length "-") with 1%nat in Hlen. lia. }
  apply year_string_inj in Hyear; [| assumption | assumption].
  remember (Date.pad 2 (m + 1)) as pm eqn:Epm. remember (Date.pad 2 (m' + 1)) as pm' eqn:Epm'.
  remember (Date.pad 2 dt) as pd eqn:Epd. remember (Date.pad 2 dt') as pd' eqn:Epd'.
  change ("-" +:+ pm +:+ "-" +:+ pd) with (String "-" (pm +:+ String "-" pd)) in H.
  change ("-" +:+ pm' +:+ "-" +:+ pd') with (String "-" (pm' +:+ String "-" pd')) in H.
  injection H as H.
  apply append_inj_length in H as [Hm H]; [| subst pm pm'; now rewrite !pad_length].
  injection H as H. subst pm pm' pd pd'.
  apply (pad_inj 2) in Hm; [| change (10 ^ Z.of_nat 2) with 100; lia ..].
  apply (pad_inj 2) in H; [| change (10 ^ Z.of_nat 2) with 100; lia ..].
  rewrite <- Hyear in *. assert (m = m') by lia. subst m' dt'.
  specialize (Hinj (d' - Date.DayFromYear y) (InLeapYear_cases y) Hn Hn').
  rewrite E' in Hinj. specialize (Hinj eq_refl). lia.
Qed.

End Calendar.

(** ** The recent trend *)

Section RecentTrend.

Variable entries : list Entry.
Variable now : Z.
Hypothesis now_ok : week_before_valid now.

Lemma days_ms_7 : days_ms 7 = Number.of_Z (7 * Date.msPerDay).
Proof. vm_compute. reflexivity. Qed.

Lemma days_ms_small (i : nat) :
  (i < 7)%nat -> days_ms (Z.of_nat i) = Number.of_Z (Z.of_nat i * Date.msPerDay).
Proof.
  intros Hi. do 7 (destruct i as [|i]; [vm_compute; reflexivity |]). lia.
Qed.

Lemma sevenDaysAgo_value :
  Date.make (Number.sub (Number.of_Z now) (days_ms 7)) = Some (now - 7 * Date.msPerDay).
Proof.
  unfold week_before_valid, Date.maxTime, Date.msPerDay in now_ok.
  rewrite days_ms_7, sub_of_Z, make_valid;
    unfold Date.maxTime, Date.msPerDay; change (2 ^ 53) with 9007199254740992;
    try lia; reflexivity.
Qed.

Lemma trend_point_bucket (i : nat) :
  (i < 7)%nat ->
  trend_point entries (Some (now - 7 * Date.msPerDay)) i = Some (bucket entries now i).
Proof.
  intros Hi. unfold trend_point. cbn [Date.getTime].
  unfold week_before_valid, Date.maxTime, Date.msPerDay in now_ok.
  assert (Date.make
            (Number.add (Number.of_Z (now - 7 * Date.msPerDay)) (days_ms (Z.of_nat i))) =
          Some (now - 7 * Date.msPerDay + Z.of_nat i * Date.msPerDay)) as ->.
  { rewrite days_ms_small by exact Hi.
    rewrite add_of_Z, make_valid;
      unfold Date.maxTime, Date.msPerDay; change (2 ^ 53) with 9007199254740992;
      try lia; reflexivity. }
  cbn [Date.toISOString]. rewrite split_head_ISOString.
  replace (now - 7 * Date.msPerDay + Z.of_nat i * Date.msPerDay)
    with (now + (- 7 + Z.of_nat i) * Date.msPerDay) by lia.
  rewrite Day_add. unfold bucket.
  replace (Date.Day now + (- 7 + Z.of_nat i)) with (Date.Day now - 7 + Z.of_nat i) by lia.
  do 3 f_equal. apply list_filter_iff. intros e. unfold date_portion.
  apply String.eqb_eq.
Qed.

Lemma recent_trend_buckets :
  mapM (trend_point entries (Some (now - 7 * Date.msPerDay))) (seq 0 7) =
  Some (map (bucket entries now) (seq 0 7)).
Proof.
  apply mapM_Some. apply Forall2_fmap_r, Forall_Forall2_diag, Forall_forall.
  intros i Hi. apply trend_point_bucket.
  apply list_elem_of_In, in_seq in Hi. lia.
Qed.

Lemma Day_range (t : Z) :
  - Date.maxTime <= t <= Date.maxTime -> - 100000000 <= Date.Day t <= 100000000.
Proof.
  unfold Date.maxTime, Date.Day, Date.msPerDay. intros Ht.
  Z.div_mod_to_equations; lia.
Qed.

Lemma bucket_day_range (i : nat) :
  (i < 7)%nat -> - 100000000 <= Date.Day now - 7 + Z.of_nat i <= 100000000.
Proof.
  intros Hi. unfold week_before_valid, Date.maxTime, Date.msPerDay in now_ok.
  unfold Date.Day, Date.msPerDay. Z.div_mod_to_equations; lia.
Qed.

(** The seven days of the trend have seven different keys. *)
Lemma bucket_dates_distinct : NoDup (map date (map (bucket entries now) (seq 0 7))).
Proof.
  rewrite map_map. cbn [bucket date]. apply NoDup_fmap_2_strong; [| apply NoDup_seq].
  intros i j Hi Hj H.
  apply list_elem_of_In, in_seq in Hi. apply list_elem_of_In, in_seq in Hj.
  apply date_string_inj in H; [lia | apply bucket_day_range; lia ..].
Qed.

(** An entry with a valid timestamp is counted on the day it was made. *)
Lemma bucket_count_by_day (i : nat) :
  (i < 7)%nat ->
  Forall (fun e : Entry => - Date.maxTime <= timestamp e <= Date.maxTime) entries ->
  count (bucket entries now i) =
  length (filter (fun e : Entry => Date.Day (timestamp e) = Date.Day now - 7 + Z.of_nat i)
                 entries).
Proof.
  intros Hi Hvalid. cbn [bucket count]. induction Hvalid as [|e l He Hl IH]; [reflexivity |].
  assert (date_portion e = Date.date_string (Date.Day now - 7 + Z.of_nat i) <->
          Date.Day (timestamp e) = Date.Day now - 7 + Z.of_nat i) as Hiff.
  { unfold date_portion, timestamp_string. rewrite split_head_ISOString. split.
    - apply date_string_inj; [now apply Day_range | now apply bucket_day_range].
    - now intros ->. }
  destruct (decide (Date.Day (timestamp e) = Date.Day now - 7 + Z.of_nat i)) as [Hd | Hd].
  - rewrite !filter_cons_True by tauto. cbn [length]. now rewrite IH.
  - rewrite !filter_cons_False by tauto. exact IH.
Qed.

Lemma analytics_value :
  analytics entries now =
  Some {| total := length entries;
          by_category := count_by_category entries;
          by_severity := count_by_severity entries;
          recent_trend := map (bucket entries now) (seq 0 7);
          top_entities := top_entities_of entries |}.
Proof.
  unfold analytics. now rewrite sevenDaysAgo_value, recent_trend_buckets.
Qed.

End RecentTrend.

(** ** Analytics *)

Lemma sample_now_ok : week_before_valid sample_now.
Proof. unfold week_before_valid, sample_now, Date.maxTime, Date.msPerDay. lia. Qed.

(** C1, as the code has it.  For a clock value [now] from which seven days
    can be taken away, the recent trend has exactly 7 entries, for 7
    consecutive days of the calendar: entry [i], for [i] from 0 to 6, is
    keyed by the ISO date of the day [7 - i] days before the day of [now],
    the seven keys are different, and the count of an entry is the number of
    stored entries whose timestamp has its key as date portion, by
    comparison of the two strings; 0 when there is none. *)
Theorem analytics_recent_trend (entries : list Entry) (now : Z) :
  week_before_valid now ->
  exists a,
    analytics entries now = Some a /\
    length (recent_trend a) = 7%nat /\
    recent_trend a = map (bucket entries now) [0; 1; 2; 3; 4; 5; 6]%nat /\
    NoDup (map date (recent_trend a)) /\
    forall i pt,
      recent_trend a !! i = Some pt ->
      date pt = Date.date_string (Date.Day now - 7 + Z.of_nat i) /\
      count pt = length (filter (fun e : Entry => date_portion e = date pt) entries).
Proof.
  intros Hnow. eexists. split; [apply analytics_value, Hnow |].
  cbn [recent_trend]. split; [reflexivity |]. split; [reflexivity |].
  split; [now apply bucket_dates_distinct |].
  intros i pt Hpt. apply list_lookup_fmap_Some in Hpt as (k & -> & Hk).
  apply lookup_seq in Hk as [-> _]. cbn [Nat.add bucket date count]. auto.
Qed.

Lemma analytics_recent_trend_witness :
  exists a,
    analytics sample_entries sample_now = Some a /\
    map date (recent_trend a) =
      ["2024-10-26"; "2024-10-27"; "2024-10-28"; "2024-10-29";
       "2024-10-30"; "2024-10-31"; "2024-11-01"] /\
    map count (recent_trend a) = [0; 0; 0; 0; 0; 1; 0]%nat.
Proof.
  assert (week_before_valid sample_now) as Hnow.
  { unfold week_before_valid, sample_now, Date.maxTime, Date.msPerDay. lia. }
  destruct (analytics_recent_trend sample_entries sample_now Hnow)
    as (a & Ha & _ & Htrend & _ & _).
  exists a. split; [exact Ha |]. rewrite Htrend. split; vm_compute; reflexivity.
Defined.

(** The trend does not run through [now]: on 2024-11-02 its last day is
    2024-11-01, no entry of it is keyed by the date of [now], and the entry
    made at [now] is counted in none. *)
Lemma recent_trend_counterexample :
  exists a,
    analytics [stored "e3" sample_now "Delay in shipment from vendor X"] sample_now = Some a /\
    Date.date_string (Date.Day sample_now) = "2024-11-02" /\
    date_portion (stored "e3" sample_now "Delay in shipment from vendor X") = "2024-11-02" /\
    last (map date (recent_trend a)) = Some "2024-11-01" /\
    ~ In "2024-11-02" (map date (recent_trend a)) /\
    map count (recent_trend a) = [0; 0; 0; 0; 0; 0; 0]%nat.
Proof.
  eexists. split; [apply analytics_value, sample_now_ok |].
  cbn [recent_trend].
  split; [vm_compute; reflexivity |].
  split; [vm_compute; reflexivity |].
  split; [vm_compute; reflexivity |].
  split; [| vm_compute; reflexivity].
  vm_compute. intros H. repeat (destruct H as [H | H]; [discriminate H |]). exact H.
Qed.

(** C8.  On an empty store the analytics are: total 0, no category and no
    severity counted, no entity, and a recent trend of exactly 7 entries
    whose counts are all 0; the call returns. *)
Theorem analytics_empty (now : Z) :
  week_before_valid now ->
  exists a,
    analytics [] now = Some a /\
    total a = 0%nat /\
    by_category a = ∅ /\
    by_severity a = ∅ /\
    top_entities a = [] /\
    length (recent_trend a) = 7%nat /\
    Forall (fun pt => count pt = 0%nat) (recent_trend a).
Proof.
  intros Hnow. eexists. split; [apply analytics_value, Hnow |].
  cbn [total by_category by_severity top_entities recent_trend].
  repeat split. repeat constructor.
Qed.

(** In the first week of the range of dates there is no date seven days
    before [now], and [toISOString] throws. *)
Example analytics_first_week : analytics [] (- Date.maxTime) = None.
Proof. vm_compute. reflexivity. Qed.

Lemma analytics_empty_witness :
  exists a,
    analytics [] sample_now = Some a /\ total a = 0%nat /\
    map count (recent_trend a) = [0; 0; 0; 0; 0; 0; 0]%nat.
Proof.
  assert (week_before_valid sample_now) as Hnow.
  { unfold week_before_valid, sample_now, Date.maxTime, Date.msPerDay. lia. }
  destruct (analytics_empty sample_now Hnow)
    as (a & Ha & Htotal & _ & _ & _ & Hlen & Hzero).
  exists a. split; [exact Ha |]. split; [exact Htotal |].
  destruct (recent_trend a) as [|p0 [|p1 [|p2 [|p3 [|p4 [|p5 [|p6 [|p7 l]]]]]]]];
    try discriminate Hlen.
  repeat match goal with
         | H : Forall _ (_ :: _) |- _ => apply Forall_cons in H as [? H]
         end.
  cbn [map]. congruence.
Defined.

(** C10.  In the analytics of any store each entry is counted once under
    its category and once under its severity: the counts of [by_category]
    add up to [total], and so do those of [by_severity]. *)
Theorem analytics_tallies_sum (entries : list Entry) (now : Z) (a : Analytics) :
  analytics entries now = Some a ->
  sum_counts (by_category a) = total a /\
  sum_counts (by_severity a) = total a /\
  sum_counts (by_category a) = sum_counts (by_severity a) /\
  (forall c : Category,
      default 0%nat (by_category a !! Category_name c) =
      length (filter (fun e : Entry => category e = c) entries)) /\
  (forall s : Severity,
      default 0%nat (by_severity a !! Severity_name s) =
      length (filter (fun e : Entry => severity e = s) entries)).
Proof.
  unfold analytics. destruct (mapM _ _) as [trend|]; [| discriminate].
  intros [= <-]. cbn [total by_category by_severity].
  rewrite sum_count_by_category, sum_count_by_severity.
  split; [reflexivity |]. split; [reflexivity |]. split; [reflexivity |]. split.
  - intros c. unfold count_by_category.
    rewrite (tally_fold_lookup (fun e : Entry => Category_name (category e))).
    rewrite lookup_empty. cbn [default Nat.add]. f_equal. apply list_filter_iff.
    intros e. split; [| congruence]. destruct (category e), c; cbn; congruence.
  - intros s. unfold count_by_severity.
    rewrite (tally_fold_lookup (fun e : Entry => Severity_name (severity e))).
    rewrite lookup_empty. cbn [default Nat.add]. f_equal. apply list_filter_iff.
    intros e. split; [| congruence]. destruct (severity e), s; cbn; congruence.
Qed.

Lemma analytics_tallies_sum_witness :
  exists a,
    analytics sample_entries sample_now = Some a /\
    sum_counts (by_category a) = 3%nat /\ sum_counts (by_severity a) = 3%nat.
Proof.
  eexists. split; [apply analytics_value, sample_now_ok |].
  destruct (analytics_tallies_sum sample_entries sample_now _
              (analytics_value sample_entries sample_now sample_now_ok))
    as (Hc & Hs & _).
  split; [exact Hc | exact Hs].
Defined.

(** ** Trends *)

Section ParseInt.

Lemma digit_char (c : ascii) :
  Char.is_digit c = true ->
  Char.is_space c = false /\ Ascii.eqb c "-" = false /\ Ascii.eqb c "+" = false /\
  Ascii.eqb c "x" = false /\ Ascii.eqb c "X" = false /\
  radix_digit 10 c = Some (Z.of_N (Char.code c) - 48).
Proof.
  intros Hc.
  pose proof (ascii_enum
    (fun c => implb (Char.is_digit c)
                (negb (Char.is_space c) && negb (Ascii.eqb c "-") &&
                 negb (Ascii.eqb c "+") && negb (Ascii.eqb c "x") &&
                 negb (Ascii.eqb c "X") &&
                 match radix_digit 10 c with
                 | Some v => v =? Z.of_N (Char.code c) - 48
                 | None => false
                 end)) eq_refl c) as H.
  cbn beta in H. rewrite Hc in H. cbn [implb] in H.
  apply andb_true_iff in H as [H Hv].
  apply andb_true_iff in H as [H H5]. apply andb_true_iff in H as [H H4].
  apply andb_true_iff in H as [H H3]. apply andb_true_iff in H as [H1 H2].
  apply negb_true_iff in H1, H2, H3, H4, H5.
  destruct (radix_digit 10 c) as [v|]; [| discriminate].
  apply Z.eqb_eq in Hv. subst v. repeat split; assumption.
Qed.

Lemma read_digits_all (s : string) :
  all_chars Char.is_digit s = true ->
  forall acc n, snd (read_digits 10 s acc n) = (n + String.length s)%nat.
Proof.
  induction s as [|c s IH]; cbn [all_chars read_digits String.length].
  - intros _ acc n. cbn [snd]. lia.
  - intros [Hc Hs]%andb_true_iff acc n.
    destruct (digit_char c Hc) as (_ & _ & _ & _ & _ & ->).
    rewrite IH by exact Hs. lia.
Qed.

(** [parseInt] of a decimal numeral is the number nearest to its value. *)
Lemma parseInt_numeral (s : string) :
  s <> "" -> all_chars Char.is_digit s = true ->
  parseInt s = Number.of_Z (decimal_value s).
Proof.
  intros Hne Hs. destruct s as [|c s]; [contradiction |].
  pose proof Hs as Hall. cbn [all_chars] in Hs. apply andb_true_iff in Hs as [Hc Hs].
  destruct (digit_char c Hc) as (Hsp & Hminus & Hplus & _ & _ & _).
  unfold parseInt. cbn [trim_start]. rewrite Hsp, Hminus, Hplus.
  assert ((let '(radix, s0) :=
             match String c s with
             | String c0 (String x s') =>
                 if Ascii.eqb c0 "0" && (Ascii.eqb x "x" || Ascii.eqb x "X")
                 then (16, s') else (10, String c s)
             | _ => (10, String c s)
             end in
           match read_digits radix s0 0 0 with
           | (_, O) => Number.NaN
           | (0, _) => S754_zero false
           | (v, _) => Number.of_Z (if false then - v else v)
           end) =
          match read_digits 10 (String c s) 0 0 with
          | (_, O) => Number.NaN
          | (0, _) => S754_zero false
          | (v, _) => Number.of_Z v
          end) as Hradix.
  { destruct s as [|x s]; [reflexivity |].
    cbn [all_chars] in Hs. apply andb_true_iff in Hs as [Hx _].
    destruct (digit_char x Hx) as (_ & _ & _ & -> & -> & _).
    now rewrite andb_false_r. }
  etransitivity; [exact Hradix |]. unfold decimal_value.
  pose proof (read_digits_all (String c s) Hall 0 0%nat) as Hlen.
  destruct (read_digits 10 (String c s) 0 0) as [v k].
  cbn [snd fst] in *. cbn [String.length] in Hlen. subst k.
  now destruct v.
Qed.

Lemma days_ms_exact (d : Z) :
  0 <= d -> d * Date.msPerDay <= Date.maxTime ->
  Number.mul (Number.mul (Number.mul (Number.mul (Number.of_Z d) (Number.of_Z 24))
                                     (Number.of_Z 60)) (Number.of_Z 60)) (Number.of_Z 1000) =
  Number.of_Z (d * Date.msPerDay).
Proof.
  unfold Date.msPerDay, Date.maxTime. intros Hd Hmax.
  rewrite !mul_of_Z; change (2 ^ 53) with 9007199254740992; try lia.
  f_equal. lia.
Qed.

Lemma sub_NaN (x : Number) : Number.sub x Number.NaN = Number.NaN.
Proof. now destruct x. Qed.

Lemma div_NaN (x : Number) : Number.div x Number.NaN = Number.NaN.
Proof. now destruct x. Qed.

Lemma filter_none (entries : list Entry) : List.filter (on_or_after None) entries = [].
Proof. induction entries as [|e l IH]; [reflexivity | exact IH]. Qed.

Lemma filter_window (start : Z) (entries : list Entry) :
  List.filter (on_or_after (Some start)) entries =
  filter (fun e : Entry => start <= timestamp e) entries.
Proof.
  induction entries as [|e l IH]; [reflexivity |].
  cbn [List.filter on_or_after]. destruct (Z.leb_spec start (timestamp e)) as [H | H].
  - rewrite filter_cons_True by exact H. now rewrite IH.
  - rewrite filter_cons_False by lia. exact IH.
Qed.

Lemma trends_NaN (entries : list Entry) (now : Z) (days : string) :
  parseInt days = Number.NaN ->
  period_days (trends entries now (Some days)) = Number.NaN /\
  total_entries (trends entries now (Some days)) = 0%nat /\
  avg_per_day (trends entries now (Some days)) = Some "NaN".
Proof.
  intros Hnan. unfold trends. cbn [period_days total_entries avg_per_day].
  rewrite Hnan. split; [reflexivity |].
  unfold Number.mul at 4. cbn [SFmul]. unfold Number.mul at 3. cbn [SFmul].
  unfold Number.mul at 2. cbn [SFmul]. unfold Number.mul at 1. cbn [SFmul].
  change S754_nan with Number.NaN. rewrite sub_NaN.
  change (Date.make Number.NaN) with (@None Z). rewrite filter_none.
  split; [reflexivity |]. cbn [length]. now rewrite div_NaN.
Qed.

Lemma trends_numeral (entries : list Entry) (now : Z) (days : string) (d : Z) :
  days <> "" -> all_chars Char.is_digit days = true -> decimal_value days = d ->
  window_valid now d ->
  period_days (trends entries now (Some days)) = Number.of_Z d /\
  total_entries (trends entries now (Some days)) =
    length (filter (fun e : Entry => now - d * Date.msPerDay <= timestamp e) entries) /\
  avg_per_day (trends entries now (Some days)) =
    toFixed2 (Number.div
                (Number.of_Z
                   (Z.of_nat
                      (length (filter (fun e : Entry =>
                                         now - d * Date.msPerDay <= timestamp e)
                                      entries))))
                (Number.of_Z d)).
Proof.
  intros Hne Hdigits Hd (Hd1 & Hmax & Hlo & Hhi).
  unfold trends. cbn [period_days total_entries avg_per_day].
  rewrite parseInt_numeral, Hd by assumption.
  rewrite days_ms_exact by (try assumption; lia).
  unfold Date.maxTime, Date.msPerDay in *.
  rewrite sub_of_Z by (change (2 ^ 53) with 9007199254740992; lia).
  rewrite make_valid by (unfold Date.maxTime; lia).
  rewrite filter_window. auto.
Qed.

End ParseInt.

(** C2, as the code has it.  A missing [days] is read as 30.  A value that
    [parseInt] cannot read as a number is not replaced by that default: the
    period is NaN, no entry is selected and the average is the text [NaN].
    For a decimal numeral [d] of at least 1, the entries selected are those
    whose timestamp is at most [d] days before [now].  In every case the
    average is the number of entries selected divided by the period, as
    [toFixed(2)] prints the binary64 quotient. *)
Theorem trends_days (entries : list Entry) (now : Z) :
  trends entries now None = trends entries now (Some "30") /\
  period_days (trends entries now None) = Number.of_Z 30 /\
  (forall query_days,
      avg_per_day (trends entries now query_days) =
      toFixed2 (Number.div (Number.of_Z (Z.of_nat (total_entries (trends entries now query_days))))
                           (period_days (trends entries now query_days)))) /\
  (forall days,
      parseInt days = Number.NaN ->
      period_days (trends entries now (Some days)) = Number.NaN /\
      total_entries (trends entries now (Some days)) = 0%nat /\
      avg_per_day (trends entries now (Some days)) = Some "NaN") /\
  (forall days d,
      days <> "" -> all_chars Char.is_digit days = true -> decimal_value days = d ->
      window_valid now d ->
      period_days (trends entries now (Some days)) = Number.of_Z d /\
      total_entries (trends entries now (Some days)) =
        length (filter (fun e : Entry => now - d * Date.msPerDay <= timestamp e) entries) /\
      avg_per_day (trends entries now (Some days)) =
        toFixed2 (Number.div
                    (Number.of_Z
                       (Z.of_nat
                          (length (filter (fun e : Entry =>
                                             now - d * Date.msPerDay <= timestamp e)
                                          entries))))
                    (Number.of_Z d))).
Proof.
  split; [reflexivity |]. split; [reflexivity |]. split; [reflexivity |]. split.
  - intros days Hnan. now apply trends_NaN.
  - intros days d Hne Hdigits Hd Hw. now apply trends_numeral.
Qed.

Lemma trends_days_witness :
  period_days (trends sample_entries sample_now (Some "abc")) = Number.NaN /\
  total_entries (trends sample_entries sample_now (Some "7")) = 2%nat /\
  avg_per_day (trends sample_entries sample_now (Some "7")) = Some "0.29".
Proof.
  destruct (trends_days sample_entries sample_now) as (_ & _ & _ & Hnan & Hnum).
  split; [apply (Hnan "abc"); reflexivity |].
  assert (window_valid sample_now 7) as Hw.
  { unfold window_valid, sample_now, Date.maxTime, Date.msPerDay. lia. }
  destruct (Hnum "7" 7 ltac:(discriminate) eq_refl eq_refl Hw) as (_ & Htotal & Havg).
  split; [rewrite Htotal | rewrite Havg]; vm_compute; reflexivity.
Defined.

(** A value of [days] that is no number does not fall back to 30: for
    [abc] the period is NaN, not 30, no entry is selected although two are
    less than 30 days old, and the average is the text [NaN]. *)
Lemma trends_non_numeric_counterexample :
  period_days (trends sample_entries sample_now (Some "abc")) = Number.NaN /\
  period_days (trends sample_entries sample_now (Some "abc")) <> Number.of_Z 30 /\
  total_entries (trends sample_entries sample_now (Some "abc")) = 0%nat /\
  avg_per_day (trends sample_entries sample_now (Some "abc")) = Some "NaN" /\
  total_entries (trends sample_entries sample_now None) = 2%nat /\
  avg_per_day (trends sample_entries sample_now None) = Some "0.07".
Proof.
  split; [vm_compute; reflexivity |].
  split; [vm_compute; discriminate |].
  repeat split; vm_compute; reflexivity.
Qed.

(** The quotient is rounded as a binary64 number: 201 entries in 200 days
    print as 1.00, the quotient being just under 1.005, and 1 entry in 8
    days as 0.13, the larger of the two nearest. *)
Example toFixed2_rounding :
  toFixed2 (Number.div (Number.of_Z 201) (Number.of_Z 200)) = Some "1.00" /\
  toFixed2 (Number.div (Number.of_Z 1) (Number.of_Z 8)) = Some "0.13" /\
  toFixed2 (Number.div (Number.of_Z 0) (Number.of_Z 30)) = Some "0.00".
Proof. repeat split; vm_compute; reflexivity. Qed.

(** ** The documented examples *)

Section Documented.

Example motor_overheating :
  processInput "Motor overheating after 3 hours" =
  {| category := issue; severity := low; entities := ["Motor"];
     extracted_metrics := {| duration := Some "3 hours"; temperature := None;
                             voltage := None; quantity := None |} |}.
Proof. reflexivity. Qed.

Example pcb_failed_inspection :
  category (processInput "PCB board version 2 failed QA inspection") = issue /\
  entities (processInput "PCB board version 2 failed QA inspection") =
    ["PCB"; "board"; "version 2"].
Proof. split; reflexivity. Qed.

Example shipment_delay :
  category (processInput "Delay in shipment from vendor X") = delay /\
  entities (processInput "Delay in shipment from vendor X") = ["vendor X"].
Proof. split; reflexivity. Qed.

Example temperature_reading :
  category (processInput "Temperature reading 95 degrees celsius") = event /\
  severity (processInput "Temperature reading 95 degrees celsius") = low /\
  temperature (extracted_metrics (processInput "Temperature reading 95 degrees celsius")) =
    Some ("95" +:+ degree_sign).
Proof. repeat split; reflexivity. Qed.

Example emergency_short :
  severity (processInput "Emergency: Circuit board short at relay switch") = high /\
  entities (processInput "Emergency: Circuit board short at relay switch") =
    ["Circuit"; "board"; "relay"; "switch"].
Proof. split; reflexivity. Qed.

Example voltage_and_quantity :
  voltage (extracted_metrics (processInput "Voltage drop to 11.5 volts on 12 units")) =
    Some "11.5V" /\
  quantity (extracted_metrics (processInput "Voltage drop to 11.5 volts on 12 units")) =
    Some (Number.of_Z 12).
Proof. split; vm_compute; reflexivity. Qed.

(** When every entry is more than 30 days old the default report counts
    none and prints the average 0.00. *)
Lemma trends_all_older (entries : list Entry) (now : Z) :
  window_valid now 30 ->
  Forall (fun e : Entry => timestamp e < now - 30 * Date.msPerDay) entries ->
  total_entries (trends entries now None) = 0%nat /\
  avg_per_day (trends entries now None) = Some "0.00".
Proof.
  intros Hw Hold.
  change (trends entries now None) with (trends entries now (Some "30")).
  destruct (trends_numeral entries now "30" 30 ltac:(discriminate) eq_refl eq_refl Hw)
    as (_ & -> & ->).
  assert (filter (fun e : Entry => now - 30 * Date.msPerDay <= timestamp e) entries = [])
    as ->.
  { induction Hold as [|e l He Hl IH]; [reflexivity |].
    rewrite filter_cons_False by lia. exact IH. }
  split; reflexivity.
Qed.

End Documented.

(** ** White space around an input *)

Section Trim.

Lemma trim_start_split (s : string) :
  exists ws, s = ws +:+ trim_start s /\ all_chars Char.is_space ws = true /\
             run_ends Char.is_space (trim_start s).
Proof.
  induction s as [|c s (ws & Hs & Hws & Hend)].
  - now exists "".
  - cbn [trim_start]. destruct (Char.is_space c) eqn:Hc.
    + exists (String c ws). rewrite append_cons, <- Hs. cbn [all_chars].
      now rewrite Hc, Hws.
    + exists "". repeat split. exact Hc.
Qed.

Lemma trim_end_split (s : string) :
  exists ws, s = trim_end s +:+ ws /\ all_chars Char.is_space ws = true.
Proof.
  induction s as [|c s (ws & Hs & Hws)]; [now exists "" |].
  cbn [trim_end]. destruct (trim_end s) as [|d r] eqn:Hr.
  - rewrite append_nil_l in Hs. subst ws. destruct (Char.is_space c) eqn:Hc.
    + exists (String c s). cbn [all_chars]. now rewrite Hc, Hws.
    + exists s. now rewrite append_cons.
  - exists ws. now rewrite append_cons, <- Hs.
Qed.

Lemma trim_end_empty (s : string) :
  trim_end s = "" <-> all_chars Char.is_space s = true.
Proof.
  induction s as [|c s IH]; [easy |]. cbn [trim_end all_chars].
  destruct (trim_end s) as [|d r].
  - destruct (Char.is_space c); cbn [andb]; [tauto |]. split; discriminate.
  - split; [discriminate |]. intros [_ H]%andb_true_iff. apply IH in H. discriminate.
Qed.

Lemma trim_end_head (c : ascii) (s : string) :
  Char.is_space c = false -> exists r, trim_end (String c s) = String c r.
Proof.
  intros Hc. cbn [trim_end]. destruct (trim_end s) as [|d r]; rewrite ?Hc; eauto.
Qed.

(** The last character of what [trim_end] leaves is no white space. *)
Lemma trim_end_last (s r : string) (c : ascii) :
  trim_end s = r +:+ String c "" -> Char.is_space c = false.
Proof.
  revert r; induction s as [|d s IH]; intros r; cbn [trim_end].
  - destruct r; discriminate.
  - destruct (trim_end s) as [|e t] eqn:Ht.
    + destruct (Char.is_space d) eqn:Hd; [destruct r; discriminate |].
      destruct r as [|x [|y r]]; try discriminate. now intros [= ->].
    + destruct r as [|x r]; [discriminate |]. rewrite append_cons.
      intros [= -> H]. now apply (IH r).
Qed.

Lemma trim_blank (s : string) : trim s = "" <-> all_chars Char.is_space s = true.
Proof.
  unfold trim. rewrite trim_end_empty.
  destruct (trim_start_split s) as (ws & Hs & Hws & Hend).
  rewrite Hs at 2. rewrite all_chars_app, Hws. cbn [andb]. reflexivity.
Qed.

Lemma trim_split (s : string) :
  exists before after,
    s = before +:+ trim s +:+ after /\
    all_chars Char.is_space before = true /\ all_chars Char.is_space after = true.
Proof.
  destruct (trim_start_split s) as (ws & Hs & Hws & _).
  destruct (trim_end_split (trim_start s)) as (ws' & Hs' & Hws').
  exists ws, ws'. unfold trim. now rewrite <- Hs', <- Hs.
Qed.

Lemma trim_ends (s : string) :
  run_ends Char.is_space (trim s) /\
  forall r c, trim s = r +:+ String c "" -> Char.is_space c = false.
Proof.
  split; [| intros r c; apply trim_end_last].
  unfold trim. destruct (trim_start_split s) as (_ & _ & _ & Hend).
  destruct (trim_start s) as [|c t]; [exact I |]. cbn [run_ends] in Hend.
  destruct (trim_end_head c t Hend) as [r ->]. exact Hend.
Qed.

End Trim.

(** ** Creating, reading and deleting entries *)

Section Identifiers.

Lemma findIndex_None (wanted : string) (l : list Entry) :
  findIndex wanted l = None <-> fresh_id wanted l.
Proof.
  unfold fresh_id. induction l as [|e l IH]; cbn [findIndex].
  - split; [constructor | reflexivity].
  - rewrite Forall_cons. destruct (String.eqb_spec (id e) wanted) as [He | He].
    + split; [discriminate | tauto].
    + destruct (findIndex wanted l); cbn [option_map].
      * split; [discriminate |]. intros [_ H]. apply IH in H. discriminate.
      * rewrite <- IH. tauto.
Qed.

Lemma findIndex_Some (wanted : string) (l : list Entry) :
  forall index,
    findIndex wanted l = Some index ->
    exists l1 e l2,
      l = l1 ++ e :: l2 /\ length l1 = index /\ id e = wanted /\ fresh_id wanted l1.
Proof.
  induction l as [|x l IH]; intros index; cbn [findIndex]; [discriminate |].
  destruct (String.eqb_spec (id x) wanted) as [Hx | Hx].
  - intros [= <-]. exists [], x, l. repeat split; [exact Hx | constructor].
  - destruct (findIndex wanted l) as [k|]; cbn [option_map]; [| discriminate].
    intros [= <-]. destruct (IH k eq_refl) as (l1 & e & l2 & -> & Hlen & He & Hfresh).
    exists (x :: l1), e, l2. cbn [length app]. repeat split; try congruence.
    now constructor.
Qed.

Lemma get_entry_app (l1 l2 : list Entry) (wanted : string) :
  get_entry (l1 ++ l2) wanted =
  match get_entry l1 wanted with
  | Some e => Some e
  | None => get_entry l2 wanted
  end.
Proof.
  unfold get_entry. induction l1 as [|x l1 IH]; [reflexivity |].
  cbn [app find]. now destruct (String.eqb (id x) wanted).
Qed.

Lemma get_entry_fresh (l : list Entry) (wanted : string) :
  get_entry l wanted = None <-> fresh_id wanted l.
Proof.
  unfold get_entry, fresh_id. induction l as [|x l IH]; cbn [find].
  - split; [constructor | reflexivity].
  - rewrite Forall_cons. destruct (String.eqb_spec (id x) wanted).
    + split; [discriminate | tauto].
    + rewrite IH. tauto.
Qed.

Lemma get_entry_id (l : list Entry) (wanted : string) (e : Entry) :
  get_entry l wanted = Some e -> id e = wanted /\ e ∈ l.
Proof.
  unfold get_entry. intros H. apply find_some in H as [Hin He].
  apply String.eqb_eq in He. split; [exact He | now apply list_elem_of_In].
Qed.

Lemma fresh_id_not_in (wanted : string) (l : list Entry) :
  fresh_id wanted l <-> wanted ∉ map id l.
Proof.
  unfold fresh_id. rewrite Forall_forall, list_elem_of_fmap. split.
  - intros H (e & -> & He). now apply (H e).
  - intros H e He Hid. apply H. now exists e.
Qed.

Lemma findIndex_at (l1 l2 : list Entry) (e : Entry) (wanted : string) :
  fresh_id wanted l1 -> id e = wanted ->
  findIndex wanted (l1 ++ e :: l2) = Some (length l1).
Proof.
  intros Hfresh He. induction Hfresh as [|x l1 Hx Hl1 IH]; cbn [app findIndex length].
  - apply String.eqb_eq in He. now rewrite He.
  - apply String.eqb_neq in Hx. now rewrite Hx, IH.
Qed.

Lemma splice_at (l1 l2 : list Entry) (e : Entry) :
  firstn (length l1) (l1 ++ e :: l2) ++ skipn (S (length l1)) (l1 ++ e :: l2) = l1 ++ l2.
Proof.
  f_equal.
  - rewrite firstn_app, Nat.sub_diag, firstn_all. cbn [firstn]. apply app_nil_r.
  - change (e :: l2) with ([e] ++ l2). rewrite app_assoc.
    replace (S (length l1)) with (length (l1 ++ [e])) by (rewrite length_app; cbn; lia).
    rewrite skipn_app, skipn_all, Nat.sub_diag. reflexivity.
Qed.

End Identifiers.

(** X1.  [POST /api/entries] answers 400 and leaves the store as it is when
    the input is nothing but white space.  Otherwise it appends one entry to
    the end of the store, with the identifier and the time given, the
    annotation of the input as it was sent, and for [raw_input] the input
    without the white space around it: a text that is not empty and neither
    starts nor ends with white space. *)
Theorem post_entry_validation (entries : list Entry) (uuid : string) (now : Z) (raw : string) :
  (all_chars Char.is_space raw = true /\
   post_entry entries uuid now raw = (entries, None)) \/
  (all_chars Char.is_space raw = false /\
   exists e,
     post_entry entries uuid now raw = (entries ++ [e], Some e) /\
     id e = uuid /\ timestamp e = now /\ processed e = processInput raw /\
     raw_input e = trim raw /\ raw_input e <> "" /\
     (exists before after,
         raw = before +:+ raw_input e +:+ after /\
         all_chars Char.is_space before = true /\ all_chars Char.is_space after = true) /\
     run_ends Char.is_space (raw_input e) /\
     (forall r c, raw_input e = r +:+ String c "" -> Char.is_space c = false)).
Proof.
  unfold post_entry. pose proof (trim_blank raw) as Hblank.
  destruct (trim raw) as [|c t] eqn:Ht.
  - left. split; [now apply Hblank | reflexivity].
  - right. split.
    { destruct (all_chars Char.is_space raw); [| reflexivity].
      discriminate (proj2 Hblank eq_refl). }
    cbn [String.length Nat.eqb]. eexists. split; [reflexivity |].
    cbn [id timestamp processed raw_input]. rewrite <- Ht.
    repeat split; try (rewrite Ht; discriminate).
    + apply trim_split.
    + apply trim_ends.
    + apply trim_ends.
Qed.

(** X2.  The page sends an input to the backend exactly when the backend
    accepts it: [handleSubmit] holds back what [POST /api/entries] would
    answer with 400, and nothing else. *)
Theorem client_guard_agrees (entries : list Entry) (uuid : string) (now : Z) (input : string) :
  client_sends input = true <-> snd (post_entry entries uuid now input) <> None.
Proof.
  unfold client_sends, post_entry. destruct (trim input) as [|c t]; cbn; split;
    congruence.
Qed.

(** X3.  [DELETE /api/entries/:id] answers 404 and leaves the store as it
    is when no entry has the identifier.  Otherwise it takes out the first
    entry that has it, the one [GET /api/entries/:id] returns, and keeps all
    the others in their order. *)
Theorem delete_entry_first (entries : list Entry) (wanted : string) :
  (fresh_id wanted entries /\ get_entry entries wanted = None /\
   delete_entry entries wanted = (entries, false)) \/
  (exists l1 e l2,
      entries = l1 ++ e :: l2 /\ id e = wanted /\ fresh_id wanted l1 /\
      get_entry entries wanted = Some e /\
      delete_entry entries wanted = (l1 ++ l2, true)).
Proof.
  unfold delete_entry. destruct (findIndex wanted entries) as [index|] eqn:Hi.
  - right. apply findIndex_Some in Hi as (l1 & e & l2 & -> & <- & He & Hfresh).
    exists l1, e, l2. repeat split; try assumption.
    + rewrite get_entry_app. apply get_entry_fresh in Hfresh. rewrite Hfresh.
      unfold get_entry. cbn [find]. apply String.eqb_eq in He. now rewrite He.
    + f_equal. apply splice_at.
  - left. apply findIndex_None in Hi. split; [exact Hi |].
    split; [now apply get_entry_fresh | reflexivity].
Qed.

(** X4.  After an entry is posted, [GET /api/entries/:id] with its
    identifier returns it, unless an older entry already had that
    identifier, which is then the one returned; under every other
    identifier the answer is what it was. *)
Theorem post_then_get
  (entries entries' : list Entry) (uuid : string) (now : Z) (raw : string) (e : Entry) :
  post_entry entries uuid now raw = (entries', Some e) ->
  get_entry entries' uuid =
    match get_entry entries uuid with
    | Some old => Some old
    | None => Some e
    end /\
  forall other, other <> uuid -> get_entry entries' other = get_entry entries other.
Proof.
  unfold post_entry. destruct (Nat.eqb _ 0); [discriminate |]. intros [= <- <-].
  split.
  - rewrite get_entry_app. destruct (get_entry entries uuid); [reflexivity |].
    unfold get_entry. cbn [find id]. now rewrite String.eqb_refl.
  - intros other Hne. rewrite get_entry_app. destruct (get_entry entries other); [reflexivity |].
    unfold get_entry. cbn [find id]. apply String.eqb_neq in Hne.
    rewrite String.eqb_sym. now rewrite Hne.
Qed.

Lemma post_then_get_witness :
  exists e, get_entry (sample_entries ++ [e]) "e4" = Some e /\ raw_input e = "Relay fault".
Proof.
  pose (e := stored "e4" sample_now "  Relay fault ").
  exists e. split; [| reflexivity].
  apply (proj1 (post_then_get sample_entries (sample_entries ++ [e]) "e4" sample_now
                  "  Relay fault " e eq_refl)).
Defined.

(** X5.  Posting an entry under an identifier that no entry has and then
    deleting that identifier gives back the store as it was. *)
Theorem post_then_delete
  (entries entries' : list Entry) (uuid : string) (now : Z) (raw : string) (e : Entry) :
  fresh_id uuid entries ->
  post_entry entries uuid now raw = (entries', Some e) ->
  delete_entry entries' uuid = (entries, true).
Proof.
  intros Hfresh. unfold post_entry. destruct (Nat.eqb _ 0); [discriminate |].
  intros [= <- <-]. unfold delete_entry.
  rewrite findIndex_at by (assumption || reflexivity).
  now rewrite splice_at, app_nil_r.
Qed.

Lemma post_then_delete_witness :
  delete_entry (sample_entries ++ [stored "e4" sample_now "Relay fault"]) "e4" =
  (sample_entries, true).
Proof.
  apply (post_then_delete sample_entries _ "e4" sample_now "Relay fault"
           (stored "e4" sample_now "Relay fault")); [| reflexivity].
  repeat constructor; discriminate.
Defined.

(** ** Listing entries *)

Section Listing.

Lemma insert_newest_perm (x : Entry) (l : list Entry) : insert_newest x l ≡ₚ x :: l.
Proof.
  induction l as [|y l IH]; cbn [insert_newest]; [reflexivity |].
  destruct (timestamp y <=? timestamp x); [reflexivity |].
  rewrite IH. apply perm_swap.
Qed.

Lemma sort_newest_perm (l : list Entry) : sort_newest l ≡ₚ l.
Proof.
  induction l as [|x l IH]; [reflexivity |].
  cbn [sort_newest fold_right]. fold (sort_newest l).
  now rewrite insert_newest_perm, IH.
Qed.

Lemma insert_newest_sorted (x : Entry) (l : list Entry) :
  newest_first l -> newest_first (insert_newest x l).
Proof.
  unfold newest_first. induction 1 as [|y l Hl IH Hy]; cbn [insert_newest].
  - repeat constructor.
  - destruct (Z.leb_spec (timestamp y) (timestamp x)) as [Hle | Hgt].
    + constructor; [now constructor |]. constructor; [exact Hle |].
      eapply Forall_impl; [exact Hy |]. cbn beta. intros; lia.
    + constructor; [exact IH |].
      rewrite insert_newest_perm. constructor; [lia | exact Hy].
Qed.

Lemma sort_newest_sorted (l : list Entry) : newest_first (sort_newest l).
Proof.
  induction l as [|x l IH]; [constructor |].
  cbn [sort_newest fold_right]. now apply insert_newest_sorted.
Qed.

Lemma made_at_insert (t : Z) (x : Entry) (l : list Entry) :
  made_at t (insert_newest x l) = made_at t (x :: l).
Proof.
  unfold made_at. induction l as [|y l IH]; cbn [insert_newest]; [reflexivity |].
  destruct (Z.leb_spec (timestamp y) (timestamp x)) as [Hle | Hgt]; [reflexivity |].
  cbn [List.filter] in *. rewrite IH.
  destruct (Z.eqb_spec (timestamp x) t), (Z.eqb_spec (timestamp y) t);
    try reflexivity. lia.
Qed.

Lemma made_at_sort (t : Z) (l : list Entry) : made_at t (sort_newest l) = made_at t l.
Proof.
  induction l as [|x l IH]; [reflexivity |].
  cbn [sort_newest fold_right]. fold (sort_newest l).
  rewrite made_at_insert. unfold made_at in *. cbn [List.filter]. now rewrite IH.
Qed.

Lemma insert_newest_head (x : Entry) (l : list Entry) :
  Forall (fun y : Entry => timestamp y <= timestamp x) l -> insert_newest x l = x :: l.
Proof.
  intros H. destruct H as [|y l Hy Hl]; [reflexivity |].
  cbn [insert_newest]. apply Z.leb_le in Hy. now rewrite Hy.
Qed.

(** Sorting a list that is sorted changes nothing. *)
Lemma sort_newest_fixed (l : list Entry) : newest_first l -> sort_newest l = l.
Proof.
  unfold newest_first. induction 1 as [|x l Hl IH Hx]; [reflexivity |].
  cbn [sort_newest fold_right]. fold (sort_newest l). rewrite IH.
  now apply insert_newest_head.
Qed.

Lemma filter_true {A} (l : list A) : List.filter (fun _ => true) l = l.
Proof. induction l as [|x l IH]; [reflexivity | cbn; now rewrite IH]. Qed.

Lemma filter_and {A} (f g : A -> bool) (l : list A) :
  List.filter g (List.filter f l) = List.filter (fun x => f x && g x) l.
Proof.
  induction l as [|x l IH]; [reflexivity |]. cbn [List.filter].
  destruct (f x); cbn [andb List.filter]; [| exact IH]. now rewrite IH.
Qed.

Lemma select_entries_value (entries : list Entry) (c s q : option string) :
  select_entries entries c s q =
  (List.filter (selects c s q) entries, negb (unfiltered c s q)).
Proof.
  unfold select_entries, selects, unfiltered.
  destruct (given c) as [c'|]; [destruct (String.eqb c' "all") |];
    destruct (given s) as [s'|]; destruct (given q) as [q'|];
    cbn [fst snd orb andb negb]; rewrite ?filter_and; f_equal;
    try (symmetry; apply filter_true);
    apply List.filter_ext; intros e; cbn [andb];
    rewrite ?andb_true_r, ?andb_assoc; reflexivity.
Qed.

Lemma unfiltered_selects_all (c s q : option string) (l : list Entry) :
  unfiltered c s q = true -> List.filter (selects c s q) l = l.
Proof.
  intros Hu. rewrite <- (filter_true l) at 2. apply List.filter_ext. intros e.
  unfold unfiltered, selects in *.
  destruct (given c) as [c'|]; destruct (given s); destruct (given q);
    cbn [andb] in *; try discriminate; rewrite ?andb_true_r, ?andb_false_r in *;
    try discriminate; rewrite ?Hu; reflexivity.
Qed.

Lemma get_entries_value (entries : list Entry) (c s q : option string) :
  get_entries entries c s q =
  (if unfiltered c s q then sort_newest entries else entries,
   sort_newest (List.filter (selects c s q) entries)).
Proof.
  unfold get_entries. rewrite select_entries_value.
  destruct (unfiltered c s q) eqn:Hu; cbn [negb]; [| reflexivity].
  now rewrite unfiltered_selects_all.
Qed.

End Listing.

(** X6.  The list [GET /api/entries] sends holds exactly the stored entries
    the query selects, each as often as the store holds it, with the newest
    first; entries made at the same time come in the order the store has
    them. *)
Theorem get_entries_response (entries : list Entry) (c s q : option string) :
  newest_first (snd (get_entries entries c s q)) /\
  snd (get_entries entries c s q) ≡ₚ List.filter (selects c s q) entries /\
  (forall e, e ∈ snd (get_entries entries c s q) <-> e ∈ entries /\ selects c s q e = true) /\
  (forall t, made_at t (snd (get_entries entries c s q)) =
             made_at t (List.filter (selects c s q) entries)).
Proof.
  rewrite get_entries_value. cbn [snd].
  split; [apply sort_newest_sorted |].
  split; [apply sort_newest_perm |].
  split; [| intros t; apply made_at_sort].
  intros e. rewrite sort_newest_perm, !list_elem_of_In. apply filter_In.
Qed.

(** X7.  [GET /api/entries] reorders the store itself, newest first, when
    the query filters nothing (no category or [all], no severity, no
    search): the array it sorts is then the store.  With any filter the
    store stays as it is.  Either way the store keeps the same entries, and
    the same call made again sends the same list and leaves the store
    alone. *)
Theorem get_entries_store (entries : list Entry) (c s q : option string) :
  fst (get_entries entries c s q) =
    (if unfiltered c s q then snd (get_entries entries c s q) else entries) /\
  fst (get_entries entries c s q) ≡ₚ entries /\
  get_entries (fst (get_entries entries c s q)) c s q =
    (fst (get_entries entries c s q), snd (get_entries entries c s q)).
Proof.
  rewrite (get_entries_value entries). cbn [fst snd].
  destruct (unfiltered c s q) eqn:Hu.
  - rewrite unfiltered_selects_all by exact Hu.
    split; [reflexivity |]. split; [apply sort_newest_perm |].
    rewrite get_entries_value, Hu, unfiltered_selects_all by exact Hu.
    now rewrite sort_newest_fixed by apply sort_newest_sorted.
  - split; [reflexivity |]. split; [reflexivity |].
    now rewrite get_entries_value, Hu.
Qed.

Example get_entries_reorders :
  map id (fst (get_entries sample_entries None None None)) = ["e3"; "e2"; "e1"] /\
  map id (fst (get_entries sample_entries (Some "issue") None None)) = ["e1"; "e2"; "e3"] /\
  map id (snd (get_entries sample_entries None (Some "low") (Some "VENDOR"))) = ["e3"].
Proof. repeat split; vm_compute; reflexivity. Qed.

(** ** The quantity *)

Section Quantity.

Lemma countPattern_reads : reads count_units countPattern.
Proof.
  split.
  - intros p caps. unfold countPattern. cbn [matches].
    intros (n & q & c1 & -> & (c0 & Hn & ->) &
            ws & q2 & c2 & -> & Hws & u & sfx & c3 & -> & (c4 & Hu & ->) & Hs).
    apply matches_digits1 in Hn as (Hne & Hn & ->).
    apply matches_spaces0 in Hws as (Hws & ->).
    apply (matches_Alts_Lit count_units) in Hu as [Hu ->]; [| discriminate].
    assert (caps = [(2%nat, u); (1%nat, n)]) as ->.
    { destruct Hs as [Hs | [_ ->]]; [| reflexivity]. now apply matches_Lit in Hs as [_ ->]. }
    exists n, ws, u, sfx. repeat split; assumption.
  - intros n ws u Hne Hn Hws Hu. unfold countPattern. cbn [matches].
    exists n, (ws +:+ u), [(1%nat, n)]. split; [reflexivity |]. split.
    { exists []. split; [| reflexivity]. apply matches_digits1. auto. }
    exists ws, u, [(1%nat, n)]. split; [reflexivity |]. split.
    { apply matches_spaces0. auto. }
    exists u, "", [(2%nat, u); (1%nat, n)]. split; [now rewrite append_nil_r |]. split.
    { exists [(1%nat, n)]. split; [| reflexivity].
      apply (matches_Alts_Lit count_units); [discriminate | auto]. }
    right. auto.
Qed.

Lemma count_units_apart : forallb head_apart count_units = true.
Proof. reflexivity. Qed.

Lemma count_units_prefix_free : prefix_free count_units = true.
Proof. reflexivity. Qed.

(** The number nearest to a positive integer: a positive finite number, or
    infinity from 2^1024 on. *)
Lemma of_Z_pos (p : positive) :
  (exists m e, Number.of_Z (Zpos p) = S754_finite false m e) \/
  Number.of_Z (Zpos p) = S754_infinity false.
Proof.
  destruct (Z_lt_le_dec 53 (Zpos (digits2_pos p))) as [Hd | Hd].
  - destruct (of_Z_large p Hd) as [(m & e & -> & _) | ->]; eauto.
  - left. rewrite of_Z_canonical.
    + cbn [canonical]. eauto.
    + pose proof (digits2_pos_bounds p) as Hb.
      assert (2 ^ Zpos (digits2_pos p) <= 2 ^ 53) by (apply Z.pow_le_mono_r; lia).
      cbn [Z.abs]. lia.
Qed.

Lemma of_Z_nonneg (z : Z) : 0 <= z -> Number.of_Z z <> Number.NaN.
Proof.
  intros Hz. destruct z as [|p|p]; [discriminate | | lia].
  destruct (of_Z_pos p) as [(m & e & ->) | ->]; discriminate.
Qed.

End Quantity.

(** X8.  When the quantity pattern occurs in the input, with [n] the digits
    of its leftmost occurrence, the quantity stored is the number nearest to
    the integer that [n] denotes, whichever of unit, piece and item follows
    and however it is cased: never NaN, and that integer itself below 2^53.
    When the pattern occurs nowhere, and only then, no quantity is
    stored. *)
Theorem processInput_quantity (rawInput : string) :
  (forall i n u,
      first_reading count_units rawInput i n u ->
      quantity (extracted_metrics (processInput rawInput)) =
        Some (Number.of_Z (decimal_value n)) /\
      Number.of_Z (decimal_value n) <> Number.NaN /\
      (decimal_value n < 2 ^ 53 ->
       Number.truncate (Number.of_Z (decimal_value n)) = Some (decimal_value n))) /\
  (quantity (extracted_metrics (processInput rawInput)) = None <->
   no_reading count_units rawInput).
Proof.
  cbn [processInput extracted_metrics quantity]. unfold extract_quantity. split.
  - intros i n u H.
    pose proof (decimal_value_nonneg n) as H0.
    assert (parseInt n = Number.of_Z (decimal_value n)) as Hp.
    { destruct H as [(pre & ws & rest & _ & _ & Hne & Hn & _) _].
      now apply parseInt_numeral. }
    destruct (first_reading_String_match count_units countPattern countPattern_reads
                count_units_apart count_units_prefix_free rawInput i n u H)
      as (m & -> & _ & Hn & _).
    rewrite Hn, Hp. split; [reflexivity |]. split.
    + now apply of_Z_nonneg.
    + intros Hlt. apply truncate_of_Z. lia.
  - rewrite <- (String_match_no_reading count_units countPattern countPattern_reads).
    destruct (String_match true countPattern rawInput); split; congruence.
Qed.

Lemma processInput_quantity_witness :
  quantity (extracted_metrics (processInput "QA found 012 Pieces, 3 items short")) =
  Some (Number.of_Z 12).
Proof.
  apply (proj1 (processInput_quantity "QA found 012 Pieces, 3 items short")
               9%nat "012" "Piece").
  exact (String_match_reading count_units countPattern countPattern_reads
           "QA found 012 Pieces, 3 items short"
           (MatchResult 9 "012 Pieces" [(2%nat, "Piece"); (1%nat, "012")] ", 3 items short")
           eq_refl).
Defined.

(** ** More on the trends *)

Section Window.

Lemma filter_length_le {A} (f : A -> bool) (l : list A) :
  (length (List.filter f l) <= length l)%nat.
Proof.
  induction l as [|x l IH]; [reflexivity |].
  cbn [List.filter]. destruct (f x); cbn [length]; lia.
Qed.

Lemma filter_length_mono {A} (f g : A -> bool) (l : list A) :
  (forall x, f x = true -> g x = true) ->
  (length (List.filter f l) <= length (List.filter g l))%nat.
Proof.
  intros Hfg. induction l as [|x l IH]; [reflexivity |].
  cbn [List.filter]. destruct (f x) eqn:Hf.
  - rewrite (Hfg x Hf). cbn [length]. lia.
  - destruct (g x); cbn [length]; lia.
Qed.

Lemma count_category_lookup (c : Category) (l : list Entry) :
  default 0%nat (count_by_category l !! Category_name c) =
  length (List.filter (fun e : Entry => bool_decide (category e = c)) l).
Proof.
  unfold count_by_category.
  rewrite (tally_fold_lookup (fun e : Entry => Category_name (category e))).
  rewrite lookup_empty. cbn [default Nat.add]. f_equal.
  induction l as [|e l IH]; [reflexivity |].
  cbn [List.filter]. case_bool_decide as Hc.
  - rewrite filter_cons_True by now rewrite Hc. now rewrite IH.
  - rewrite filter_cons_False; [exact IH |].
    intros H. apply Hc. destruct (category e), c; cbn in H; congruence.
Qed.

Lemma count_severity_lookup (s : Severity) (l : list Entry) :
  default 0%nat (count_by_severity l !! Severity_name s) =
  length (List.filter (fun e : Entry => bool_decide (severity e = s)) l).
Proof.
  unfold count_by_severity.
  rewrite (tally_fold_lookup (fun e : Entry => Severity_name (severity e))).
  rewrite lookup_empty. cbn [default Nat.add]. f_equal.
  induction l as [|e l IH]; [reflexivity |].
  cbn [List.filter]. case_bool_decide as Hc.
  - rewrite filter_cons_True by now rewrite Hc. now rewrite IH.
  - rewrite filter_cons_False; [exact IH |].
    intros H. apply Hc. destruct (severity e), s; cbn in H; congruence.
Qed.

Lemma filter_filter_length {A} (f g : A -> bool) (l : list A) :
  (length (List.filter f (List.filter g l)) <= length (List.filter f l))%nat.
Proof.
  induction l as [|x l IH]; [reflexivity |].
  cbn [List.filter]. destruct (g x); cbn [List.filter]; destruct (f x); cbn [length]; lia.
Qed.

(** The window of a decimal numeral, from zero days on. *)
Lemma trends_window (entries : list Entry) (now : Z) (days : string) (d : Z) :
  days <> "" -> all_chars Char.is_digit days = true -> decimal_value days = d ->
  d * Date.msPerDay <= Date.maxTime ->
  - Date.maxTime <= now - d * Date.msPerDay -> now <= Date.maxTime ->
  trends entries now (Some days) =
  let filtered := List.filter (fun e : Entry => now - d * Date.msPerDay <=? timestamp e)
                              entries in
  {| period_days := Number.of_Z d;
     total_entries := length filtered;
     avg_per_day := toFixed2 (Number.div (Number.of_Z (Z.of_nat (length filtered)))
                                         (Number.of_Z d));
     categories := count_by_category filtered;
     severities := count_by_severity filtered |}.
Proof.
  intros Hne Hdigits Hd Hmax Hlo Hhi.
  pose proof (decimal_value_nonneg days) as Hd0. rewrite Hd in Hd0.
  unfold trends. rewrite parseInt_numeral, Hd by assumption.
  rewrite days_ms_exact by assumption.
  unfold Date.maxTime, Date.msPerDay in *.
  rewrite sub_of_Z by (change (2 ^ 53) with 9007199254740992; lia).
  rewrite make_valid by (unfold Date.maxTime; lia).
  reflexivity.
Qed.

End Window.

(** X9.  In the answer of [GET /api/trends] the category counts and the
    severity counts each add up to [total_entries], which is at most the
    number of stored entries, and no category or severity is counted more
    often than the store holds it, whatever [days] is. *)
Theorem trends_tallies (entries : list Entry) (now : Z) (query_days : option string) :
  sum_counts (categories (trends entries now query_days)) =
    total_entries (trends entries now query_days) /\
  sum_counts (severities (trends entries now query_days)) =
    total_entries (trends entries now query_days) /\
  (total_entries (trends entries now query_days) <= length entries)%nat /\
  (forall c : Category,
      (default 0%nat (categories (trends entries now query_days) !! Category_name c) <=
       length (List.filter (fun e : Entry => bool_decide (category e = c)) entries))%nat) /\
  (forall s : Severity,
      (default 0%nat (severities (trends entries now query_days) !! Severity_name s) <=
       length (List.filter (fun e : Entry => bool_decide (severity e = s)) entries))%nat).
Proof.
  unfold trends. cbn [categories severities total_entries].
  rewrite sum_count_by_category, sum_count_by_severity.
  split; [reflexivity |]. split; [reflexivity |].
  split; [apply filter_length_le |]. split.
  - intros c. rewrite count_category_lookup. apply filter_filter_length.
  - intros s. rewrite count_severity_lookup. apply filter_filter_length.
Qed.

(** X10.  With [days] a numeral of value zero the window starts at the
    clock: only entries made at [now] or later are selected, the period is
    zero, and the average is a division by zero, printed as [Infinity] when
    an entry is selected and as [NaN] when none is. *)
Theorem trends_zero_days (entries : list Entry) (now : Z) (days : string) :
  days <> "" -> all_chars Char.is_digit days = true -> decimal_value days = 0 ->
  - Date.maxTime <= now <= Date.maxTime ->
  period_days (trends entries now (Some days)) = S754_zero false /\
  total_entries (trends entries now (Some days)) =
    length (List.filter (fun e : Entry => now <=? timestamp e) entries) /\
  avg_per_day (trends entries now (Some days)) =
    Some (if Nat.eqb (total_entries (trends entries now (Some days))) 0
          then "NaN" else "Infinity").
Proof.
  intros Hne Hdigits Hd [Hlo Hhi].
  rewrite (trends_window entries now days 0) by
    (try assumption; unfold Date.maxTime, Date.msPerDay in *; lia).
  cbn [period_days total_entries avg_per_day]. cbn zeta.
  replace (now - 0 * Date.msPerDay) with now by lia.
  split; [reflexivity |]. split; [reflexivity |].
  destruct (length _) as [|n]; [reflexivity |].
  cbn [Nat.eqb]. change (Z.of_nat (S n)) with (Zpos (Pos.of_succ_nat n)).
  destruct (of_Z_pos (Pos.of_succ_nat n)) as [(m & e & ->) | ->]; reflexivity.
Qed.

Lemma trends_zero_days_witness :
  total_entries (trends sample_entries sample_now (Some "00")) = 1%nat /\
  avg_per_day (trends sample_entries sample_now (Some "00")) = Some "Infinity" /\
  avg_per_day (trends sample_entries (sample_now + 1) (Some "0")) = Some "NaN".
Proof.
  assert (- Date.maxTime <= sample_now <= Date.maxTime) as H1 by
    (unfold sample_now, Date.maxTime; lia).
  assert (- Date.maxTime <= sample_now + 1 <= Date.maxTime) as H2 by
    (unfold sample_now, Date.maxTime; lia).
  destruct (trends_zero_days sample_entries sample_now "00"
              ltac:(discriminate) eq_refl eq_refl H1) as (_ & Ht & Ha).
  destruct (trends_zero_days sample_entries (sample_now + 1) "0"
              ltac:(discriminate) eq_refl eq_refl H2) as (_ & _ & Ha').
  split; [rewrite Ht; vm_compute; reflexivity |].
  split; [rewrite Ha, Ht | rewrite Ha']; vm_compute; reflexivity.
Defined.

(** X11.  A longer period never selects fewer entries, as long as its
    window starts at a valid date: for two numerals [d1 <= d2] read at the
    same clock [now], with [d2] days at most 8.64e15 ms and [now] less [d2]
    days not before the first date there is, [total_entries] and every
    category and severity count for [d1] are at most those for [d2].
    Beyond that the start of the window is no date and nothing is
    selected, as [trends_beyond_the_dates] shows. *)
Theorem trends_monotone (entries : list Entry) (now : Z) (days1 days2 : string) (d1 d2 : Z) :
  days1 <> "" -> all_chars Char.is_digit days1 = true -> decimal_value days1 = d1 ->
  days2 <> "" -> all_chars Char.is_digit days2 = true -> decimal_value days2 = d2 ->
  d1 <= d2 -> window_start_valid now d2 ->
  (total_entries (trends entries now (Some days1)) <=
   total_entries (trends entries now (Some days2)))%nat /\
  (forall c : Category,
      (default 0%nat (categories (trends entries now (Some days1)) !! Category_name c) <=
       default 0%nat (categories (trends entries now (Some days2)) !! Category_name c))%nat) /\
  (forall s : Severity,
      (default 0%nat (severities (trends entries now (Some days1)) !! Severity_name s) <=
       default 0%nat (severities (trends entries now (Some days2)) !! Severity_name s))%nat).
Proof.
  intros Hne1 Hdig1 Hd1 Hne2 Hdig2 Hd2 Hle (Hmax & Hlo & Hhi).
  pose proof (decimal_value_nonneg days1) as H0. rewrite Hd1 in H0.
  rewrite (trends_window entries now days1 d1), (trends_window entries now days2 d2) by
    (try assumption; unfold Date.maxTime, Date.msPerDay in *; lia).
  cbn [total_entries categories severities]. cbn zeta.
  assert (forall e : Entry,
             (now - d1 * Date.msPerDay <=? timestamp e) = true ->
             (now - d2 * Date.msPerDay <=? timestamp e) = true) as Hwin.
  { intros e He. apply Z.leb_le in He. apply Z.leb_le.
    unfold Date.msPerDay in *. lia. }
  split; [now apply filter_length_mono |]. split.
  - intros c. rewrite !count_category_lookup, !filter_and.
    apply filter_length_mono. intros e [He ->]%andb_true_iff. now rewrite Hwin.
  - intros s. rewrite !count_severity_lookup, !filter_and.
    apply filter_length_mono. intros e [He ->]%andb_true_iff. now rewrite Hwin.
Qed.

Lemma trends_monotone_witness :
  (total_entries (trends sample_entries sample_now (Some "0")) <=
   total_entries (trends sample_entries sample_now (Some "45")))%nat.
Proof.
  assert (window_start_valid sample_now 45) as Hw.
  { unfold window_start_valid, sample_now, Date.maxTime, Date.msPerDay. lia. }
  exact (proj1 (trends_monotone sample_entries sample_now "0" "45" 0 45
                  ltac:(discriminate) eq_refl eq_refl
                  ltac:(discriminate) eq_refl eq_refl ltac:(lia) Hw)).
Defined.

(** A period of 200000000 days reaches back before the first date there
    is: the start of the window is no date, every comparison with it is
    false, and no entry is selected, though one day selects one. *)
Example trends_beyond_the_dates :
  ~ window_start_valid sample_now 200000000 /\
  total_entries (trends sample_entries sample_now (Some "1")) = 1%nat /\
  total_entries (trends sample_entries sample_now (Some "200000000")) = 0%nat /\
  avg_per_day (trends sample_entries sample_now (Some "200000000")) = Some "0.00".
Proof.
  split; [| repeat split; vm_compute; reflexivity].
  unfold window_start_valid, sample_now, Date.maxTime, Date.msPerDay. lia.
Qed.

(** ** The entity ranking *)

Section TopEntities.

Lemma entity_counts_fold (entries : list Entry) :
  entity_counts entries =
  fold_left (fun c x => ordered_tally x c) (entity_mentions entries) [].
Proof.
  unfold entity_counts, entity_mentions. generalize (@nil (string * nat)) as acc.
  induction entries as [|e l IH]; intros acc; [reflexivity |].
  cbn [fold_left flat_map]. rewrite fold_left_app. apply IH.
Qed.

Lemma ordered_tally_cases (x : string) (obj : list (string * nat)) :
  ((x ∉ obj.*1) /\ ordered_tally x obj = obj ++ [(x, 1%nat)]) \/
  (exists o1 v o2, obj = o1 ++ (x, v) :: o2 /\
                   ordered_tally x obj = o1 ++ (x, (v + 1)%nat) :: o2).
Proof.
  induction obj as [|[k v] obj IH]; cbn [ordered_tally].
  - left. split; [apply not_elem_of_nil | reflexivity].
  - destruct (String.eqb_spec k x) as [-> | Hne].
    + right. now exists [], v, obj.
    + destruct IH as [[Hx ->] | (o1 & v0 & o2 & -> & ->)].
      * left. split; [| reflexivity]. rewrite fmap_cons, not_elem_of_cons.
        split; [cbn; congruence | exact Hx].
      * right. now exists ((k, v) :: o1), v0, o2.
Qed.

Lemma times_snoc (k x : string) (l : list string) :
  times k (l ++ [x]) = (times k l + (if decide (x = k) then 1 else 0))%nat.
Proof.
  unfold times. rewrite filter_app, length_app. f_equal.
  destruct (decide (x = k)) as [Hx | Hx].
  - now rewrite filter_cons_True.
  - now rewrite filter_cons_False.
Qed.

Lemma times_absent (k : string) (l : list string) : k ∉ l -> times k l = 0%nat.
Proof.
  unfold times. induction l as [|x l IH]; [reflexivity |].
  rewrite not_elem_of_cons. intros [Hne Hl].
  rewrite filter_cons_False by congruence. now apply IH.
Qed.

Lemma times_present (k : string) (l : list string) : k ∈ l -> (0 < times k l)%nat.
Proof.
  unfold times. induction l as [|x l IH]; [now intros ?%elem_of_nil |].
  destruct (decide (x = k)) as [Hx | Hx].
  - intros _. rewrite filter_cons_True by exact Hx. cbn [length]. lia.
  - rewrite elem_of_cons. intros [-> | Hl]; [contradiction |].
    rewrite filter_cons_False by exact Hx. now apply IH.
Qed.

Lemma tallied_step (obj : list (string * nat)) (l : list string) (x : string) :
  tallied obj l -> tallied (ordered_tally x obj) (l ++ [x]).
Proof.
  intros [Hnd Hobj].
  destruct (ordered_tally_cases x obj) as [[Hx ->] | (o1 & v0 & o2 & -> & ->)].
  - assert (x ∉ l) as Hxl.
    { intros Hin. apply Hx. apply list_elem_of_fmap. exists (x, times x l).
      split; [reflexivity |]. now apply Hobj. }
    split.
    + rewrite fmap_app. apply NoDup_app. split; [exact Hnd |]. split.
      * intros k Hk [Hkx | Hnil]%elem_of_cons; [| now apply elem_of_nil in Hnil].
        cbn [fst] in Hkx. now subst k.
      * apply NoDup_singleton.
    + intros k v. rewrite !elem_of_app, !list_elem_of_singleton, Hobj, times_snoc.
      destruct (decide (x = k)) as [<- | Hne].
      * rewrite (times_absent x l Hxl). split.
        -- intros [[Hin _] | Heq]; [contradiction |]. inversion Heq. auto.
        -- intros [_ ->]. now right.
      * split.
        -- intros [[Hin ->] | Heq]; [| inversion Heq; congruence].
           split; [now left | lia].
        -- intros [[Hin | ->] ->]; [| contradiction]. left. split; [exact Hin | lia].
  - split.
    + rewrite fmap_app, fmap_cons in *. exact Hnd.
    + rewrite fmap_app, fmap_cons in Hnd. cbn [fst] in Hnd.
      apply NoDup_app in Hnd as (Hn1 & Hcross & Hn2).
      apply NoDup_cons in Hn2 as [Hx2 Hn2].
      assert (x ∉ o1.*1) as Hx1.
      { intros Hin. apply (Hcross x Hin). now left. }
      assert (x ∈ l /\ v0 = times x l) as [Hxl ->].
      { apply Hobj. rewrite elem_of_app, elem_of_cons. auto. }
      intros k v. rewrite times_snoc.
      rewrite elem_of_app, elem_of_cons.
      pose proof (Hobj k v) as Hkv. rewrite elem_of_app, elem_of_cons in Hkv.
      rewrite elem_of_app, list_elem_of_singleton.
      destruct (decide (x = k)) as [<- | Hne].
      * split.
        -- intros [Hin | [Heq | Hin]].
           ++ exfalso. apply Hx1. apply list_elem_of_fmap. now exists (x, v).
           ++ inversion Heq. auto.
           ++ exfalso. apply Hx2. apply list_elem_of_fmap. now exists (x, v).
        -- intros [_ ->]. auto.
      * split.
        -- intros [Hin | [Heq | Hin]]; [| inversion Heq; congruence |].
           ++ destruct (proj1 Hkv (or_introl Hin)) as [Hk ->]. split; [auto | lia].
           ++ destruct (proj1 Hkv (or_intror (or_intror Hin))) as [Hk ->].
              split; [auto | lia].
        -- intros [[Hk | ->] ->]; [| contradiction].
           rewrite Nat.add_0_r in *.
           destruct (proj2 Hkv (conj Hk eq_refl)) as [Hin | [Heq | Hin]];
             [now left | inversion Heq; congruence | now right; right].
Qed.

Lemma entity_counts_tallied (entries : list Entry) :
  tallied (entity_counts entries) (entity_mentions entries).
Proof.
  rewrite entity_counts_fold. generalize (entity_mentions entries) as l.
  induction l as [|x l IH] using rev_ind.
  - split; [constructor |]. intros k v. cbn [fold_left].
    split; [now intros ?%elem_of_nil | now intros [?%elem_of_nil _]].
  - rewrite fold_left_app. cbn [fold_left]. now apply tallied_step.
Qed.

Lemma insert_desc_perm (x : string * nat) (l : list (string * nat)) :
  insert_desc x l ≡ₚ x :: l.
Proof.
  induction l as [|y l IH]; cbn [insert_desc]; [reflexivity |].
  destruct (snd y <=? snd x)%nat; [reflexivity |].
  rewrite IH. apply perm_swap.
Qed.

Lemma sort_desc_perm (l : list (string * nat)) : sort_desc l ≡ₚ l.
Proof.
  induction l as [|x l IH]; [reflexivity |].
  cbn [sort_desc fold_right]. fold (sort_desc l).
  now rewrite insert_desc_perm, IH.
Qed.

Lemma insert_desc_sorted (x : string * nat) (l : list (string * nat)) :
  descending l -> descending (insert_desc x l).
Proof.
  unfold descending. induction 1 as [|y l Hl IH Hy]; cbn [insert_desc].
  - repeat constructor.
  - destruct (Nat.leb_spec (snd y) (snd x)) as [Hle | Hgt].
    + constructor; [now constructor |]. constructor; [exact Hle |].
      eapply Forall_impl; [exact Hy |]. cbn beta. intros; lia.
    + constructor; [exact IH |].
      rewrite insert_desc_perm. constructor; [lia | exact Hy].
Qed.

Lemma sort_desc_sorted (l : list (string * nat)) : descending (sort_desc l).
Proof.
  induction l as [|x l IH]; [constructor |].
  cbn [sort_desc fold_right]. now apply insert_desc_sorted.
Qed.

Lemma sorted_app {A} (R : A -> A -> Prop) (l1 l2 : list A) :
  StronglySorted R (l1 ++ l2) ->
  StronglySorted R l1 /\ forall x y, x ∈ l1 -> y ∈ l2 -> R x y.
Proof.
  induction l1 as [|a l1 IH]; cbn [app]; intros Hs.
  - split; [constructor |]. now intros x y ?%elem_of_nil.
  - apply StronglySorted_inv in Hs as [Hs Ha]. destruct (IH Hs) as [Hs1 Hcross].
    rewrite Forall_app in Ha. destruct Ha as [Ha1 Ha2]. split.
    + now constructor.
    + intros x y [-> | Hx]%elem_of_cons Hy; [| now apply Hcross].
      rewrite Forall_forall in Ha2. now apply Ha2.
Qed.

Lemma ordered_set_fresh (k : string) (v : nat) (obj : list (string * nat)) :
  k ∉ obj.*1 -> ordered_set k v obj = obj ++ [(k, v)].
Proof.
  induction obj as [|[k' v'] obj IH]; [reflexivity |].
  rewrite fmap_cons, not_elem_of_cons. cbn [fst]. intros [Hne Hk].
  cbn [ordered_set]. destruct (String.eqb_spec k' k) as [-> | _]; [contradiction |].
  now rewrite IH.
Qed.

(** Rebuilding an object from entries whose keys are all different gives
    the entries back, in their order. *)
Lemma reduce_distinct (l acc : list (string * nat)) :
  NoDup (acc ++ l).*1 ->
  fold_left (fun obj kv => ordered_set (fst kv) (snd kv) obj) l acc = acc ++ l.
Proof.
  revert acc. induction l as [|[k v] l IH]; intros acc Hnd.
  - now rewrite app_nil_r.
  - cbn [fold_left fst snd]. rewrite ordered_set_fresh.
    + rewrite IH; rewrite <- app_assoc; [reflexivity | exact Hnd].
    + rewrite fmap_app, fmap_cons in Hnd. apply NoDup_app in Hnd as (_ & Hcross & _).
      intros Hin. apply (Hcross k Hin). now left.
Qed.

Lemma top_entities_value (entries : list Entry) :
  top_entities_of entries = take 10 (sort_desc (entity_counts entries)).
Proof.
  unfold top_entities_of. rewrite reduce_distinct; [reflexivity |].
  cbn [app]. rewrite fmap_take. eapply sublist_NoDup; [| apply sublist_take].
  rewrite sort_desc_perm. apply entity_counts_tallied.
Qed.

End TopEntities.

(** X12.  The top entities of [GET /api/analytics] are at most ten, under
    keys that are all different, with counts that never go up along the
    object, whose keys stay in the order in which they were set since no
    entity is the numeral of an array index.  The count of an entity is the
    number of times it is among the entities of the stored entries, and an
    entity that is left out is there no more often than any of the ten that
    are in. *)
Theorem top_entities_ranking (entries : list Entry) :
  (length (top_entities_of entries) <= 10)%nat /\
  NoDup (top_entities_of entries).*1 /\
  descending (top_entities_of entries) /\
  (forall k v,
      (k, v) ∈ top_entities_of entries ->
      k ∈ entity_mentions entries /\ v = times k (entity_mentions entries)) /\
  (forall k,
      k ∈ entity_mentions entries -> k ∉ (top_entities_of entries).*1 ->
      length (top_entities_of entries) = 10%nat /\
      forall k' v', (k', v') ∈ top_entities_of entries ->
                    (times k (entity_mentions entries) <= v')%nat).
Proof.
  rewrite top_entities_value.
  pose proof (entity_counts_tallied entries) as [Hnd Hobj].
  pose proof (sort_desc_perm (entity_counts entries)) as Hperm.
  pose proof (sort_desc_sorted (entity_counts entries)) as Hsorted.
  set (sorted := sort_desc (entity_counts entries)) in *.
  split; [rewrite length_take; lia |].
  split.
  { rewrite fmap_take. eapply sublist_NoDup; [| apply sublist_take]. now rewrite Hperm. }
  split.
  { unfold descending in *. rewrite <- (take_drop 10 sorted) in Hsorted.
    now apply sorted_app in Hsorted. }
  split.
  { intros k v Hin. apply Hobj. rewrite <- Hperm.
    rewrite <- (take_drop 10 sorted). apply elem_of_app. now left. }
  intros k Hk Hout.
  assert ((k, times k (entity_mentions entries)) ∈ drop 10 sorted) as Hdrop.
  { assert ((k, times k (entity_mentions entries)) ∈ sorted) as Hin.
    { rewrite Hperm. now apply Hobj. }
    rewrite <- (take_drop 10 sorted) in Hin. apply elem_of_app in Hin as [Hin | Hin].
    - exfalso. apply Hout. apply list_elem_of_fmap.
      exists (k, times k (entity_mentions entries)). now split.
    - exact Hin. }
  split.
  - rewrite length_take. apply Nat.min_l.
    destruct (Nat.le_gt_cases 10 (length sorted)) as [| Hshort]; [assumption |].
    rewrite drop_ge in Hdrop by lia. now apply elem_of_nil in Hdrop.
  - intros k' v' Hin. unfold descending in Hsorted.
    rewrite <- (take_drop 10 sorted) in Hsorted.
    apply sorted_app in Hsorted as [_ Hcross].
    exact (Hcross _ _ Hin Hdrop).
Qed.

(** Eleven entities of one mention each: the last one mentioned is left
    out, and listing the entries, which turns the store around, changes
    which one that is. *)
Example top_entities_tie :
  let entries :=
    [ stored "a" 1 "motor pcb board circuit sensor controller";
      stored "b" 2 "relay switch battery capacitor";
      stored "c" 3 "node x" ] in
  (top_entities_of entries).*1 =
    ["motor"; "pcb"; "board"; "circuit"; "sensor"; "controller";
     "relay"; "switch"; "battery"; "capacitor"] /\
  (top_entities_of (fst (get_entries entries None None None))).*1 =
    ["node x"; "relay"; "switch"; "battery"; "capacitor";
     "motor"; "pcb"; "board"; "circuit"; "sensor"].
Proof. split; vm_compute; reflexivity. Qed.

(** ** Analytics and the store *)

Section AnalyticsStore.

Lemma week_counts (D : Z) (entries : list Entry) :
  list_sum (map (fun i : nat =>
                   length (filter (fun e : Entry =>
                                     Date.Day (timestamp e) = D - 7 + Z.of_nat i) entries))
                (seq 0 7)) =
  length (filter (fun e : Entry => D - 7 <= Date.Day (timestamp e) < D) entries).
Proof.
  induction entries as [|e l IH]; [reflexivity |].
  cbn [seq map list_sum fold_right] in *.
  rewrite !filter_cons.
  repeat match goal with
         | |- context [decide ?P] => destruct (decide P)
         end; cbn [length]; lia.
Qed.

Lemma tally_comm (a b : string) (obj : gmap string nat) :
  tally a (tally b obj) = tally b (tally a obj).
Proof.
  unfold tally. destruct (decide (a = b)) as [-> | Hne]; [reflexivity |].
  rewrite !lookup_insert_ne by congruence. now apply insert_insert_ne.
Qed.

Lemma tally_fold_perm {A} (key : A -> string) (l l' : list A) :
  l ≡ₚ l' ->
  forall obj : gmap string nat,
    fold_left (fun o x => tally (key x) o) l obj =
    fold_left (fun o x => tally (key x) o) l' obj.
Proof.
  induction 1 as [| x l l' _ IH | x y l | l l' l'' _ IH1 _ IH2]; intros obj;
    cbn [fold_left].
  - reflexivity.
  - apply IH.
  - now rewrite tally_comm.
  - now rewrite IH1.
Qed.

Lemma bucket_perm (entries entries' : list Entry) (now : Z) (i : nat) :
  entries ≡ₚ entries' -> bucket entries now i = bucket entries' now i.
Proof. intros Hp. unfold bucket. now rewrite Hp. Qed.

Lemma bucket_snoc (entries : list Entry) (e : Entry) (now : Z) (i : nat) :
  bucket (entries ++ [e]) now i =
  {| date := date (bucket entries now i);
     count := count (bucket entries now i) +
              (if decide (date_portion e = date (bucket entries now i)) then 1 else 0) |}.
Proof.
  unfold bucket. cbn [date count]. f_equal.
  rewrite filter_app, length_app. f_equal. rewrite filter_cons, filter_nil.
  now destruct (decide _).
Qed.

Lemma tally_fold_snoc_lookup {A} (key : A -> string) (l : list A) (x : A) (k : string) :
  default 0%nat (fold_left (fun o y => tally (key y) o) (l ++ [x]) ∅ !! k) =
  (default 0%nat (fold_left (fun o y => tally (key y) o) l ∅ !! k) +
   (if decide (key x = k) then 1 else 0))%nat.
Proof.
  rewrite !tally_fold_lookup, lookup_empty, filter_app, length_app.
  rewrite filter_cons, filter_nil. cbn [default]. now destruct (decide _).
Qed.

End AnalyticsStore.

(** X13.  No entry is counted twice in the recent trend: with timestamps
    that are valid dates, the seven counts add up to the number of entries
    made on one of the seven days before the day of [now], which is at most
    the total. *)
Theorem analytics_trend_total (entries : list Entry) (now : Z) :
  week_before_valid now ->
  Forall (fun e : Entry => - Date.maxTime <= timestamp e <= Date.maxTime) entries ->
  exists a,
    analytics entries now = Some a /\
    list_sum (map count (recent_trend a)) =
      length (filter (fun e : Entry =>
                        Date.Day now - 7 <= Date.Day (timestamp e) < Date.Day now) entries) /\
    (list_sum (map count (recent_trend a)) <= total a)%nat.
Proof.
  intros Hnow Hvalid. eexists. split; [now apply analytics_value |].
  cbn [recent_trend total].
  assert (map count (map (bucket entries now) (seq 0 7)) =
          map (fun i : nat =>
                 length (filter (fun e : Entry =>
                                   Date.Day (timestamp e) = Date.Day now - 7 + Z.of_nat i)
                                entries))
              (seq 0 7)) as ->.
  { rewrite map_map. apply map_ext_in. intros i [_ Hi]%in_seq.
    now apply bucket_count_by_day. }
  rewrite week_counts. split; [reflexivity | apply length_filter].
Qed.

Lemma analytics_trend_total_witness :
  exists a,
    analytics sample_entries sample_now = Some a /\
    list_sum (map count (recent_trend a)) = 1%nat.
Proof.
  assert (Forall (fun e : Entry => - Date.maxTime <= timestamp e <= Date.maxTime)
                 sample_entries) as Hvalid.
  { repeat constructor; vm_compute; discriminate. }
  destruct (analytics_trend_total sample_entries sample_now sample_now_ok Hvalid)
    as (a & Ha & Hsum & _).
  exists a. split; [exact Ha |]. rewrite Hsum. vm_compute. reflexivity.
Defined.

(** X14.  Posting an entry raises the total of the analytics by one, and
    with it the count of the category and the count of the severity of the
    input, and no other; the recent trend keeps its dates, and the count
    of a date goes up by one exactly when it is the date portion of the
    new entry's timestamp. *)
Theorem analytics_after_post
  (entries entries' : list Entry) (uuid : string) (t : Z) (raw : string) (e : Entry)
  (now : Z) :
  week_before_valid now ->
  post_entry entries uuid t raw = (entries', Some e) ->
  exists a a',
    analytics entries now = Some a /\ analytics entries' now = Some a' /\
    total a' = S (total a) /\
    (forall c : Category,
        default 0%nat (by_category a' !! Category_name c) =
        (default 0%nat (by_category a !! Category_name c) +
         (if decide (category (processInput raw) = c) then 1 else 0))%nat) /\
    (forall s : Severity,
        default 0%nat (by_severity a' !! Severity_name s) =
        (default 0%nat (by_severity a !! Severity_name s) +
         (if decide (severity (processInput raw) = s) then 1 else 0))%nat) /\
    map date (recent_trend a') = map date (recent_trend a) /\
    map count (recent_trend a') =
      map (fun pt : TrendPoint =>
             (count pt + (if decide (date_portion e = date pt) then 1 else 0))%nat)
          (recent_trend a).
Proof.
  intros Hnow. unfold post_entry. destruct (Nat.eqb _ 0); [discriminate |].
  intros [= <- <-]. do 2 eexists.
  split; [now apply analytics_value |]. split; [now apply analytics_value |].
  cbn [total by_category by_severity recent_trend].
  split; [rewrite length_app; cbn [length]; lia |]. split; [| split; [| split]].
  - intros c. unfold count_by_category.
    rewrite (tally_fold_snoc_lookup (fun e : Entry => Category_name (category e))).
    cbn [category processed]. f_equal.
    destruct (decide (category (processInput raw) = c)) as [-> | Hne].
    + now rewrite decide_True.
    + rewrite decide_False; [reflexivity |].
      intros H. apply Hne. destruct (category (processInput raw)), c; cbn in H; congruence.
  - intros s. unfold count_by_severity.
    rewrite (tally_fold_snoc_lookup (fun e : Entry => Severity_name (severity e))).
    cbn [severity processed]. f_equal.
    destruct (decide (severity (processInput raw) = s)) as [-> | Hne].
    + now rewrite decide_True.
    + rewrite decide_False; [reflexivity |].
      intros H. apply Hne. destruct (severity (processInput raw)), s; cbn in H; congruence.
  - rewrite !map_map. apply map_ext. intros i. now rewrite bucket_snoc.
  - rewrite !map_map. apply map_ext. intros i. now rewrite bucket_snoc.
Qed.

Lemma analytics_after_post_witness :
  exists a a',
    analytics sample_entries sample_now = Some a /\
    analytics (sample_entries ++ [stored "e4" (sample_now - Date.msPerDay) "Relay failure"])
              sample_now = Some a' /\
    total a' = S (total a) /\
    default 0%nat (by_category a' !! "issue") =
      (default 0%nat (by_category a !! "issue") + 1)%nat.
Proof.
  destruct (analytics_after_post sample_entries _ "e4" (sample_now - Date.msPerDay)
              "Relay failure" _ sample_now sample_now_ok eq_refl)
    as (a & a' & Ha & Ha' & Htotal & Hcat & _).
  exists a, a'. split; [exact Ha |]. split; [exact Ha' |]. split; [exact Htotal |].
  exact (Hcat issue).
Defined.

(** X15.  Listing the entries, which may reorder the store, changes
    nothing in the total, the category and severity counts and the recent
    trend that the analytics report; the same holds for any reordering of
    the store. *)
Theorem analytics_after_listing (entries : list Entry) (now : Z) :
  week_before_valid now ->
  exists a,
    analytics entries now = Some a /\
    forall entries',
      (entries' ≡ₚ entries \/ exists c s q, entries' = fst (get_entries entries c s q)) ->
      exists a',
        analytics entries' now = Some a' /\
        total a' = total a /\ by_category a' = by_category a /\
        by_severity a' = by_severity a /\ recent_trend a' = recent_trend a.
Proof.
  intros Hnow. eexists. split; [now apply analytics_value |].
  intros entries' Hstore.
  assert (entries' ≡ₚ entries) as Hperm.
  { destruct Hstore as [Hp | (c & s & q & ->)]; [exact Hp |].
    rewrite get_entries_value. cbn [fst].
    destruct (unfiltered c s q); [apply sort_newest_perm | reflexivity]. }
  eexists. split; [now apply analytics_value |].
  cbn [total by_category by_severity recent_trend].
  split; [now rewrite Hperm |]. split; [| split].
  - unfold count_by_category. now apply tally_fold_perm.
  - unfold count_by_severity. now apply tally_fold_perm.
  - apply map_ext. intros i. now apply bucket_perm.
Qed.

Lemma analytics_after_listing_witness :
  exists a',
    analytics (fst (get_entries sample_entries None None None)) sample_now = Some a' /\
    total a' = 3%nat /\ map count (recent_trend a') = [0; 0; 0; 0; 0; 1; 0]%nat.
Proof.
  destruct (analytics_after_listing sample_entries sample_now sample_now_ok)
    as (a & Ha & Hall).
  destruct (Hall (fst (get_entries sample_entries None None None)))
    as (a' & Ha' & Htotal & _ & _ & Htrend).
  { right. now exists None, None, None. }
  exists a'. split; [exact Ha' |].
  rewrite (analytics_value _ _ sample_now_ok) in Ha. injection Ha as <-.
  rewrite Htotal, Htrend. split; vm_compute; reflexivity.
Defined.

(** ** Identifiers and the size of the store *)

Section DistinctIds.

Lemma distinct_ids_perm (l l' : list Entry) : l ≡ₚ l' -> distinct_ids l -> distinct_ids l'.
Proof.
  unfold distinct_ids. intros Hp Hl.
  assert (map id l ≡ₚ map id l') as Hq by now apply Permutation_map.
  now rewrite <- Hq.
Qed.

Lemma distinct_ids_app (l1 l2 : list Entry) (e : Entry) :
  distinct_ids (l1 ++ e :: l2) ->
  distinct_ids (l1 ++ l2) /\ fresh_id (id e) l1 /\ fresh_id (id e) l2.
Proof.
  intros H.
  assert (distinct_ids (e :: l1 ++ l2)) as H'.
  { eapply distinct_ids_perm; [| exact H]. symmetry. apply Permutation_middle. }
  unfold distinct_ids in H'. cbn [map] in H'. apply NoDup_cons in H' as [Hout Hnd].
  split; [exact Hnd |].
  rewrite map_app, not_elem_of_app in Hout. destruct Hout as [H1 H2].
  split; now apply fresh_id_not_in.
Qed.

Lemma fresh_id_app (i : string) (l1 l2 : list Entry) :
  fresh_id i (l1 ++ l2) <-> fresh_id i l1 /\ fresh_id i l2.
Proof. apply Forall_app. Qed.

Lemma get_entry_distinct (l : list Entry) (e : Entry) :
  distinct_ids l -> e ∈ l -> get_entry l (id e) = Some e.
Proof.
  intros Hnd [l1 [l2 ->]]%list_elem_of_split.
  apply distinct_ids_app in Hnd as (_ & H1 & _).
  rewrite get_entry_app. apply get_entry_fresh in H1. rewrite H1.
  unfold get_entry. cbn [find]. now rewrite String.eqb_refl.
Qed.

Lemma delete_entry_cases (entries : list Entry) (wanted : string) :
  (fresh_id wanted entries /\ delete_entry entries wanted = (entries, false)) \/
  (exists l1 e l2,
      entries = l1 ++ e :: l2 /\ id e = wanted /\ fresh_id wanted l1 /\
      delete_entry entries wanted = (l1 ++ l2, true)).
Proof.
  unfold delete_entry. destruct (findIndex wanted entries) as [index|] eqn:Hi.
  - right. apply findIndex_Some in Hi as (l1 & e & l2 & -> & <- & He & Hfresh).
    exists l1, e, l2. repeat split; try assumption. f_equal. apply splice_at.
  - left. apply findIndex_None in Hi. now split.
Qed.

Lemma get_entry_skip (l1 l2 : list Entry) (e : Entry) (other : string) :
  id e <> other -> get_entry (l1 ++ e :: l2) other = get_entry (l1 ++ l2) other.
Proof.
  intros Hne. rewrite !get_entry_app. destruct (get_entry l1 other); [reflexivity |].
  unfold get_entry. cbn [find]. apply String.eqb_neq in Hne. now rewrite Hne.
Qed.

Lemma filter_newest_first (f : Entry -> bool) (l : list Entry) :
  newest_first l -> newest_first (List.filter f l).
Proof.
  unfold newest_first. induction 1 as [|x l Hl IH Hx]; [constructor |].
  cbn [List.filter]. destruct (f x); [| exact IH].
  constructor; [exact IH |]. rewrite Forall_forall in *.
  intros y Hy. apply Hx. apply list_elem_of_In in Hy. apply filter_In in Hy as [Hy _].
  now apply list_elem_of_In.
Qed.

End DistinctIds.

(** X16.  While the identifiers drawn are new, no two stored entries ever
    share one: posting under an identifier that no entry has, deleting and
    listing all keep the identifiers of the store pairwise different.  In
    such a store [GET /api/entries/:id] finds every entry under its
    identifier, and after [DELETE /api/entries/:id] the identifier is
    gone. *)
Theorem store_ids_distinct (entries : list Entry) :
  distinct_ids entries ->
  (forall e, e ∈ entries -> get_entry entries (id e) = Some e) /\
  (forall uuid now raw,
      fresh_id uuid entries -> distinct_ids (fst (post_entry entries uuid now raw))) /\
  (forall wanted,
      distinct_ids (fst (delete_entry entries wanted)) /\
      get_entry (fst (delete_entry entries wanted)) wanted = None) /\
  (forall c s q, distinct_ids (fst (get_entries entries c s q))).
Proof.
  intros Hnd. split; [intros e; now apply get_entry_distinct |]. split; [| split].
  - intros uuid now raw Hfresh. unfold post_entry.
    destruct (Nat.eqb _ 0); cbn [fst]; [exact Hnd |].
    eapply distinct_ids_perm; [apply Permutation_cons_append |].
    unfold distinct_ids. cbn [map id]. apply NoDup_cons.
    split; [now apply fresh_id_not_in | exact Hnd].
  - intros wanted.
    destruct (delete_entry_cases entries wanted)
      as [[Hfresh ->] | (l1 & e & l2 & -> & He & Hfresh & ->)]; cbn [fst].
    + split; [exact Hnd | now apply get_entry_fresh].
    + apply distinct_ids_app in Hnd as (Hnd & _ & H2). split; [exact Hnd |].
      apply get_entry_fresh, fresh_id_app. rewrite He in H2. now split.
  - intros c s q. rewrite get_entries_value. cbn [fst].
    destruct (unfiltered c s q); [| exact Hnd].
    eapply distinct_ids_perm; [| exact Hnd]. symmetry. apply sort_newest_perm.
Qed.

Lemma store_ids_distinct_witness :
  get_entry sample_entries "e2" = nth_error sample_entries 1 /\
  get_entry (fst (delete_entry sample_entries "e2")) "e2" = None.
Proof.
  assert (distinct_ids sample_entries) as Hnd.
  { unfold distinct_ids. cbn [map sample_entries stored id].
    apply NoDup_ListNoDup. repeat constructor; cbn; intuition discriminate. }
  destruct (store_ids_distinct sample_entries Hnd) as (Hget & _ & Hdel & _).
  split; [| apply Hdel].
  apply (Hget (stored "e2" (sample_now - 2 * Date.msPerDay)
                      "Urgent: Motor overheating after 3 hours")).
  unfold sample_entries. apply elem_of_cons. right. apply elem_of_cons. now left.
Defined.

(** X17.  [DELETE /api/entries/:id] touches one identifier only: under
    every other identifier [GET /api/entries/:id] answers what it answered
    before, whether or not an entry was deleted. *)
Theorem delete_entry_others (entries : list Entry) (wanted other : string) :
  other <> wanted ->
  get_entry (fst (delete_entry entries wanted)) other = get_entry entries other.
Proof.
  intros Hne.
  destruct (delete_entry_cases entries wanted)
    as [[_ ->] | (l1 & e & l2 & -> & He & _ & ->)]; cbn [fst]; [reflexivity |].
  symmetry. apply get_entry_skip. congruence.
Qed.

Lemma delete_entry_others_witness :
  get_entry (fst (delete_entry sample_entries "e1")) "e3" = get_entry sample_entries "e3".
Proof. apply (delete_entry_others sample_entries "e1" "e3"). discriminate. Defined.

(** X18.  The number [GET /api/health] reports goes up by one with every
    post that is accepted and down by one with every delete that finds its
    entry; a post that is refused, a delete that answers 404 and listing
    the entries leave it as it is. *)
Theorem health_accounting (entries : list Entry) :
  (forall uuid now raw,
      health (fst (post_entry entries uuid now raw)) =
      (health entries +
       match snd (post_entry entries uuid now raw) with Some _ => 1 | None => 0 end)%nat) /\
  (forall wanted,
      health entries =
      (health (fst (delete_entry entries wanted)) +
       (if snd (delete_entry entries wanted) then 1 else 0))%nat) /\
  (forall c s q, health (fst (get_entries entries c s q)) = health entries).
Proof.
  unfold health. split; [| split].
  - intros uuid now raw. unfold post_entry.
    destruct (Nat.eqb _ 0); cbn [fst snd]; [lia |].
    rewrite length_app. reflexivity.
  - intros wanted.
    destruct (delete_entry_cases entries wanted)
      as [[_ ->] | (l1 & e & l2 & -> & _ & _ & ->)]; cbn [fst snd]; [lia |].
    rewrite !length_app. cbn [length]. lia.
  - intros c s q. rewrite get_entries_value. cbn [fst].
    destruct (unfiltered c s q); [| reflexivity].
    apply Permutation_length, sort_newest_perm.
Qed.

(** X19.  The list the page shows for a category button and a search text
    holds the entries that [GET /api/entries] would select with that
    category and that search; when the page holds the entries newest
    first, it is the very list the backend would send. *)
Theorem filteredEntries_agrees (entries : list Entry) (filter search : string) :
  filter <> "" ->
  filteredEntries entries filter search =
    List.filter (selects (Some filter) None (Some search)) entries /\
  snd (get_entries entries (Some filter) None (Some search)) ≡ₚ
    filteredEntries entries filter search /\
  (newest_first entries ->
   snd (get_entries entries (Some filter) None (Some search)) =
     filteredEntries entries filter search).
Proof.
  intros Hf.
  assert (filteredEntries entries filter search =
          List.filter (selects (Some filter) None (Some search)) entries) as Heq.
  { unfold filteredEntries. apply List.filter_ext. intros e.
    unfold selects, given, search_hit.
    destruct filter as [|a f]; [contradiction |].
    destruct search as [|b q].
    - change (String.eqb "" "") with true. cbn [orb]. now rewrite !andb_true_r.
    - change (String.eqb (String b q) "") with false. cbn [orb].
      now rewrite andb_true_r. }
  rewrite get_entries_value, Heq. cbn [snd].
  split; [reflexivity |]. split; [apply sort_newest_perm |].
  intros Hsorted. apply sort_newest_fixed. now apply filter_newest_first.
Qed.

Lemma filteredEntries_agrees_witness :
  map id (filteredEntries sample_entries "issue" "MOTOR") = ["e2"] /\
  snd (get_entries sample_entries (Some "issue") None (Some "MOTOR")) ≡ₚ
    filteredEntries sample_entries "issue" "MOTOR".
Proof.
  destruct (filteredEntries_agrees sample_entries "issue" "MOTOR" ltac:(discriminate))
    as (Heq & Hperm & _).
  split; [rewrite Heq; vm_compute; reflexivity | exact Hperm].
Defined.

(** ** White space around the input *)

Section Ends.

Lemma string_snoc (s : string) : s = "" \/ exists s' a, s = s' +:+ String a "".
Proof.
  induction s as [|c s IH]; [now left |]. right.
  destruct IH as [-> | (s' & a & ->)].
  - now exists "", c.
  - exists (String c s'), a. now rewrite append_cons.
Qed.

Lemma snoc_inj (p q : string) (a b : ascii) :
  p +:+ String a "" = q +:+ String b "" -> p = q /\ a = b.
Proof.
  intros H.
  assert (String.length p = String.length q) as Hlen.
  { apply (f_equal String.length) in H. rewrite !length_append in H.
    cbn [String.length] in H. lia. }
  destruct (append_inj_length _ _ _ _ H Hlen) as [-> Heq]. now injection Heq as ->.
Qed.

Lemma append_eq_nil (p q : string) : p +:+ q = "" -> p = "" /\ q = "".
Proof.
  destruct p as [|a p]; [rewrite append_nil_l; auto |].
  rewrite append_cons. discriminate.
Qed.

Lemma class_within_spec (P : ascii -> bool) (cs : list atom) (c : ascii) :
  class_within P cs = true -> class_match true cs c = true -> P c = true.
Proof.
  intros H Hc. unfold class_within in H.
  pose proof (ascii_enum _ H c) as Hi. cbn beta in Hi. now rewrite Hc in Hi.
Qed.

Lemma nullable_sound (r : regex) :
  forall c c', matches true r "" c c' -> nullable r = true.
Proof.
  induction r as [|cs|r1 IH1 r2 IH2|r1 IH1 r2 IH2|r1 IH1|cs|n r1 IH1];
    intros c c'; cbn [matches nullable]; try reflexivity.
  - intros (ch & H & _). discriminate.
  - intros (p1 & p2 & c1 & H & H1 & H2). symmetry in H.
    apply append_eq_nil in H as [-> ->].
    now rewrite (IH1 _ _ H1), (IH2 _ _ H2).
  - intros [H | H]; [rewrite (IH1 _ _ H) | rewrite (IH2 _ _ H)];
      [reflexivity | apply orb_true_r].
  - intros (c1 & H & _). now apply IH1 in H.
Qed.

Lemma first_within_sound (P : ascii -> bool) (r : regex) :
  first_within P r = true ->
  forall a p c c', matches true r (String a p) c c' -> P a = true.
Proof.
  induction r as [|cs|r1 IH1 r2 IH2|r1 IH1 r2 IH2|r1 IH1|cs|n r1 IH1];
    cbn [first_within matches]; intros Hf a p c c'.
  - intros [H _]. discriminate.
  - intros (ch & [= -> ->] & Hc & _). now apply (class_within_spec P cs).
  - apply andb_true_iff in Hf as [Hf1 Hf2].
    intros (p1 & p2 & c1 & H & H1 & H2). destruct p1 as [|x p1].
    + rewrite append_nil_l in H. subst p2.
      rewrite (nullable_sound _ _ _ H1) in Hf2. now apply (IH2 Hf2 a p c1 c').
    + rewrite append_cons in H. injection H as -> _. now apply (IH1 Hf1 x p1 c c1).
  - apply andb_true_iff in Hf as [Hf1 Hf2].
    intros [H | H]; [now apply (IH1 Hf1 a p c c') | now apply (IH2 Hf2 a p c c')].
  - intros [H | [H _]]; [now apply (IH1 Hf a p c c') | discriminate].
  - intros [H _]. cbn [all_chars] in H. apply andb_true_iff in H as [H _].
    now apply (class_within_spec P cs).
  - intros (c1 & H & _). now apply (IH1 Hf a p c c1).
Qed.

Lemma last_within_sound (P : ascii -> bool) (r : regex) :
  last_within P r = true ->
  forall p a c c', matches true r (p +:+ String a "") c c' -> P a = true.
Proof.
  induction r as [|cs|r1 IH1 r2 IH2|r1 IH1 r2 IH2|r1 IH1|cs|n r1 IH1];
    cbn [last_within matches]; intros Hf p a c c'.
  - intros [H _]. apply append_eq_nil in H as [_ H]. discriminate.
  - intros (ch & H & Hc & _).
    change (String ch "") with ("" +:+ String ch "") in H.
    apply snoc_inj in H as [_ ->]. now apply (class_within_spec P cs).
  - apply andb_true_iff in Hf as [Hf2 Hf1].
    intros (p1 & p2 & c1 & H & H1 & H2).
    destruct (string_snoc p2) as [-> | (p2' & b & ->)].
    + rewrite append_nil_r in H. subst p1.
      rewrite (nullable_sound _ _ _ H2) in Hf1. now apply (IH1 Hf1 p a c c1).
    + rewrite <- append_assoc in H. apply snoc_inj in H as [_ ->].
      now apply (IH2 Hf2 p2' b c1 c').
  - apply andb_true_iff in Hf as [Hf1 Hf2].
    intros [H | H]; [now apply (IH1 Hf1 p a c c') | now apply (IH2 Hf2 p a c c')].
  - intros [H | [H _]]; [now apply (IH1 Hf p a c c') |].
    apply append_eq_nil in H as [_ H]. discriminate.
  - intros [H _]. rewrite all_chars_app in H. apply andb_true_iff in H as [_ H].
    cbn [all_chars] in H. rewrite andb_true_r in H.
    now apply (class_within_spec P cs).
  - intros (c1 & H & _). now apply (IH1 Hf p a c c1).
Qed.

End Ends.

Section Continuations.

Variable ic : bool.

Lemma star_ext_on {R} (cs : list atom) (k k2 : string -> option R) (s : string) :
  (forall p s1, s = p +:+ s1 -> all_chars (class_match ic cs) p = true -> k s1 = k2 s1) ->
  star ic cs k s = star ic cs k2 s.
Proof.
  induction s as [|c s IH]; intros H; cbn [star].
  - now apply (H "" "").
  - destruct (class_match ic cs c) eqn:Hc; [| now apply (H "" (String c s))].
    rewrite IH.
    + now rewrite (H "" (String c s)).
    + intros p s1 -> Hp. apply (H (String c p) s1); [now rewrite append_cons |].
      cbn [all_chars]. now rewrite Hc.
Qed.

(** The continuation matters only where the pattern can hand over. *)
Lemma run_ext_on {R} (r : regex) :
  forall (s : string) (caps : captures) (k k2 : string -> captures -> option R),
    (forall p s1 caps1,
        s = p +:+ s1 -> matches ic r p caps caps1 -> k s1 caps1 = k2 s1 caps1) ->
    run ic r s caps k = run ic r s caps k2.
Proof.
  induction r as [|cs|r1 IH1 r2 IH2|r1 IH1 r2 IH2|r1 IH1|cs|n r1 IH1];
    intros s caps k k2 H; cbn [run].
  - apply (H "" s caps); [reflexivity | now split].
  - destruct s as [|c s]; [reflexivity |].
    destruct (class_match ic cs c) eqn:Hc; [| reflexivity].
    apply (H (String c "") s caps); [reflexivity |]. now exists c.
  - apply IH1. intros p1 s1 caps1 -> H1. apply IH2. intros p2 s2 caps2 -> H2.
    apply (H (p1 +:+ p2) s2 caps2); [now rewrite append_assoc |].
    now exists p1, p2, caps1.
  - rewrite (IH1 s caps k k2), (IH2 s caps k k2); [reflexivity | |].
    + intros p s1 caps1 Hs Hm. apply (H p s1 caps1 Hs). now right.
    + intros p s1 caps1 Hs Hm. apply (H p s1 caps1 Hs). now left.
  - rewrite (IH1 s caps k k2).
    + rewrite (H "" s caps); [reflexivity | reflexivity | now right].
    + intros p s1 caps1 Hs Hm. apply (H p s1 caps1 Hs). now left.
  - apply star_ext_on. intros p s1 Hs Hp. now apply (H p s1 caps).
  - apply IH1. intros p s1 caps1 -> H1. rewrite consumed_app.
    apply (H p s1 ((n, p) :: caps1)); [reflexivity |]. now exists caps1.
Qed.

Lemma run_ext {R} (r : regex) (s : string) (caps : captures)
      (k k2 : string -> captures -> option R) :
  (forall s1 caps1, k s1 caps1 = k2 s1 caps1) -> run ic r s caps k = run ic r s caps k2.
Proof. intros H. apply run_ext_on. intros p s1 caps1 _ _. apply H. Qed.

Lemma star_map {R R'} (f : R -> R') (cs : list atom) (k : string -> option R) (s : string) :
  star ic cs (fun s1 => option_map f (k s1)) s = option_map f (star ic cs k s).
Proof.
  induction s as [|c s IH]; cbn [star]; [reflexivity |].
  destruct (class_match ic cs c); [| reflexivity].
  rewrite IH. now destruct (star ic cs k s).
Qed.

(** What is done to the result can be done after the match. *)
Lemma run_map {R R'} (f : R -> R') (r : regex) :
  forall (s : string) (caps : captures) (k : string -> captures -> option R),
    run ic r s caps (fun s1 caps1 => option_map f (k s1 caps1)) =
    option_map f (run ic r s caps k).
Proof.
  induction r as [|cs|r1 IH1 r2 IH2|r1 IH1 r2 IH2|r1 IH1|cs|n r1 IH1];
    intros s caps k; cbn [run].
  - reflexivity.
  - destruct s as [|c s]; [reflexivity |]. now destruct (class_match ic cs c).
  - rewrite <- IH1. apply run_ext. intros s1 caps1. apply IH2.
  - rewrite IH1, IH2. now destruct (run ic r1 s caps k).
  - rewrite IH1. now destruct (run ic r1 s caps k).
  - apply (star_map f cs (fun s1 => k s1 caps)).
  - apply (IH1 s caps (fun s1 caps1 => k s1 ((n, consumed s s1) :: caps1))).
Qed.

Lemma run_nil {R} (r : regex) (caps : captures) (k : string -> captures -> option R) :
  (forall caps1, k "" caps1 = None) -> run ic r "" caps k = None.
Proof.
  intros Hk. destruct (run ic r "" caps k) as [x|] eqn:Hr; [| reflexivity].
  apply run_sound in Hr as (p & s1 & caps1 & Hs & _ & Hx).
  symmetry in Hs. apply append_eq_nil in Hs as [_ ->]. now rewrite Hk in Hx.
Qed.

Lemma take_string_snoc (n : nat) (s t : string) :
  (n <= String.length s)%nat -> take_string n (s +:+ t) = take_string n s.
Proof.
  revert n. induction s as [|c s IH]; intros n Hn.
  - cbn [String.length] in Hn. now replace n with 0%nat by lia.
  - rewrite append_cons. destruct n as [|n]; [reflexivity |].
    cbn [take_string String.length] in *. rewrite IH by lia. reflexivity.
Qed.

Lemma consumed_snoc (s s1 t : string) : consumed (s +:+ t) (s1 +:+ t) = consumed s s1.
Proof.
  unfold consumed. rewrite !length_append.
  replace (String.length s + String.length t - (String.length s1 + String.length t))%nat
    with (String.length s - String.length s1)%nat by lia.
  apply take_string_snoc. lia.
Qed.

Variable c : ascii.

Lemma star_snoc {R} (cs : list atom) (k k' : string -> option R) (s : string) :
  (forall s1, k' (s1 +:+ String c "") = k s1) -> k' "" = None ->
  star ic cs k' (s +:+ String c "") = star ic cs k s.
Proof.
  intros Hk Hnil. induction s as [|x s IH].
  - rewrite append_nil_l. cbn [star]. rewrite Hnil, <- Hk, append_nil_l.
    now destruct (class_match ic cs c).
  - rewrite append_cons. cbn [star]. rewrite IH, <- Hk, append_cons. reflexivity.
Qed.

(** One more character after the input changes nothing for a continuation
    that cannot start at the very end. *)
Lemma run_snoc {R} (r : regex) :
  forall (s : string) (caps : captures) (k k' : string -> captures -> option R),
    (forall s1 caps1, k' (s1 +:+ String c "") caps1 = k s1 caps1) ->
    (forall caps1, k' "" caps1 = None) ->
    run ic r (s +:+ String c "") caps k' = run ic r s caps k.
Proof.
  induction r as [|cs|r1 IH1 r2 IH2|r1 IH1 r2 IH2|r1 IH1|cs|n r1 IH1];
    intros s caps k k' Hk Hnil; cbn [run].
  - apply Hk.
  - destruct s as [|x s].
    + rewrite append_nil_l, Hnil. now destruct (class_match ic cs c).
    + rewrite append_cons. destruct (class_match ic cs x); [apply Hk | reflexivity].
  - apply IH1.
    + intros s1 caps1. now apply IH2.
    + intros caps1. now apply run_nil.
  - now rewrite (IH1 s caps k k'), (IH2 s caps k k').
  - now rewrite (IH1 s caps k k'), Hk.
  - apply star_snoc; [intros s1; apply Hk | apply Hnil].
  - apply IH1.
    + intros s1 caps1. now rewrite consumed_snoc, Hk.
    + intros caps1. apply Hnil.
Qed.

End Continuations.

Section Around.

Variable r : regex.

Hypothesis r_solid : solid r = true.

Variable c : ascii.

Hypothesis c_space : Char.is_space c = true.

Lemma solid_parts :
  nullable r = false /\ first_within not_space r = true /\ last_within not_space r = true.
Proof.
  unfold solid in r_solid. apply andb_true_iff in r_solid as [H H3].
  apply andb_true_iff in H as [H1 H2]. apply negb_true_iff in H1. auto.
Qed.

Lemma matched_solid (p : string) (caps caps' : captures) :
  matches true r p caps caps' -> exists a p', p = String a p'.
Proof.
  destruct p as [|a p]; [| eauto]. intros H. apply nullable_sound in H.
  destruct solid_parts as [Hn _]. congruence.
Qed.

Lemma match_here_nil (i : nat) : match_here true r i "" = None.
Proof.
  destruct (match_here true r i "") as [m|] eqn:Hm; [| reflexivity].
  apply match_here_sound in Hm as (_ & Hs & Hmatch).
  destruct (matched_solid _ _ _ Hmatch) as (a & p' & Hp).
  rewrite Hp, append_cons in Hs. discriminate.
Qed.

Lemma match_here_lead (i : nat) (s : string) : match_here true r i (String c s) = None.
Proof.
  destruct (match_here true r i (String c s)) as [m|] eqn:Hm; [| reflexivity].
  apply match_here_sound in Hm as (_ & Hs & Hmatch).
  destruct (matched_solid _ _ _ Hmatch) as (a & p' & Hp). rewrite Hp in Hs, Hmatch.
  rewrite append_cons in Hs. injection Hs as <- _.
  apply (first_within_sound not_space r) in Hmatch; [| apply solid_parts].
  unfold not_space in Hmatch. rewrite c_space in Hmatch. discriminate.
Qed.

Lemma search_lead (i : nat) (s : string) :
  search true r i (String c s) = search true r (S i) s.
Proof. cbn [search]. now rewrite match_here_lead. Qed.

Lemma match_here_text (i j : nat) (s : string) :
  option_map text_of (match_here true r i s) = option_map text_of (match_here true r j s).
Proof. unfold match_here. now rewrite <- !run_map. Qed.

Lemma search_text (s : string) :
  forall i j,
    option_map text_of (search true r i s) = option_map text_of (search true r j s).
Proof.
  induction s as [|x s IH]; intros i j; cbn [search].
  - pose proof (match_here_text i j "") as H.
    destruct (match_here true r i ""), (match_here true r j "");
      cbn [option_map] in *; congruence.
  - pose proof (match_here_text i j (String x s)) as H.
    destruct (match_here true r i (String x s)), (match_here true r j (String x s));
      cbn [option_map] in *; try discriminate; [exact H | apply IH].
Qed.

(** The matches found do not depend on where the count of indices starts. *)
Lemma search_all_index (fuel : nat) :
  forall i j s, search_all fuel true r i s = search_all fuel true r j s.
Proof.
  induction fuel as [|fuel IH]; intros i j s; cbn [search_all]; [reflexivity |].
  pose proof (search_text s i j) as H.
  destruct (search true r i s) as [m|], (search true r j s) as [m'|];
    cbn [option_map] in H; try discriminate; [| reflexivity].
  unfold text_of in H. injection H as Hm Hg Ha. rewrite Hm, Ha. f_equal.
  destruct (matched m'), (after m'); try reflexivity; apply IH.
Qed.

Lemma String_match_g_lead (s : string) :
  String_match_g true r (String c s) = String_match_g true r s.
Proof.
  unfold String_match_g. cbn [String.length].
  assert (search_all (S (S (String.length s))) true r 0 (String c s) =
          search_all (S (S (String.length s))) true r 1 s) as ->.
  { cbn [search_all]. now rewrite search_lead. }
  rewrite (search_all_fuel true r (S (S (String.length s))) (S (String.length s)) 1 s) by lia.
  now rewrite (search_all_index _ 1%nat 0%nat s).
Qed.

Lemma String_match_lead (s : string) :
  option_map groups (String_match true r (String c s)) =
  option_map groups (String_match true r s).
Proof.
  unfold String_match. rewrite search_lead.
  pose proof (search_text s 1%nat 0%nat) as H.
  destruct (search true r 1 s), (search true r 0 s);
    cbn [option_map] in *; try discriminate; [| reflexivity].
  unfold text_of in H. now injection H as _ -> _.
Qed.

Lemma match_here_snoc (i : nat) (s : string) :
  match_here true r i (s +:+ String c "") = option_map (extend c) (match_here true r i s).
Proof.
  unfold match_here. rewrite <- run_map.
  transitivity
    (run true r (s +:+ String c "") []
         (fun rest caps =>
            match rest with
            | EmptyString => None
            | String _ _ =>
                Some (MatchResult i (consumed (s +:+ String c "") rest) caps rest)
            end)).
  - apply run_ext_on. intros p s1 caps1 Hs Hm. destruct s1 as [|y s1]; [| reflexivity].
    exfalso. rewrite append_nil_r in Hs. subst p.
    apply (last_within_sound not_space r) in Hm; [| apply solid_parts].
    unfold not_space in Hm. rewrite c_space in Hm. discriminate.
  - apply run_snoc; [| reflexivity].
    intros s1 caps1. rewrite consumed_snoc.
    cbn [option_map]. unfold extend. cbn [index matched groups after].
    destruct s1 as [|y s1]; [rewrite append_nil_l | rewrite append_cons]; reflexivity.
Qed.

Lemma search_snoc (s : string) :
  forall i,
    search true r i (s +:+ String c "") = option_map (extend c) (search true r i s).
Proof.
  induction s as [|x s IH]; intros i.
  - rewrite append_nil_l. cbn [search].
    now rewrite match_here_lead, !match_here_nil.
  - rewrite append_cons. cbn [search]. rewrite <- append_cons, match_here_snoc.
    destruct (match_here true r i (String x s)); cbn [option_map]; [reflexivity | apply IH].
Qed.

Lemma search_all_snoc (fuel : nat) :
  forall i s, search_all fuel true r i (s +:+ String c "") = search_all fuel true r i s.
Proof.
  induction fuel as [|fuel IH]; intros i s; cbn [search_all]; [reflexivity |].
  rewrite search_snoc. destruct (search true r i s) as [m|] eqn:Hs;
    cbn [option_map]; [| reflexivity].
  unfold extend. cbn [index matched groups after].
  apply search_sound in Hs as (pre & _ & _ & Hm & _).
  destruct (matched_solid _ _ _ Hm) as (a & p' & Hp). rewrite Hp. f_equal. apply IH.
Qed.

Lemma String_match_g_snoc (s : string) :
  String_match_g true r (s +:+ String c "") = String_match_g true r s.
Proof.
  unfold String_match_g. rewrite search_all_snoc, length_append.
  now rewrite (search_all_fuel true r _ (S (String.length s)) 0 s) by lia.
Qed.

Lemma String_match_snoc (s : string) :
  option_map groups (String_match true r (s +:+ String c "")) =
  option_map groups (String_match true r s).
Proof.
  unfold String_match. rewrite search_snoc. now destruct (search true r 0 s).
Qed.

End Around.

Section Words.

Variable c : ascii.

Hypothesis c_space : Char.is_space c = true.

Lemma lower_space : Char.toLowerCase c = c.
Proof.
  pose proof (ascii_enum
    (fun c => implb (Char.is_space c) (Ascii.eqb (Char.toLowerCase c) c)) eq_refl c) as H.
  cbn beta in H. rewrite c_space in H. now apply Ascii.eqb_eq in H.
Qed.

Lemma toLowerCase_lead (s : string) : toLowerCase (String c s) = String c (toLowerCase s).
Proof. unfold toLowerCase. cbn [map_string]. now rewrite lower_space. Qed.

Lemma toLowerCase_snoc (s : string) :
  toLowerCase (s +:+ String c "") = toLowerCase s +:+ String c "".
Proof. unfold toLowerCase. rewrite map_string_app. cbn [map_string]. now rewrite lower_space. Qed.

Lemma starts_with_cons (a x : ascii) (w s : string) :
  starts_with (String a w) (String x s) = Ascii.eqb a x && starts_with w s.
Proof. reflexivity. Qed.

Lemma starts_with_snoc (w' : string) :
  forall a s,
    last_char a w' <> c ->
    starts_with (String a w') (s +:+ String c "") = starts_with (String a w') s.
Proof.
  induction w' as [|b w' IH]; intros a s Hlast; cbn [last_char] in Hlast.
  - destruct s as [|x s]; [| now rewrite append_cons].
    rewrite append_nil_l, starts_with_cons. apply Ascii.eqb_neq in Hlast.
    now rewrite Hlast.
  - destruct s as [|x s].
    + rewrite append_nil_l, starts_with_cons. apply andb_false_r.
    + rewrite append_cons, !starts_with_cons. now rewrite (IH b s Hlast).
Qed.

Lemma includes_snoc (a : ascii) (w' : string) (s : string) :
  last_char a w' <> c ->
  includes (s +:+ String c "") (String a w') = includes s (String a w').
Proof.
  intros Hlast. induction s as [|x s IH].
  - rewrite append_nil_l. cbn [includes].
    rewrite <- (append_nil_l (String c "")), starts_with_snoc by exact Hlast.
    reflexivity.
  - rewrite append_cons. cbn [includes]. rewrite <- append_cons.
    now rewrite starts_with_snoc, IH by exact Hlast.
Qed.

Lemma includes_lead (a : ascii) (w' : string) (s : string) :
  a <> c -> includes (String c s) (String a w') = includes s (String a w').
Proof.
  intros Hne. cbn [includes starts_with]. apply Ascii.eqb_neq in Hne.
  rewrite Hne. reflexivity.
Qed.

Lemma solid_word_spec (w : string) :
  solid_word w = true -> exists a w', w = String a w' /\ a <> c /\ last_char a w' <> c.
Proof.
  destruct w as [|a w']; [discriminate |]. cbn [solid_word].
  intros [H1 H2]%andb_true_iff. exists a, w'. unfold not_space in *.
  split; [reflexivity |].
  split; intros Heq; rewrite Heq, c_space in *; discriminate.
Qed.

Lemma any_includes_lead (ws : list string) (s : string) :
  forallb solid_word ws = true -> any_includes (String c s) ws = any_includes s ws.
Proof.
  unfold any_includes. induction ws as [|w ws IH]; [reflexivity |].
  cbn [forallb existsb]. intros [Hw Hws]%andb_true_iff.
  destruct (solid_word_spec w Hw) as (a & w' & -> & Ha & _).
  now rewrite includes_lead, IH.
Qed.

Lemma any_includes_snoc (ws : list string) (s : string) :
  forallb solid_word ws = true ->
  any_includes (s +:+ String c "") ws = any_includes s ws.
Proof.
  unfold any_includes. induction ws as [|w ws IH]; [reflexivity |].
  cbn [forallb existsb]. intros [Hw Hws]%andb_true_iff.
  destruct (solid_word_spec w Hw) as (a & w' & -> & _ & Hl).
  now rewrite includes_snoc, IH.
Qed.

End Words.

Section Trimmed.

Lemma componentPatterns_solid : forallb solid componentPatterns = true.
Proof. vm_compute. reflexivity. Qed.

Lemma vendorPattern_solid : solid vendorPattern = true.
Proof. vm_compute. reflexivity. Qed.

Lemma timePattern_solid : solid timePattern = true.
Proof. vm_compute. reflexivity. Qed.

Lemma tempPattern_solid : solid tempPattern = true.
Proof. vm_compute. reflexivity. Qed.

Lemma voltagePattern_solid : solid voltagePattern = true.
Proof. vm_compute. reflexivity. Qed.

Lemma countPattern_solid : solid countPattern = true.
Proof. vm_compute. reflexivity. Qed.

Lemma extract_entities_same (s s' : string) :
  (forall r, solid r = true -> String_match_g true r s = String_match_g true r s') ->
  extract_entities s = extract_entities s'.
Proof.
  intros H. unfold extract_entities.
  rewrite (H vendorPattern vendorPattern_solid).
  pose proof componentPatterns_solid as Hc. revert Hc.
  generalize (@nil string) as acc. generalize componentPatterns as rs.
  induction rs as [|r rs IH]; intros acc Hc; [reflexivity |].
  cbn [forallb] in Hc. apply andb_true_iff in Hc as [Hr Hrs].
  cbn [fold_left]. rewrite (H r Hr).
  specialize (IH (match String_match_g true r s' with
                  | Some matches => acc ++ matches
                  | None => acc
                  end) Hrs).
  destruct (String_match_g true vendorPattern s'); congruence.
Qed.

Lemma metrics_same (s s' : string) :
  (forall r, solid r = true ->
             option_map groups (String_match true r s) =
             option_map groups (String_match true r s')) ->
  extract_duration s = extract_duration s' /\
  extract_temperature s = extract_temperature s' /\
  extract_voltage s = extract_voltage s' /\
  extract_quantity s = extract_quantity s'.
Proof.
  intros H.
  pose proof (H timePattern timePattern_solid) as H1.
  pose proof (H tempPattern tempPattern_solid) as H2.
  pose proof (H voltagePattern voltagePattern_solid) as H3.
  pose proof (H countPattern countPattern_solid) as H4.
  unfold extract_duration, extract_temperature, extract_voltage, extract_quantity, group.
  repeat split.
  - destruct (String_match true timePattern s), (String_match true timePattern s');
      cbn [option_map] in H1; try discriminate; [| reflexivity].
    injection H1 as ->. reflexivity.
  - destruct (String_match true tempPattern s), (String_match true tempPattern s');
      cbn [option_map] in H2; try discriminate; [| reflexivity].
    injection H2 as ->. reflexivity.
  - destruct (String_match true voltagePattern s), (String_match true voltagePattern s');
      cbn [option_map] in H3; try discriminate; [| reflexivity].
    injection H3 as ->. reflexivity.
  - destruct (String_match true countPattern s), (String_match true countPattern s');
      cbn [option_map] in H4; try discriminate; [| reflexivity].
    injection H4 as ->. reflexivity.
Qed.

Lemma processInput_same (s s' : string) :
  (forall ws, forallb solid_word ws = true ->
              any_includes (toLowerCase s) ws = any_includes (toLowerCase s') ws) ->
  (forall r, solid r = true -> String_match_g true r s = String_match_g true r s') ->
  (forall r, solid r = true ->
             option_map groups (String_match true r s) =
             option_map groups (String_match true r s')) ->
  processInput s = processInput s'.
Proof.
  intros Hw Hg Hm. unfold processInput, classify_category, classify_severity.
  pose proof (Hw issue_words eq_refl) as H1. pose proof (Hw delay_words eq_refl) as H2.
  pose proof (Hw quality_words eq_refl) as H3. pose proof (Hw high_words eq_refl) as H4.
  pose proof (Hw medium_words eq_refl) as H5.
  unfold issue_words, delay_words, quality_words, high_words, medium_words in *.
  rewrite H1, H2, H3, H4, H5, (extract_entities_same s s' Hg).
  destruct (metrics_same s s' Hm) as (-> & -> & -> & ->). reflexivity.
Qed.

Lemma processInput_lead (c : ascii) (s : string) :
  Char.is_space c = true -> processInput (String c s) = processInput s.
Proof.
  intros Hc. apply processInput_same.
  - intros ws Hws. rewrite toLowerCase_lead by exact Hc. now apply any_includes_lead.
  - intros r Hr. now apply String_match_g_lead.
  - intros r Hr. now apply String_match_lead.
Qed.

Lemma processInput_snoc (c : ascii) (s : string) :
  Char.is_space c = true -> processInput (s +:+ String c "") = processInput s.
Proof.
  intros Hc. apply processInput_same.
  - intros ws Hws. rewrite toLowerCase_snoc by exact Hc. now apply any_includes_snoc.
  - intros r Hr. now apply String_match_g_snoc.
  - intros r Hr. now apply String_match_snoc.
Qed.

Lemma processInput_before (before s : string) :
  all_chars Char.is_space before = true -> processInput (before +:+ s) = processInput s.
Proof.
  induction before as [|c before IH]; cbn [all_chars]; [now rewrite append_nil_l |].
  intros [Hc Hb]%andb_true_iff. rewrite append_cons, processInput_lead by exact Hc.
  now apply IH.
Qed.

Lemma processInput_after (after : string) :
  all_chars Char.is_space after = true ->
  forall s, processInput (s +:+ after) = processInput s.
Proof.
  induction after as [|c after IH]; cbn [all_chars]; intros H s;
    [now rewrite append_nil_r |].
  apply andb_true_iff in H as [Hc Ha].
  change (String c after) with (String c "" +:+ after).
  rewrite <- append_assoc, (IH Ha). now apply processInput_snoc.
Qed.

End Trimmed.

(** X20.  The annotation of an entry is the annotation of the text it
    stores: [processInput] reads the input as it was sent and [raw_input]
    keeps it without the white space around it, and that white space
    changes neither the category, nor the severity, nor an entity, nor a
    metric. *)
Theorem post_entry_annotation
  (entries entries' : list Entry) (uuid : string) (now : Z) (raw : string) (e : Entry) :
  post_entry entries uuid now raw = (entries', Some e) ->
  processed e = processInput (raw_input e) /\
  processInput (trim raw) = processInput raw /\
  forall before after,
    all_chars Char.is_space before = true -> all_chars Char.is_space after = true ->
    processInput (before +:+ raw +:+ after) = processInput raw.
Proof.
  assert (forall before after s,
             all_chars Char.is_space before = true ->
             all_chars Char.is_space after = true ->
             processInput (before +:+ s +:+ after) = processInput s) as Haround.
  { intros before after s Hb Ha.
    now rewrite processInput_before, processInput_after. }
  assert (processInput (trim raw) = processInput raw) as Htrim.
  { destruct (trim_split raw) as (before & after & Hraw & Hb & Ha).
    rewrite Hraw at 2. symmetry. now apply Haround. }
  unfold post_entry. destruct (Nat.eqb _ 0); [discriminate |].
  intros [= <- <-]. cbn [processed raw_input].
  split; [now rewrite Htrim |]. split; [exact Htrim |].
  intros before after. apply Haround.
Qed.

Lemma post_entry_annotation_witness :
  processInput "Motor overheating after 3 hours" =
  processInput "  Motor overheating after 3 hours 
".
Proof.
  pose (raw := "  Motor overheating after 3 hours 
").
  destruct (post_entry_annotation [] _ "id-1" sample_now raw _ eq_refl) as (_ & H & _).
  exact H.
Defined.

(** ** What the patterns need *)

Section Needs.

Lemma String_match_needs (P : ascii -> bool) (r : regex) (s : string) :
  first_within P r = true -> nullable r = false ->
  all_chars (fun c => negb (P c)) s = true ->
  String_match true r s = None.
Proof.
  intros Hf Hn Hs. unfold String_match.
  destruct (search true r 0 s) as [m|] eqn:Hm; [| reflexivity].
  apply search_sound in Hm as (pre & _ & Heq & Hmatch & _).
  destruct (matched m) as [|a p] eqn:Hp.
  - apply nullable_sound in Hmatch. congruence.
  - apply (first_within_sound P r Hf) in Hmatch.
    rewrite Heq, !all_chars_app in Hs. cbn [all_chars] in Hs.
    rewrite Hmatch in Hs. cbn [negb andb] in Hs. now rewrite andb_false_r in Hs.
Qed.

Lemma occurs_in_after (a t x : string) : occurs_in t x -> occurs_in (a +:+ t) x.
Proof.
  intros (pre & post & ->). exists (a +:+ pre), post. now rewrite append_assoc.
Qed.

Lemma search_all_sound (ic : bool) (r : regex) (fuel : nat) :
  forall i s x,
    x ∈ search_all fuel ic r i s ->
    occurs_in s x /\ exists caps, matches ic r x [] caps.
Proof.
  induction fuel as [|fuel IH]; intros i s x; cbn [search_all];
    [now intros ?%elem_of_nil |].
  destruct (search ic r i s) as [m|] eqn:Hs; [| now intros ?%elem_of_nil].
  apply search_sound in Hs as (pre & _ & Heq & Hm & _).
  rewrite elem_of_cons. intros [-> | Hin].
  - split; [now exists pre, (after m) | now exists (groups m)].
  - assert (x ∈ search_all fuel ic r (index m + String.length (matched m)) (after m) \/
            exists d s', after m = String d s' /\
                         x ∈ search_all fuel ic r
                               (S (index m + String.length (matched m))) s')
      as [Hin' | (d & s' & Ha & Hin')].
    { destruct (matched m); [| now left].
      destruct (after m) as [|d s']; [now apply elem_of_nil in Hin |].
      right. now exists d, s'. }
    + apply IH in Hin' as [Hocc Hcaps]. split; [| exact Hcaps].
      rewrite Heq, <- append_assoc. now apply occurs_in_after.
    + apply IH in Hin' as [Hocc Hcaps]. split; [| exact Hcaps].
      rewrite Heq, Ha, <- append_assoc.
      change (String d s') with (String d "" +:+ s').
      rewrite <- append_assoc. now apply occurs_in_after.
Qed.

Lemma String_match_g_sound (r : regex) (s : string) (ms : list string) (x : string) :
  String_match_g true r s = Some ms -> x ∈ ms ->
  occurs_in s x /\ exists caps, matches true r x [] caps.
Proof.
  unfold String_match_g.
  destruct (search_all (S (String.length s)) true r 0 s) as [|y l] eqn:Hall;
    [discriminate |].
  intros [= <-] Hin. apply (search_all_sound true r (S (String.length s)) 0%nat s).
  now rewrite Hall.
Qed.

Lemma String_match_g_found (r : regex) (s : string) (p : string) (caps : captures) :
  occurs_in s p -> matches true r p [] caps ->
  exists x ms, String_match_g true r s = Some (x :: ms).
Proof.
  intros (pre & post & Heq) Hm. unfold String_match_g. cbn [search_all].
  destruct (search true r 0 s) as [m|] eqn:Hs.
  - eauto.
  - exfalso. exact (search_complete true r s 0%nat Hs pre p post caps Heq Hm).
Qed.

Lemma pushed_elem (s : string) (x : string) (rs : list regex) :
  forall acc,
    x ∈ fold_left
          (fun entities pattern =>
             match String_match_g true pattern s with
             | Some matches => entities ++ matches
             | None => entities
             end) rs acc ->
    x ∈ acc \/ exists r ms, r ∈ rs /\ String_match_g true r s = Some ms /\ x ∈ ms.
Proof.
  induction rs as [|r rs IH]; intros acc; cbn [fold_left]; [now left |].
  intros [Hin | (r' & ms & Hr & Hms & Hx)]%IH.
  - destruct (String_match_g true r s) as [ms|] eqn:Hms; [| now left].
    apply elem_of_app in Hin as [Hin | Hin]; [now left |].
    right. exists r, ms. split; [now left | now split].
  - right. exists r', ms. split; [now right | now split].
Qed.

Lemma pushed_keeps (s : string) (rs : list regex) :
  forall acc,
    acc <> [] ->
    fold_left
      (fun entities pattern =>
         match String_match_g true pattern s with
         | Some matches => entities ++ matches
         | None => entities
         end) rs acc <> [].
Proof.
  induction rs as [|r rs IH]; intros acc Hacc; cbn [fold_left]; [exact Hacc |].
  apply IH. destruct (String_match_g true r s); [| exact Hacc].
  destruct acc; [contradiction | discriminate].
Qed.

Lemma extract_entities_elem (s x : string) :
  x ∈ extract_entities s ->
  exists r ms,
    r ∈ componentPatterns ++ [vendorPattern] /\
    String_match_g true r s = Some ms /\ x ∈ ms.
Proof.
  unfold extract_entities. intros Hin.
  assert (x ∈ fold_left
                (fun entities pattern =>
                   match String_match_g true pattern s with
                   | Some matches => entities ++ matches
                   | None => entities
                   end) componentPatterns [] \/
          exists ms, String_match_g true vendorPattern s = Some ms /\ x ∈ ms)
    as [Hp | (ms & Hms & Hx)].
  { destruct (String_match_g true vendorPattern s) as [ms|]; [| now left].
    apply elem_of_app in Hin as [Hin | Hin]; [now left | right; now exists ms]. }
  - apply pushed_elem in Hp as [Hnil | (r & ms & Hr & Hms & Hx)];
      [now apply elem_of_nil in Hnil |].
    exists r, ms. split; [apply elem_of_app; now left | now split].
  - exists vendorPattern, ms. split; [| now split].
    apply elem_of_app. right. now left.
Qed.

Lemma headed_word (ws : list string) (x : string) :
  one_of_ignoring_case x ws -> headed ws x.
Proof. intros H. exists x, "". now rewrite append_nil_r. Qed.

Lemma headed_more (ws ws' : list string) (x : string) :
  (forall w, In w ws -> In w ws') -> headed ws x -> headed ws' x.
Proof.
  intros Hsub (w & rest & -> & Hw). exists w, rest. split; [reflexivity |].
  unfold one_of_ignoring_case in *. rewrite Exists_exists in *.
  destruct Hw as (k & Hk & Hsame). exists k.
  split; [| exact Hsame]. apply list_elem_of_In. apply Hsub. now apply list_elem_of_In.
Qed.

Lemma entity_patterns_headed (r : regex) (x : string) (caps : captures) :
  r ∈ componentPatterns ++ [vendorPattern] ->
  matches true r x [] caps -> x <> "" /\ headed entity_keywords x.
Proof.
  intros Hr Hm. split.
  - assert (solid r = true) as Hsolid.
    { pose proof componentPatterns_solid as Hc. rewrite forallb_forall in Hc.
      apply elem_of_app in Hr as [Hr | Hr].
      - apply Hc. now apply list_elem_of_In.
      - apply list_elem_of_singleton in Hr. subst r. apply vendorPattern_solid. }
    destruct (matched_solid r Hsolid x [] caps Hm) as (a & p & ->). discriminate.
  - unfold componentPatterns in Hr. cbn [app] in Hr.
    repeat (apply elem_of_cons in Hr as [-> | Hr]); [| | | | now apply elem_of_nil in Hr].
    + apply (matches_Alts_Lit component_words) in Hm as [Hm _]; [| discriminate].
      apply (headed_more component_words); [| now apply headed_word].
      intros w Hw. unfold entity_keywords. apply in_or_app. now left.
    + cbn [matches] in Hm. destruct Hm as (p1 & p2 & c1 & -> & H1 & _).
      apply (matches_Lit "version") in H1 as [H1 _].
      exists p1, p2. split; [reflexivity |].
      unfold one_of_ignoring_case, entity_keywords. apply Exists_app. right.
      now apply Exists_cons_hd.
    + cbn [matches] in Hm. destruct Hm as (p1 & p2 & c1 & -> & H1 & _).
      apply (matches_Lit "node") in H1 as [H1 _].
      exists p1, p2. split; [reflexivity |].
      unfold one_of_ignoring_case, entity_keywords. apply Exists_app. right.
      apply Exists_cons_tl. now apply Exists_cons_hd.
    + unfold vendorPattern in Hm. cbn [matches] in Hm.
      destruct Hm as (p1 & p2 & c1 & -> & H1 & _).
      apply (matches_Lit "vendor") in H1 as [H1 _].
      exists p1, p2. split; [reflexivity |].
      unfold one_of_ignoring_case, entity_keywords. apply Exists_app. right.
      do 2 apply Exists_cons_tl. now apply Exists_cons_hd.
Qed.

End Needs.

(** X21.  An input without a digit gets no metric at all: every one of the
    four patterns starts with a digit. *)
Theorem processInput_no_digit (rawInput : string) :
  all_chars not_digit rawInput = true ->
  extracted_metrics (processInput rawInput) =
  {| duration := None; temperature := None; voltage := None; quantity := None |}.
Proof.
  intros Hs. cbn [processInput extracted_metrics].
  unfold extract_duration, extract_temperature, extract_voltage, extract_quantity.
  rewrite (String_match_needs Char.is_digit timePattern), 
          (String_match_needs Char.is_digit tempPattern),
          (String_match_needs Char.is_digit voltagePattern),
          (String_match_needs Char.is_digit countPattern);
    solve [reflexivity | exact Hs | vm_compute; reflexivity].
Qed.

Lemma processInput_no_digit_witness :
  extracted_metrics (processInput "Voltage dropped for hours on several units") =
  {| duration := None; temperature := None; voltage := None; quantity := None |}.
Proof.
  apply (processInput_no_digit "Voltage dropped for hours on several units").
  reflexivity.
Defined.

(** X22.  Every entity [processInput] returns is a piece of the input, not
    empty, that begins, up to case, with one of the ten component words or
    with version, node or vendor.  An input in which a component word
    occurs, in whatever case, has at least one entity. *)
Theorem processInput_entities_found (rawInput : string) :
  (forall x,
      x ∈ entities (processInput rawInput) ->
      x <> "" /\ occurs_in rawInput x /\ headed entity_keywords x) /\
  (forall w,
      occurs_in rawInput w -> one_of_ignoring_case w component_words ->
      entities (processInput rawInput) <> []).
Proof.
  cbn [processInput entities]. rewrite Set_of_first_occurrences. split.
  - intros x Hx. rewrite first_occurrences_elem_of in Hx.
    apply extract_entities_elem in Hx as (r & ms & Hr & Hms & Hx).
    destruct (String_match_g_sound r rawInput ms x Hms Hx) as [Hocc [caps Hm]].
    destruct (entity_patterns_headed r x caps Hr Hm) as [Hne Hhead]. auto.
  - intros w Hocc Hw.
    assert (matches true (Alts (map Lit component_words)) w [] []) as Hm.
    { apply matches_Alts_Lit; [discriminate | now split]. }
    destruct (String_match_g_found _ rawInput w [] Hocc Hm) as (x & ms & Hfound).
    assert (extract_entities rawInput <> []) as Hne.
    { unfold extract_entities, componentPatterns. cbn [fold_left].
      change (Alts (map Lit ["motor"; "pcb"; "board"; "circuit"; "sensor"; "controller";
                             "relay"; "switch"; "battery"; "capacitor"]))
        with (Alts (map Lit component_words)).
      rewrite Hfound. cbn [app].
      assert (forall a b : list string, a <> [] -> a ++ b <> []) as Happ.
      { intros [|y a] b Ha; [contradiction | discriminate]. }
      destruct (String_match_g true vendorPattern rawInput);
        [apply Happ |];
        repeat match goal with
               | |- context [String_match_g true ?r rawInput] =>
                   destruct (String_match_g true r rawInput)
               end; try apply Happ; discriminate. }
    destruct (extract_entities rawInput) as [|y l]; [contradiction | discriminate].
Qed.

Lemma processInput_entities_found_witness :
  entities (processInput "the RELAY clicks") <> [] /\
  occurs_in "the RELAY clicks" "RELAY".
Proof.
  assert (occurs_in "the RELAY clicks" "RELAY") as Hocc by now exists "the ", " clicks".
  split; [| exact Hocc].
  apply (proj2 (processInput_entities_found "the RELAY clicks") "RELAY" Hocc).
  unfold one_of_ignoring_case, component_words.
  do 6 apply Exists_cons_tl. apply Exists_cons_hd. reflexivity.
Defined.

(** ** The voltage *)

Section Voltage.

Lemma canon_v (ch : ascii) :
  Char.canonicalize "v" = Char.canonicalize ch -> ch = "v"%char \/ ch = "V"%char.
Proof.
  intros H.
  pose proof (ascii_enum
    (fun c => implb (Ascii.eqb (Char.canonicalize "v") (Char.canonicalize c))
                    (Ascii.eqb c "v" || Ascii.eqb c "V")) eq_refl ch) as He.
  cbn beta in He. apply Ascii.eqb_eq in H. rewrite H in He. cbn [implb] in He.
  apply orb_true_iff in He as [He | He]; apply Ascii.eqb_eq in He; auto.
Qed.

Lemma canon_point (ch : ascii) :
  Char.canonicalize "." = Char.canonicalize ch -> ch = "."%char.
Proof.
  intros H.
  pose proof (ascii_enum
    (fun c => implb (Ascii.eqb (Char.canonicalize ".") (Char.canonicalize c))
                    (Ascii.eqb c ".")) eq_refl ch) as He.
  cbn beta in He. apply Ascii.eqb_eq in H. rewrite H in He. cbn [implb] in He.
  now apply Ascii.eqb_eq in He.
Qed.

Lemma same_as_point (p : string) : same_ignoring_case p "." -> p = ".".
Proof.
  intros H. apply same_ignoring_case_cons in H as (ch & p' & -> & Hc & Hp).
  apply (proj1 (same_ignoring_case_nil p')) in Hp. rewrite Hp.
  now rewrite (canon_point ch Hc).
Qed.

Lemma starts_with_v (u : string) :
  one_of_ignoring_case u ["v"; "volt"; "voltage"] ->
  exists v u', u = String v u' /\ (v = "v"%char \/ v = "V"%char).
Proof.
  unfold one_of_ignoring_case. rewrite !Exists_cons, Exists_nil.
  intros [H | [H | [H | []]]];
    apply same_ignoring_case_cons in H as (ch & p' & -> & Hc & _);
    exists ch, p'; (split; [reflexivity | now apply canon_v]).
Qed.

Lemma letter_v_unit (v : ascii) :
  v = "v"%char \/ v = "V"%char ->
  one_of_ignoring_case (String v "") ["v"; "volt"; "voltage"].
Proof. intros [-> | ->]; apply Exists_cons_hd; reflexivity. Qed.

Lemma voltage_matches (p : string) (caps : captures) :
  matches true voltagePattern p [] caps ->
  exists n ws v u',
    p = n +:+ ws +:+ String v u' /\ caps = [(2%nat, String v u'); (1%nat, n)] /\
    number_text n /\ all_chars Char.is_space ws = true /\
    (v = "v"%char \/ v = "V"%char).
Proof.
  unfold voltagePattern. cbn [matches].
  intros (n & q & c1 & -> & (c0 & Hn & ->) & ws & u & c2 & -> & Hws & c3 & Hu & ->).
  destruct Hn as (d1 & q1 & c4 & -> & Hd1 & dot & d2 & c5 & -> & Hdot & Hd2 & Hc0).
  apply matches_digits1 in Hd1 as (Hne & Hd1 & ->).
  apply matches_spaces0 in Hws as (Hws & ->).
  apply (matches_Alts_Lit ["v"; "volt"; "voltage"]) in Hu as [Hu ->]; [| discriminate].
  destruct (starts_with_v u Hu) as (v & u' & -> & Hv).
  rewrite (all_chars_ext _ Char.is_digit d2 (class_match_Digit true)) in Hd2.
  assert (c5 = [] /\ (dot = "" \/ dot = ".")) as [-> Hdot'].
  { destruct Hdot as [Hdot | [-> ->]]; [| auto].
    apply (matches_Lit ".") in Hdot as [Hdot ->]. split; [reflexivity |].
    right. now apply same_as_point. }
  subst c0.
  exists (d1 +:+ dot +:+ d2), ws, v, u'. repeat split; try assumption.
  destruct Hdot' as [-> | ->].
  - exists (d1 +:+ d2), "". rewrite append_nil_l, all_chars_app, Hd1, Hd2.
    repeat split; [| now left].
    destruct d1; [contradiction | rewrite append_cons; discriminate].
  - exists d1, d2. repeat split; try assumption. now right.
Qed.

Lemma voltage_matches_back (n ws : string) (v : ascii) :
  number_text n -> all_chars Char.is_space ws = true ->
  v = "v"%char \/ v = "V"%char ->
  matches true voltagePattern (n +:+ ws +:+ String v "") []
          [(2%nat, String v ""); (1%nat, n)].
Proof.
  intros (d1 & d2 & Hne & Hd1 & Hd2 & Hn) Hws Hv. unfold voltagePattern. cbn [matches].
  exists n, (ws +:+ String v ""), [(1%nat, n)]. split; [reflexivity |]. split.
  - exists []. split; [| reflexivity].
    destruct Hn as [-> | ->].
    + exists d1, "", []. split; [now rewrite append_nil_r |].
      split; [apply matches_digits1; auto |].
      exists "", "", []. split; [reflexivity |]. split; [now right | now split].
    + exists d1, ("." +:+ d2), []. split; [reflexivity |].
      split; [apply matches_digits1; auto |].
      exists ".", d2, []. split; [reflexivity |]. split.
      * left. apply (matches_Lit "."). now split.
      * split; [| reflexivity].
        now rewrite (all_chars_ext _ Char.is_digit d2 (class_match_Digit true)).
  - exists ws, (String v ""), [(1%nat, n)]. split; [reflexivity |]. split.
    + apply matches_spaces0. auto.
    + exists [(1%nat, n)]. split; [| reflexivity].
      apply (matches_Alts_Lit ["v"; "volt"; "voltage"]); [discriminate |].
      split; [now apply letter_v_unit | reflexivity].
Qed.

Lemma number_unique (n n' y y' : string) :
  number_text n -> number_text n' -> number_ends y -> number_ends y' ->
  n +:+ y = n' +:+ y' -> n = n'.
Proof.
  intros (d1 & d2 & _ & Hd1 & Hd2 & Hn) (e1 & e2 & _ & He1 & He2 & Hn') Hy Hy' Heq.
  assert (forall x, number_ends x -> run_ends Char.is_digit x) as Hends.
  { intros [|c x]; [contradiction | now intros [H _]]. }
  assert (forall x, run_ends Char.is_digit ("." +:+ x)) as Hpoint.
  { intros x. reflexivity. }
  destruct Hn as [-> | ->], Hn' as [-> | ->].
  - now destruct (run_unique Char.is_digit d1 e1 y y' Hd1 He1 (Hends _ Hy) (Hends _ Hy') Heq).
  - rewrite !append_assoc in Heq.
    destruct (run_unique Char.is_digit d1 e1 y _ Hd1 He1 (Hends _ Hy) (Hpoint _) Heq)
      as [_ ->].
    destruct Hy as [_ Hy]. now contradiction Hy.
  - rewrite !append_assoc in Heq.
    destruct (run_unique Char.is_digit d1 e1 _ y' Hd1 He1 (Hpoint _) (Hends _ Hy') Heq)
      as [_ <-].
    destruct Hy' as [_ Hy']. now contradiction Hy'.
  - rewrite !append_assoc in Heq.
    destruct (run_unique Char.is_digit d1 e1 _ _ Hd1 He1 (Hpoint _) (Hpoint _) Heq)
      as [-> Hrest].
    injection Hrest as Hrest.
    now destruct (run_unique Char.is_digit d2 e2 y y' Hd2 He2 (Hends _ Hy) (Hends _ Hy')
                    Hrest) as [-> _].
Qed.

Lemma voltage_tail (ws : string) (v : ascii) (rest : string) :
  all_chars Char.is_space ws = true -> v = "v"%char \/ v = "V"%char ->
  number_ends (ws +:+ String v rest).
Proof.
  intros Hws Hv. destruct ws as [|c ws].
  - rewrite append_nil_l. destruct Hv as [-> | ->]; split; (reflexivity || discriminate).
  - rewrite append_cons. cbn [all_chars] in Hws. apply andb_true_iff in Hws as [Hc _].
    split; [now apply space_not_digit |]. intros ->. discriminate.
Qed.

Lemma voltage_at_unique (s : string) (i : nat) (n n' : string) :
  voltage_at s i n -> voltage_at s i n' -> n = n'.
Proof.
  intros (pre & ws & v & rest & Hs & Hi & Hn & Hws & Hv)
         (pre' & ws' & v' & rest' & Hs' & Hi' & Hn' & Hws' & Hv').
  rewrite Hs in Hs'. apply append_inj_length in Hs' as [_ Heq]; [| congruence].
  apply (number_unique n n' _ _ Hn Hn' (voltage_tail ws v rest Hws Hv)
                       (voltage_tail ws' v' rest' Hws' Hv') Heq).
Qed.

Lemma String_match_voltage (s : string) (m : match_result) :
  String_match true voltagePattern s = Some m ->
  first_voltage s (index m) (group 1 m).
Proof.
  unfold String_match. intros H.
  apply search_sound in H as (pre & Hi & Hs & Hm & Hleft).
  apply voltage_matches in Hm as (n & ws & v & u' & Hp & Hcaps & Hn & Hws & Hv).
  unfold group. rewrite Hcaps. cbn [capture Nat.eqb]. split.
  - exists pre, ws, v, (u' +:+ after m). rewrite Hs, Hp, !append_assoc, append_cons.
    repeat split; try assumption. now rewrite Hi.
  - intros j n' (pre' & ws' & v' & rest' & Hs' & Hj & Hn' & Hws' & Hv').
    rewrite Hi, <- Hj. cbn [Nat.add].
    apply (Hleft pre' (n' +:+ ws' +:+ String v' "") rest'
                 [(2%nat, String v' ""); (1%nat, n')]).
    + now rewrite Hs', !append_assoc, append_cons, append_nil_l.
    + now apply voltage_matches_back.
Qed.

Lemma String_match_no_voltage (s : string) :
  String_match true voltagePattern s = None <-> no_voltage s.
Proof.
  split.
  - unfold String_match. intros H i n (pre & ws & v & rest & Hs & Hi & Hn & Hws & Hv).
    eapply (search_complete true voltagePattern s 0%nat H pre
              (n +:+ ws +:+ String v "") rest).
    + now rewrite Hs, !append_assoc, append_cons, append_nil_l.
    + now apply voltage_matches_back.
  - intros Hno. destruct (String_match true voltagePattern s) as [m|] eqn:Hm;
      [| reflexivity].
    apply String_match_voltage in Hm as [Hm _]. now apply Hno in Hm.
Qed.

End Voltage.

(** X23.  When a number (digits, then maybe a point and more digits) is
    followed, after white space or none, by the letter v in either case,
    the voltage stored is the number of the leftmost such place followed by
    a capital V: the alternatives volt and voltage never decide anything,
    and any word that begins with v will do.  When there is no such place,
    and only then, no voltage is stored. *)
Theorem processInput_voltage (rawInput : string) :
  (forall i n,
      first_voltage rawInput i n ->
      voltage (extracted_metrics (processInput rawInput)) = Some (n +:+ "V")) /\
  (voltage (extracted_metrics (processInput rawInput)) = None <-> no_voltage rawInput).
Proof.
  cbn [processInput extracted_metrics voltage]. unfold extract_voltage. split.
  - intros i n [Hat Hleft].
    destruct (String_match true voltagePattern rawInput) as [m|] eqn:Hm.
    + apply String_match_voltage in Hm as [Hat' Hleft'].
      assert (index m = i) as Hi.
      { apply Nat.le_antisymm; [eapply Hleft', Hat | eapply Hleft, Hat']. }
      rewrite Hi in Hat'. now rewrite (voltage_at_unique rawInput i _ n Hat' Hat).
    + apply String_match_no_voltage in Hm. now apply Hm in Hat.
  - rewrite <- String_match_no_voltage.
    destruct (String_match true voltagePattern rawInput); split; congruence.
Qed.

Lemma processInput_voltage_witness :
  voltage (extracted_metrics (processInput "Supply at 11.5 volts, 5 vendors late")) =
    Some "11.5V" /\
  voltage (extracted_metrics (processInput "5 vendors late")) = Some "5V".
Proof.
  split.
  - apply (proj1 (processInput_voltage "Supply at 11.5 volts, 5 vendors late")
                 10%nat "11.5").
    exact (String_match_voltage "Supply at 11.5 volts, 5 vendors late"
             (MatchResult 10 "11.5 v" [(2%nat, "v"); (1%nat, "11.5")]
                          "olts, 5 vendors late") eq_refl).
  - apply (proj1 (processInput_voltage "5 vendors late") 0%nat "5").
    exact (String_match_voltage "5 vendors late"
             (MatchResult 0 "5 v" [(2%nat, "v"); (1%nat, "5")] "endors late") eq_refl).
Defined.

(** ** The page and the store *)

Section Page.

Lemma sort_newest_snoc (l : list Entry) (e : Entry) :
  Forall (fun x : Entry => timestamp x < timestamp e) l ->
  sort_newest (l ++ [e]) = e :: sort_newest l.
Proof.
  induction 1 as [|x l Hx Hl IH]; [reflexivity |].
  cbn [app sort_newest fold_right]. fold (sort_newest (l ++ [e])). fold (sort_newest l).
  rewrite IH. cbn [insert_newest].
  destruct (Z.leb_spec (timestamp e) (timestamp x)); [lia | reflexivity].
Qed.

Lemma fetchEntries_value (store : list Entry) :
  fetchEntries store = (sort_newest store, sort_newest store).
Proof.
  unfold fetchEntries. rewrite get_entries_value.
  now rewrite unfiltered_selects_all by reflexivity.
Qed.

End Page.

(** X24.  The page stays in step with the backend when the clock moves
    on: if the list of the page is what [fetchEntries] would load and every
    stored entry is older than the clock, then after [handleSubmit] the
    list of the page, with the new entry put in front, is again what
    [fetchEntries] would load. *)
Theorem handleSubmit_in_step
  (store page store' page' : list Entry) (uuid : string) (now : Z) (input : string) :
  page = snd (fetchEntries store) ->
  Forall (fun e : Entry => timestamp e < now) store ->
  handleSubmit store page uuid now input = (store', page') ->
  page' = snd (fetchEntries store').
Proof.
  intros -> Hold. unfold handleSubmit, post_entry.
  destruct (client_sends input).
  - destruct (Nat.eqb _ 0).
    + now intros [= <- <-].
    + intros [= <- <-]. rewrite !fetchEntries_value. cbn [snd].
      symmetry. now apply sort_newest_snoc.
  - now intros [= <- <-].
Qed.

Lemma handleSubmit_in_step_witness :
  map id (snd (handleSubmit sample_entries (snd (fetchEntries sample_entries))
                            "e4" (sample_now + 1) "Relay fault")) =
  ["e4"; "e3"; "e2"; "e1"] /\
  snd (handleSubmit sample_entries (snd (fetchEntries sample_entries))
                    "e4" (sample_now + 1) "Relay fault") =
  snd (fetchEntries (fst (handleSubmit sample_entries (snd (fetchEntries sample_entries))
                                       "e4" (sample_now + 1) "Relay fault"))).
Proof.
  split; [vm_compute; reflexivity |].
  apply (handleSubmit_in_step sample_entries (snd (fetchEntries sample_entries)) _ _
                              "e4" (sample_now + 1) "Relay fault");
    [reflexivity | | apply surjective_pairing].
  repeat constructor; vm_compute; reflexivity.
Defined.

(** Two entries made in the same millisecond: the page shows the new one
    first, the backend lists it second. *)
Example handleSubmit_tie :
  let store := [stored "a" sample_now "Motor fault"] in
  let page := snd (fetchEntries store) in
  map id (snd (handleSubmit store page "b" sample_now "Relay fault")) = ["b"; "a"] /\
  map id (snd (fetchEntries (fst (handleSubmit store page "b" sample_now "Relay fault")))) =
    ["a"; "b"].
Proof. split; vm_compute; reflexivity. Qed.

(** ** Finding what was posted *)

Section Finding.

Lemma includes_refl (s : string) : includes s s = true.
Proof. apply includes_true_iff. exists "", "". now rewrite append_nil_l, append_nil_r. Qed.

Lemma get_entries_elem (entries : list Entry) (c s q : option string) (e : Entry) :
  e ∈ snd (get_entries entries c s q) <-> e ∈ entries /\ selects c s q e = true.
Proof.
  rewrite get_entries_value. cbn [snd].
  rewrite sort_newest_perm, !list_elem_of_In. apply filter_In.
Qed.

Lemma given_Some (q : string) : q <> "" -> given (Some q) = Some q.
Proof. now destruct q. Qed.

Lemma entity_not_empty (rawInput x : string) :
  x ∈ entities (processInput rawInput) -> x <> "".
Proof.
  cbn [processInput entities]. rewrite Set_of_first_occurrences, first_occurrences_elem_of.
  intros (r & ms & Hr & Hms & Hx)%extract_entities_elem.
  destruct (String_match_g_sound r rawInput ms x Hms Hx) as [_ [caps Hm]].
  now destruct (entity_patterns_headed r x caps Hr Hm).
Qed.

Lemma filter_all {A} (f : A -> bool) (l : list A) :
  Forall (fun x => f x = true) l -> List.filter f l = l.
Proof.
  induction 1 as [|x l Hx Hl IH]; [reflexivity |].
  cbn [List.filter]. now rewrite Hx, IH.
Qed.

End Finding.

(** X25.  What was posted can be found: the list [GET /api/entries] sends
    holds the new entry when the query asks for its category, its severity
    and, as the search text, its stored input in whatever case, or one of
    its entities. *)
Theorem post_then_search
  (entries entries' : list Entry) (uuid : string) (now : Z) (raw : string) (e : Entry) :
  post_entry entries uuid now raw = (entries', Some e) ->
  e ∈ snd (get_entries entries' (Some (Category_name (category e)))
                       (Some (Severity_name (severity e))) (Some (raw_input e))) /\
  (forall q, toLowerCase q = toLowerCase (raw_input e) ->
             e ∈ snd (get_entries entries' None None (Some q))) /\
  (forall x, x ∈ entities e -> e ∈ snd (get_entries entries' None None (Some x))).
Proof.
  unfold post_entry. destruct (trim raw) as [|a t] eqn:Ht; [discriminate |].
  cbn [String.length Nat.eqb]. intros [= <- <-].
  cbn [category severity entities raw_input processed].
  assert (forall x : Entry, x ∈ entries ++ [x]) as Hlast.
  { intros x. apply elem_of_app. right. now left. }
  split; [| split].
  - apply get_entries_elem. split; [apply Hlast |].
    unfold selects. rewrite !given_Some.
    + rewrite !String.eqb_refl, orb_true_r. cbn [andb].
      unfold search_hit. cbn [raw_input]. now rewrite includes_refl.
    + discriminate.
    + now destruct (severity (processInput raw)).
    + now destruct (category (processInput raw)).
  - intros q Hq. apply get_entries_elem. split; [apply Hlast |].
    unfold selects. rewrite (given_Some q) by (intros ->; discriminate).
    cbn [given andb]. unfold search_hit. cbn [raw_input].
    now rewrite Hq, includes_refl.
  - intros x Hx. apply get_entries_elem. split; [apply Hlast |].
    unfold selects. rewrite (given_Some x) by now apply entity_not_empty in Hx.
    cbn [given andb]. unfold search_hit. cbn [entities processed]. apply orb_true_iff. right.
    apply existsb_exists. exists x. split; [now apply list_elem_of_In | apply includes_refl].
Qed.

Lemma post_then_search_witness :
  stored "e4" sample_now " Relay 7 FAILED " ∈
    snd (get_entries (sample_entries ++ [stored "e4" sample_now " Relay 7 FAILED "])
                     None None (Some "relay 7 failed")).
Proof.
  destruct (post_then_search sample_entries _ "e4" sample_now " Relay 7 FAILED "
              (stored "e4" sample_now " Relay 7 FAILED ") eq_refl) as (_ & Hq & _).
  exact (Hq "relay 7 failed" eq_refl).
Defined.

(** X26.  A period whose window starts at a valid date, at or before the
    timestamp of every stored entry, makes the trends agree with the
    analytics: for a numeral [d] with [d] days at most 8.64e15 ms and [now]
    less [d] days not before the first date there is, and a clock from
    which a week can be taken away, [total_entries] is the total, and the
    category and severity counts are the same objects. *)
Theorem trends_cover_all (entries : list Entry) (now : Z) (days : string) (d : Z) :
  days <> "" -> all_chars Char.is_digit days = true -> decimal_value days = d ->
  window_start_valid now d -> week_before_valid now ->
  Forall (fun e : Entry => now - d * Date.msPerDay <= timestamp e) entries ->
  exists a,
    analytics entries now = Some a /\
    total_entries (trends entries now (Some days)) = total a /\
    categories (trends entries now (Some days)) = by_category a /\
    severities (trends entries now (Some days)) = by_severity a.
Proof.
  intros Hne Hdigits Hd (Hmax & Hlo & Hhi) Hnow Hall.
  eexists. split; [now apply analytics_value |].
  rewrite (trends_window entries now days d) by assumption.
  cbn [total_entries categories severities total by_category by_severity]. cbn zeta.
  rewrite filter_all; [auto |].
  eapply Forall_impl; [exact Hall |]. cbn beta. intros e He. now apply Z.leb_le.
Qed.

Lemma trends_cover_all_witness :
  exists a,
    analytics sample_entries sample_now = Some a /\
    total_entries (trends sample_entries sample_now (Some "40")) = total a.
Proof.
  assert (window_start_valid sample_now 40) as Hw.
  { unfold window_start_valid, sample_now, Date.maxTime, Date.msPerDay. lia. }
  destruct (trends_cover_all sample_entries sample_now "40" 40
              ltac:(discriminate) eq_refl eq_refl Hw sample_now_ok)
    as (a & Ha & Ht & _).
  { repeat constructor; vm_compute; discriminate. }
  exists a. now split.
Defined.

(** Without a valid start the trends lose every entry and the analytics
    none. *)
Example trends_cover_lost :
  Forall (fun e : Entry => sample_now - 200000000 * Date.msPerDay <= timestamp e)
         sample_entries /\
  total_entries (trends sample_entries sample_now (Some "200000000")) = 0%nat /\
  option_map total (analytics sample_entries sample_now) = Some 3%nat.
Proof.
  split; [repeat constructor; vm_compute; discriminate |].
  split; vm_compute; reflexivity.
Qed.

(** ** The entity ranking and the order of the store *)

Section Reordered.

Lemma times_perm (k : string) (l l' : list string) : l ≡ₚ l' -> times k l = times k l'.
Proof. intros Hp. unfold times. now rewrite Hp. Qed.

Lemma entity_mentions_perm (entries entries' : list Entry) :
  entries ≡ₚ entries' -> entity_mentions entries ≡ₚ entity_mentions entries'.
Proof. intros Hp. unfold entity_mentions. now apply Permutation_flat_map. Qed.

Lemma entity_counts_perm (entries entries' : list Entry) :
  entries ≡ₚ entries' -> entity_counts entries ≡ₚ entity_counts entries'.
Proof.
  intros Hp. pose proof (entity_mentions_perm _ _ Hp) as Hm.
  destruct (entity_counts_tallied entries) as [Hnd Hobj].
  destruct (entity_counts_tallied entries') as [Hnd' Hobj'].
  apply NoDup_Permutation; [now apply NoDup_fmap_1 in Hnd | now apply NoDup_fmap_1 in Hnd' |].
  intros [k v]. rewrite Hobj, Hobj', (times_perm k _ _ Hm). now rewrite Hm.
Qed.

Lemma sorted_counts (l l' : list (string * nat)) :
  l ≡ₚ l' -> (sort_desc l).*2 = (sort_desc l').*2.
Proof.
  intros Hp.
  apply (StronglySorted_unique_strong (fun a b : nat => (b <= a)%nat)).
  - intros x1 x2 _ _ H1 H2. lia.
  - apply (StronglySorted_fmap snd (fun a b : string * nat => (snd b <= snd a)%nat));
      [auto | apply sort_desc_sorted].
  - apply (StronglySorted_fmap snd (fun a b : string * nat => (snd b <= snd a)%nat));
      [auto | apply sort_desc_sorted].
  - now rewrite !sort_desc_perm, Hp.
Qed.

End Reordered.

(** X27.  Listing the entries, and any other reordering of the store,
    leaves the counts of the top entities as they are, one by one; which
    entity stands beside a count may change where counts are equal. *)
Theorem top_entities_reordered (entries : list Entry) :
  (forall entries',
      entries' ≡ₚ entries ->
      (top_entities_of entries').*2 = (top_entities_of entries).*2) /\
  (forall c s q,
      (top_entities_of (fst (get_entries entries c s q))).*2 =
      (top_entities_of entries).*2).
Proof.
  assert (forall entries',
             entries' ≡ₚ entries ->
             (top_entities_of entries').*2 = (top_entities_of entries).*2) as Hperm.
  { intros entries' Hp. rewrite !top_entities_value, !fmap_take. f_equal.
    now apply sorted_counts, entity_counts_perm. }
  split; [exact Hperm |].
  intros c s q. apply Hperm. rewrite get_entries_value. cbn [fst].
  destruct (unfiltered c s q); [apply sort_newest_perm | reflexivity].
Qed.

(** ** The keys of the counters *)

Section Keys.

Lemma tally_fold_exact {A} (key : A -> string) (l : list A) (k : string) :
  forall obj : gmap string nat,
    fold_left (fun o x => tally (key x) o) l obj !! k =
    match length (filter (fun x => key x = k) l) with
    | O => obj !! k
    | S n => Some (default 0%nat (obj !! k) + S n)%nat
    end.
Proof.
  induction l as [|x l IH]; intros obj; cbn [fold_left]; [reflexivity |].
  rewrite IH. unfold tally. destruct (decide (key x = k)) as [Heq | Hne].
  - rewrite filter_cons_True by exact Heq. rewrite Heq, lookup_insert_eq.
    cbn [length]. destruct (length (filter (fun x => key x = k) l)); simpl; f_equal; lia.
  - rewrite filter_cons_False by exact Hne. now rewrite lookup_insert_ne.
Qed.

Lemma counter_lookup {A} (key : A -> string) (l : list A) (k : string) :
  fold_left (fun o x => tally (key x) o) l ∅ !! k =
  match length (filter (fun x => key x = k) l) with
  | O => None
  | S n => Some (S n)
  end.
Proof. rewrite tally_fold_exact, lookup_empty. reflexivity. Qed.

Lemma filter_by_name {A B} `{EqDecision B} (name : B -> string) (f : A -> B)
      (l : list A) (b : B) :
  (forall x y, name x = name y -> x = y) ->
  filter (fun x => name (f x) = name b) l = filter (fun x => f x = b) l.
Proof.
  intros Hinj. apply list_filter_iff. intros x. split; [apply Hinj | congruence].
Qed.

Lemma filter_no_name {A} (P : A -> Prop) `{!forall x, Decision (P x)} (l : list A) :
  (forall x, ~ P x) -> filter P l = [].
Proof.
  intros Hno. induction l as [|x l IH]; [reflexivity |].
  now rewrite filter_cons_False by apply Hno.
Qed.

Lemma Category_name_inj (x y : Category) : Category_name x = Category_name y -> x = y.
Proof. destruct x, y; cbn; congruence. Qed.

Lemma Severity_name_inj (x y : Severity) : Severity_name x = Severity_name y -> x = y.
Proof. destruct x, y; cbn; congruence. Qed.

End Keys.

(** X28.  The counters of the analytics hold no zero: a category or a
    severity is a key of its counter exactly when an entry has it, with
    the number of those entries for its value, and nothing else is a
    key. *)
Theorem analytics_keys (entries : list Entry) (now : Z) (a : Analytics) :
  analytics entries now = Some a ->
  (forall c : Category,
      by_category a !! Category_name c =
      match length (filter (fun e : Entry => category e = c) entries) with
      | O => None
      | S n => Some (S n)
      end) /\
  (forall s : Severity,
      by_severity a !! Severity_name s =
      match length (filter (fun e : Entry => severity e = s) entries) with
      | O => None
      | S n => Some (S n)
      end) /\
  (forall k, (forall c, k <> Category_name c) -> by_category a !! k = None) /\
  (forall k, (forall s, k <> Severity_name s) -> by_severity a !! k = None).
Proof.
  unfold analytics. destruct (mapM _ _) as [trend|]; [| discriminate].
  intros [= <-]. cbn [by_category by_severity].
  unfold count_by_category, count_by_severity. split; [| split; [| split]].
  - intros c. rewrite (counter_lookup (fun e : Entry => Category_name (category e))).
    now rewrite (filter_by_name Category_name (fun e : Entry => category e) entries c
                   Category_name_inj).
  - intros s. rewrite (counter_lookup (fun e : Entry => Severity_name (severity e))).
    now rewrite (filter_by_name Severity_name (fun e : Entry => severity e) entries s
                   Severity_name_inj).
  - intros k Hk. rewrite (counter_lookup (fun e : Entry => Category_name (category e))).
    rewrite filter_no_name; [reflexivity |]. intros e He. now apply (Hk (category e)).
  - intros k Hk. rewrite (counter_lookup (fun e : Entry => Severity_name (severity e))).
    rewrite filter_no_name; [reflexivity |]. intros e He. now apply (Hk (severity e)).
Qed.

Lemma analytics_keys_witness :
  exists a,
    analytics sample_entries sample_now = Some a /\
    by_category a !! "event" = None /\ by_category a !! "issue" = Some 1%nat.
Proof.
  eexists. split; [apply analytics_value, sample_now_ok |].
  destruct (analytics_keys sample_entries sample_now _
              (analytics_value sample_entries sample_now sample_now_ok))
    as (Hc & _).
  split; [exact (Hc event) | exact (Hc issue)].
Defined.

(** ** RegExp objects *)

Section Objects.

Lemma drop_string_0 (s : string) : drop_string 0 s = s.
Proof. now destruct s. Qed.

Lemma drop_string_app (a b : string) : drop_string (String.length a) (a +:+ b) = b.
Proof.
  induction a as [|c a IH]; [rewrite append_nil_l; apply drop_string_0 |].
  rewrite append_cons. exact IH.
Qed.

Lemma drop_string_add (i k : nat) :
  forall s, drop_string (i + k) s = drop_string k (drop_string i s).
Proof.
  induction i as [|i IH]; intros s; [now rewrite drop_string_0 |].
  destruct s as [|c s]; [now destruct k | apply IH].
Qed.

Lemma drop_string_length (i : nat) :
  forall s, String.length (drop_string i s) = (String.length s - i)%nat.
Proof.
  induction i as [|i IH]; intros s; [rewrite drop_string_0; lia |].
  destruct s as [|c s]; [reflexivity | apply IH].
Qed.

(** Where a match found from [i] on ends, and what is left of the input
    there. *)
Lemma search_end (ic : bool) (r : regex) (S : string) (i : nat) (m : match_result) :
  (i <= String.length S)%nat ->
  search ic r i (drop_string i S) = Some m ->
  (i + String.length (matched m) <= index m + String.length (matched m))%nat /\
  (index m + String.length (matched m) <= String.length S)%nat /\
  drop_string (index m + String.length (matched m)) S = after m.
Proof.
  intros Hi Hs. apply search_sound in Hs as (pre & Hidx & Heq & _ & _).
  pose proof (f_equal String.length Heq) as Hlen.
  rewrite drop_string_length, !length_append in Hlen.
  split; [lia |]. split; [lia |].
  rewrite Hidx, <- Nat.add_assoc, drop_string_add, Heq, <- append_assoc.
  rewrite <- length_append. apply drop_string_app.
Qed.

Lemma world_eta (w : World) : mkWorld (entries w) (regexps w) = w.
Proof. now destruct w. Qed.

Lemma with_lastIndex_value (a n : nat) (w : World) (R : RegExpObject) :
  regexps w !! a = Some R ->
  with_lastIndex a n w =
  mkWorld (entries w) (<[a := mkRegExp (source R) (global R) (ignoreCase R) n]> (regexps w)).
Proof. intros H. unfold with_lastIndex, set_lastIndex. cbn [snd]. now rewrite H. Qed.

Lemma with_lastIndex_lookup (a n : nat) (w : World) (R : RegExpObject) :
  regexps w !! a = Some R ->
  regexps (with_lastIndex a n w) !! a =
  Some (mkRegExp (source R) (global R) (ignoreCase R) n).
Proof.
  intros H. rewrite (with_lastIndex_value a n w R H). cbn [regexps].
  apply list_lookup_insert_eq. now apply lookup_lt_Some in H.
Qed.

Lemma with_lastIndex_again (a n n' : nat) (w : World) (R : RegExpObject) :
  regexps w !! a = Some R ->
  with_lastIndex a n' (with_lastIndex a n w) = with_lastIndex a n' w.
Proof.
  intros H.
  rewrite (with_lastIndex_value a n' _ _ (with_lastIndex_lookup a n w R H)).
  rewrite (with_lastIndex_value a n w R H), (with_lastIndex_value a n' w R H).
  cbn [entries regexps source global ignoreCase]. now rewrite list_insert_insert_eq.
Qed.

Lemma with_lastIndex_same (a : nat) (w : World) (R : RegExpObject) :
  regexps w !! a = Some R -> with_lastIndex a (lastIndex R) w = w.
Proof.
  intros H. rewrite (with_lastIndex_value a _ w R H).
  replace (mkRegExp (source R) (global R) (ignoreCase R) (lastIndex R)) with R
    by now destruct R.
  rewrite list_insert_id by exact H. apply world_eta.
Qed.

Lemma RegExp_exec_global (a : nat) (S : string) (w : World) (R : RegExpObject) :
  regexps w !! a = Some R -> global R = true ->
  RegExp_exec a S w =
  if (String.length S <? lastIndex R)%nat then (None, with_lastIndex a 0 w)
  else
    match search (ignoreCase R) (source R) (lastIndex R) (drop_string (lastIndex R) S) with
    | None => (None, with_lastIndex a 0 w)
    | Some m => (Some m, with_lastIndex a (index m + String.length (matched m)) w)
    end.
Proof.
  intros H Hg. unfold RegExp_exec, bind, get_RegExp. rewrite H. cbn [default from_option].
  unfold Datatypes.id.
  rewrite Hg. destruct (String.length S <? lastIndex R)%nat; [reflexivity |].
  now destruct (search _ _ _ _).
Qed.

Lemma RegExp_exec_once (a : nat) (S : string) (w : World) (R : RegExpObject) :
  regexps w !! a = Some R -> global R = false ->
  RegExp_exec a S w = (String_match (ignoreCase R) (source R) S, w).
Proof.
  intros H Hg. unfold RegExp_exec, bind, get_RegExp. rewrite H. cbn [default from_option].
  unfold Datatypes.id.
  rewrite Hg. cbn [Nat.ltb Nat.leb]. rewrite drop_string_0. unfold String_match.
  now destruct (search _ _ _ _).
Qed.

Lemma all_from_step (ic : bool) (r : regex) (S : string) (i : nat) (m : match_result) :
  (i <= String.length S)%nat ->
  search ic r i (drop_string i S) = Some m ->
  all_from ic r S i =
  matched m ::
    all_from ic r S
             (match matched m with
              | EmptyString => Datatypes.S (index m + String.length (matched m))
              | String _ _ => index m + String.length (matched m)
              end)%nat.
Proof.
  intros Hi Hs. destruct (search_end ic r S i m Hi Hs) as (Hlo & Hhi & Hdrop).
  unfold all_from at 1. destruct (Nat.ltb_spec (String.length S) i) as [|_]; [lia |].
  cbn [search_all]. rewrite Hs. f_equal.
  pose proof (f_equal String.length Hdrop) as Hlen. rewrite drop_string_length in Hlen.
  destruct (matched m) as [|c p] eqn:Hm.
  - cbn [String.length] in *. rewrite Nat.add_0_r in *. unfold all_from.
    destruct (after m) as [|d s'] eqn:Ha.
    + cbn [String.length] in Hlen.
      destruct (Nat.ltb_spec (String.length S) (Datatypes.S (index m))); [reflexivity | lia].
    + cbn [String.length] in Hlen.
      destruct (Nat.ltb_spec (String.length S) (Datatypes.S (index m))); [lia |].
      assert (drop_string (Datatypes.S (index m)) S = s') as ->.
      { replace (Datatypes.S (index m)) with (index m + 1)%nat by lia.
        now rewrite drop_string_add, Hdrop. }
      destruct (String.length S - i)%nat as [|f] eqn:Hf; [lia |].
      apply search_all_fuel; lia.
  - cbn [String.length] in *. unfold all_from.
    destruct (Nat.ltb_spec (String.length S) (index m + Datatypes.S (String.length p)));
      [lia |].
    rewrite Hdrop.
    destruct (String.length S - i)%nat as [|f] eqn:Hf; [lia |].
    apply search_all_fuel; lia.
Qed.

(** The loop collects what [search_all] finds, and leaves [lastIndex]
    at 0. *)
Lemma match_loop_value (a : nat) (S : string) (fuel : nat) :
  forall (A : list string) (w : World) (R : RegExpObject),
    regexps w !! a = Some R -> global R = true ->
    (String.length S + 1 - lastIndex R < fuel)%nat ->
    match_loop fuel a S A w =
    (A ++ all_from (ignoreCase R) (source R) S (lastIndex R), with_lastIndex a 0 w).
Proof.
  induction fuel as [|fuel IH]; intros A w R HR Hg Hfuel; [lia |].
  cbn [match_loop]. unfold bind at 1. rewrite (RegExp_exec_global a S w R HR Hg).
  destruct (Nat.ltb_spec (String.length S) (lastIndex R)) as [Hout | Hin].
  { unfold all_from. destruct (Nat.ltb_spec (String.length S) (lastIndex R)); [| lia].
    now rewrite app_nil_r. }
  destruct (search (ignoreCase R) (source R) (lastIndex R) (drop_string (lastIndex R) S))
    as [m|] eqn:Hs.
  2:{ unfold all_from. destruct (Nat.ltb_spec (String.length S) (lastIndex R)); [lia |].
      cbn [search_all]. rewrite Hs. now rewrite app_nil_r. }
  destruct (search_end _ _ S _ m Hin Hs) as (Hlo & Hhi & _).
  rewrite (all_from_step _ _ S _ m Hin Hs).
  set (j := (index m + String.length (matched m))%nat) in *.
  pose proof (with_lastIndex_lookup a j w R HR) as H1.
  unfold bind. destruct (matched m) as [|c p] eqn:Hm.
  - unfold get_RegExp. rewrite H1. cbn [default from_option]. unfold Datatypes.id.
    cbn [lastIndex].
    change (snd (set_lastIndex a (Datatypes.S j) (with_lastIndex a j w)))
      with (with_lastIndex a (Datatypes.S j) (with_lastIndex a j w)).
    assert (set_lastIndex a (Datatypes.S j) (with_lastIndex a j w) =
            (tt, with_lastIndex a (Datatypes.S j) w)) as ->.
    { rewrite <- (with_lastIndex_again a j (Datatypes.S j) w R HR). reflexivity. }
    pose proof (with_lastIndex_lookup a (Datatypes.S j) w R HR) as H2.
    rewrite (IH _ _ _ H2 Hg) by (cbn [lastIndex String.length] in *; lia).
    cbn [ignoreCase source lastIndex].
    rewrite (with_lastIndex_again a _ 0 w R HR), <- app_assoc. reflexivity.
  - cbn [ret].
    rewrite (IH _ _ _ H1 Hg) by (cbn [lastIndex String.length] in *; lia).
    cbn [ignoreCase source lastIndex].
    rewrite (with_lastIndex_again a _ 0 w R HR), <- app_assoc. reflexivity.
Qed.

(** [match] with the [g] flag: all matches, whatever [lastIndex] was, and
    [lastIndex] 0 afterwards. *)
Lemma match_global (S : string) (a : nat) (w : World) (R : RegExpObject) :
  regexps w !! a = Some R -> global R = true ->
  String_prototype_match S a w =
  (all_value (String_match_g (ignoreCase R) (source R) S), with_lastIndex a 0 w).
Proof.
  intros HR Hg. unfold String_prototype_match. unfold bind at 1. unfold get_RegExp.
  rewrite HR. cbn [default from_option]. unfold Datatypes.id. rewrite Hg.
  unfold bind.
  change (set_lastIndex a 0 w) with (tt, with_lastIndex a 0 w). cbn iota beta.
  pose proof (with_lastIndex_lookup a 0 w R HR) as H0.
  rewrite (match_loop_value a S _ [] _ _ H0 Hg) by (cbn [lastIndex]; lia).
  cbn [ignoreCase source lastIndex app].
  rewrite (with_lastIndex_again a 0 0 w R HR).
  unfold all_from, String_match_g. cbn [Nat.ltb Nat.leb].
  rewrite Nat.sub_0_r, drop_string_0.
  now destruct (search_all _ _ _ _ _).
Qed.

(** [match] without the [g] flag: the first match, whatever [lastIndex]
    was, and nothing written. *)
Lemma match_once (S : string) (a : nat) (w : World) (R : RegExpObject) :
  regexps w !! a = Some R -> global R = false ->
  String_prototype_match S a w =
  (exec_value (String_match (ignoreCase R) (source R) S), w).
Proof.
  intros HR Hg. unfold String_prototype_match. unfold bind at 1. unfold get_RegExp.
  rewrite HR. cbn [default from_option]. unfold Datatypes.id. rewrite Hg.
  unfold bind. rewrite (RegExp_exec_once a S w R HR Hg).
  now destruct (String_match _ _ _).
Qed.

Lemma new_RegExps_value (rs : list regex) (g i : bool) :
  forall w,
    new_RegExps rs g i w =
    (seq (length (regexps w)) (length rs),
     mkWorld (entries w) (regexps w ++ map (fun r => mkRegExp r g i 0) rs)).
Proof.
  induction rs as [|r rs IH]; intros w; cbn [new_RegExps].
  - unfold ret. cbn [map length seq]. now rewrite app_nil_r, world_eta.
  - unfold bind, new_RegExp. rewrite IH. cbn [entries regexps ret map length seq].
    rewrite length_app, <- app_assoc. cbn [length app].
    now rewrite Nat.add_1_r.
Qed.

Lemma literals_found (rs : list regex) (g i : bool) :
  forall L : list RegExpObject,
    Forall2 (fun a r => (L ++ map (fun r => mkRegExp r g i 0) rs) !! a =
                        Some (mkRegExp r g i 0))
            (seq (length L) (length rs)) rs.
Proof.
  induction rs as [|r rs IH]; intros L; cbn [map length seq]; constructor.
  - now apply list_lookup_middle.
  - specialize (IH (L ++ [mkRegExp r g i 0])).
    rewrite length_app, <- app_assoc in IH. cbn [length app] in IH.
    now rewrite Nat.add_1_r in IH.
Qed.

Lemma forEach_matches (rawInput : string) (rs : list regex) :
  forall (patterns : list nat) (acc : list string) (w : World),
    Forall2 (fun a r => regexps w !! a = Some (mkRegExp r true true 0)) patterns rs ->
    forEach patterns
      (fun entities pattern =>
         let! matches := String_prototype_match rawInput pattern in
         ret (push_matches entities matches))
      acc w =
    (fold_left
       (fun entities pattern =>
          match String_match_g true pattern rawInput with
          | Some matches => entities ++ matches
          | None => entities
          end) rs acc, w).
Proof.
  intros patterns acc w H. revert acc.
  induction H as [|a r patterns rs Ha Hrest IH]; intros acc; [reflexivity |].
  cbn [forEach fold_left]. unfold bind at 1. unfold bind at 1.
  rewrite (match_global rawInput a w _ Ha eq_refl).
  pose proof (with_lastIndex_same a w _ Ha) as Hsame. cbn [lastIndex] in Hsame.
  rewrite Hsame. cbn [ignoreCase source ret].
  rewrite IH. now destruct (String_match_g true r rawInput).
Qed.

(** A pattern literal and the [match] on it: the value is that of the
    search from the start of the input, and the new object stays as it was
    made. *)
Lemma literal_match (r : regex) (g i : bool) (S : string)
      (e : list Entry) (L : list RegExpObject) :
  String_prototype_match S (length L) (mkWorld e (L ++ [mkRegExp r g i 0])) =
  (if g then all_value (String_match_g i r S) else exec_value (String_match i r S),
   mkWorld e (L ++ [mkRegExp r g i 0])).
Proof.
  assert (regexps (mkWorld e (L ++ [mkRegExp r g i 0])) !! length L =
          Some (mkRegExp r g i 0)) as Hfound by now apply list_lookup_middle.
  destruct g.
  - rewrite (match_global S _ _ _ Hfound eq_refl).
    pose proof (with_lastIndex_same _ _ _ Hfound) as Hsame. cbn [lastIndex] in Hsame.
    now rewrite Hsame.
  - now rewrite (match_once S _ _ _ Hfound eq_refl).
Qed.

(** One call of [processInput]: the annotation is the one the searches
    from the start of the input give, and the world has the objects of the
    eight literals more. *)
Lemma processInput_run_value (rawInput : string) (w : World) :
  processInput_run rawInput w =
  (processInput rawInput, mkWorld (entries w) (regexps w ++ literals)).
Proof.
  unfold processInput_run, bind. rewrite new_RegExps_value.
  rewrite (forEach_matches rawInput componentPatterns) by apply literals_found.
  unfold new_RegExp. cbn [entries regexps].
  rewrite !literal_match. unfold ret. cbn [entries regexps]. f_equal.
  - unfold processInput, extract_entities, extract_duration, extract_temperature,
      extract_voltage, extract_quantity.
    destruct (String_match_g true vendorPattern rawInput),
      (String_match true timePattern rawInput), (String_match true tempPattern rawInput),
      (String_match true voltagePattern rawInput), (String_match true countPattern rawInput);
      reflexivity.
  - unfold literals. rewrite map_app. cbn [map]. now rewrite <- !app_assoc.
Qed.

End Objects.

(** C9.  [processInput] depends on nothing but its argument, and leaves
    nothing behind that a later call could see.  Whatever the array
    [entries] holds and whatever RegExp objects there are, with whatever
    [lastIndex]: the annotation returned is the same (the same category,
    severity, entities in the same order and metrics), and it is the one
    the searches from the start of the input give; a second call on the
    same input, made in the world the first one left, returns it again;
    [entries] and every object that was there are as they were.  The
    objects of the pattern literals are new in each call; and what [match]
    returns on an object does not depend on the [lastIndex] it finds
    there, which it sets to 0 before it searches with the [g] flag and
    does not read without. *)
Theorem processInput_deterministic (rawInput : string) (w w' : World) :
  fst (processInput_run rawInput w) = fst (processInput_run rawInput w') /\
  fst (processInput_run rawInput (snd (processInput_run rawInput w))) =
    fst (processInput_run rawInput w) /\
  fst (processInput_run rawInput w) = processInput rawInput /\
  entries (snd (processInput_run rawInput w)) = entries w /\
  (forall a R,
      regexps w !! a = Some R ->
      regexps (snd (processInput_run rawInput w)) !! a = Some R) /\
  (forall a S R n,
      regexps w !! a = Some R ->
      fst (String_prototype_match S a (with_lastIndex a n w)) =
      fst (String_prototype_match S a w)).
Proof.
  rewrite !processInput_run_value. cbn [fst snd entries regexps].
  repeat split.
  - intros a R Ha. now apply lookup_app_l_Some.
  - intros a S R n Ha.
    pose proof (with_lastIndex_lookup a n w R Ha) as Hn.
    destruct (global R) eqn:Hg.
    + now rewrite (match_global S a w R Ha Hg), (match_global S a _ _ Hn eq_refl).
    + now rewrite (match_once S a w R Ha Hg), (match_once S a _ _ Hn eq_refl).
Qed.

Lemma processInput_deterministic_witness :
  fst (processInput_run "Motor overheating after 3 hours" sample_world) =
    fst (processInput_run "Motor overheating after 3 hours" (mkWorld [] [])) /\
  regexps (snd (processInput_run "Motor overheating after 3 hours" sample_world)) !! 0%nat =
    Some (mkRegExp timePattern true true 7) /\
  fst (String_prototype_match "3 hours, 2 days" 0 (with_lastIndex 0 9 sample_world)) =
    fst (String_prototype_match "3 hours, 2 days" 0 sample_world).
Proof.
  destruct (processInput_deterministic "Motor overheating after 3 hours"
              sample_world (mkWorld [] [])) as (H1 & _ & _ & _ & H5 & H6).
  split; [exact H1 |]. split.
  - apply H5. reflexivity.
  - apply (H6 0%nat "3 hours, 2 days" (mkRegExp timePattern true true 7) 9%nat).
    reflexivity.
Defined.

(** What the objects guard against: a search with [exec] on an object
    that is kept, as [match] is not, starts where the last one ended, and
    the same call gives another result. *)
Example exec_keeps_lastIndex :
  let w := mkWorld [] [mkRegExp (Lit "motor") true true 0] in
  option_map matched (fst (RegExp_exec 0 "motor" w)) = Some "motor" /\
  fst (RegExp_exec 0 "motor" (snd (RegExp_exec 0 "motor" w))) = None /\
  fst (String_prototype_match "motor" 0 (snd (RegExp_exec 0 "motor" w))) =
    MatchAll ["motor"].
Proof. repeat split; vm_compute; reflexivity. Qed.
